(** * fold: association forest, coordinate enumerator and matcher

    A shallow embedding of [fold.cpp] and the properties of its
    specification.

    Conventions of the embedding.
    - [unsigned int] values are numbers of type [N]; arithmetic whose
      result is not bounded by a container size is written with its
      32-bit wrap-around ([u32]); [size() - 1] is computed on [size_t]
      and wraps to [2^64 - 1] on an empty vector ([pred_size]).
    - A [std::vector] is a list.  A read [v[i]] is [at_ v i], which is
      [None] when [i] is out of range (undefined behaviour in the
      source); a cursor loop [for (i = 0; i < v.size(); i++)] is a
      structural recursion on the elements still to be scanned, vectors
      holding fewer than [2^32] elements.
    - [std::map<string, unsigned int>] is an association list kept in
      key order, the order in which [reverseEntries] walks it.
    - The input file is the list of its whitespace-separated tokens
      together with a flag telling whether white space follows the last
      token; [operator>>] and [eof()] are modelled on that.
    - What is printed is a list of events; an event [Visit] is added
      for each pair of coordinates [getNextFrame] loads, where the
      source has its commented-out trace of the coordinates. *)

From Stdlib Require Import String Ascii Bool Arith NArith List Lia.
Import ListNotations.

Local Open Scope N_scope.

(** * The program *)

(** ** Machine arithmetic and vectors *)

Definition u32 (n : N) : N := n mod 2 ^ 32.

(** [n - 1] on [size_t]. *)
Definition pred_size (n : N) : N := (n + (2 ^ 64 - 1)) mod 2 ^ 64.

Definition size {A : Type} (v : list A) : N := N.of_nat (length v).
Arguments size : simpl never.

(** [v[i]]; [None] is a read past the end. *)
Fixpoint at_ {A : Type} (v : list A) (i : N) : option A :=
  match v with
  | [] => None
  | x :: v' => if i =? 0 then Some x else at_ v' (N.pred i)
  end.

(** [v[i] = x]; [None] is a write past the end. *)
Fixpoint assign {A : Type} (v : list A) (i : N) (x : A) : option (list A) :=
  match v with
  | [] => None
  | y :: v' =>
      if i =? 0 then Some (x :: v') else option_map (cons y) (assign v' (N.pred i) x)
  end.

(** The elements of [v] from index [i] on. *)
Fixpoint from {A : Type} (v : list A) (i : N) : list A :=
  match v with
  | [] => []
  | _ :: v' => if i =? 0 then v else from v' (N.pred i)
  end.

Notation "x <- e ;; k" :=
  (match e with Some x => k | None => None end)
  (at level 61, e at next level, right associativity).
Notation "' p <- e ;; k" :=
  (match e with Some p => k | None => None end)
  (at level 61, p pattern, e at next level, right associativity).

(** ** Types of the source *)

Definition intVector : Type := list N.
Definition intVectorPair : Type := (N * intVector)%type.
Definition top : Type := list intVectorPair.
Definition tops : Type := list top.
Definition coord : Type := (N * N)%type.

(** ** The input stream *)

Module Istream.

(** The file [huge.txt]: its tokens, and whether white space (a final
    newline, say) follows the last of them. *)
Record file : Type := File { tokens : list string; trailing : bool }.

(** An open [fstream]: the tokens not read yet and the eof bit. *)
Record t : Type := Stream { pending : list string; trail : bool; eofbit : bool }.

Definition open (f : file) : t :=
  {| pending := tokens f; trail := trailing f; eofbit := false |}.

Definition eof (s : t) : bool := eofbit s.

(** [s >> word].  Once the eof bit is set, or when only white space is
    left, the extraction fails and [word] keeps its value.  Reading the
    last token sets the eof bit only when the token is not followed by
    white space. *)
Definition extract (s : t) (word : string) : t * string :=
  if eofbit s then (s, word)
  else
    match pending s with
    | [] => ({| pending := []; trail := trail s; eofbit := true |}, word)
    | w :: rest =>
        ({| pending := rest; trail := trail s;
            eofbit := match rest with [] => negb (trail s) | _ => false end |}, w)
    end.

End Istream.

(** ** The dictionaries *)

Module Dictionary.

(** [map <string, unsigned int>], in key order. *)
Definition t : Type := list (string * N).

Fixpoint find (d : t) (w : string) : option N :=
  match d with
  | [] => None
  | (k, v) :: d' => if String.eqb k w then Some v else find d' w
  end.

Definition count (d : t) (w : string) : N :=
  match find d w with Some _ => 1 | None => 0 end.

(** Position of a new key in the key order (on a key that is there,
    nothing). *)
Fixpoint place (d : t) (w : string) (v : N) : t :=
  match d with
  | [] => [(w, v)]
  | (k, x) :: d' =>
      match String.compare w k with
      | Lt => (w, v) :: d
      | Eq => d
      | Gt => (k, x) :: place d' w v
      end
  end.

(** [d.insert (pair (w, v))]: nothing happens when the key is there. *)
Definition insert (d : t) (w : string) (v : N) : t :=
  match find d w with
  | Some _ => d
  | None => place d w v
  end.

(** [d[w]]: a missing key is inserted with the value [0]. *)
Definition index (d : t) (w : string) : t * N :=
  match find d w with
  | Some v => (d, v)
  | None => (place d w 0, 0)
  end.

End Dictionary.

Module Reverse.

(** [map <unsigned int, string>]; it is only ever indexed. *)
Definition t : Type := list (N * string).

Fixpoint find (r : t) (k : N) : option string :=
  match r with
  | [] => None
  | (k', w) :: r' => if k' =? k then Some w else find r' k
  end.

Definition insert (r : t) (k : N) (w : string) : t :=
  match find r k with
  | Some _ => r
  | None => r ++ [(k, w)]
  end.

(** [r[k]]: a missing key yields the empty string (the entry that
    [operator[]] adds for it holds that same empty string, so later
    reads are unchanged and the map is not threaded). *)
Definition index (r : t) (k : N) : string :=
  match find r k with
  | Some w => w
  | None => EmptyString
  end.

End Reverse.

(** ** The functions of [fold.cpp] *)

(** The [for] of [populateChildren]: the leaves still to be pushed. *)
Fixpoint pushLeaves (rest children : intVector) : intVector :=
  match rest with
  | [] => children
  | l :: rest' => pushLeaves rest' (children ++ [l])
  end.

(** [root[sub]] is read by the loop test already: out of range, nothing
    is pushed. *)
Definition populateChildren (root : top) (sub : N) (children : intVector)
  : option intVector :=
  b <- at_ root sub ;;
  Some (pushLeaves (snd b) children).

Fixpoint populateChildrenForE (root : top) (children : intVector) : intVector :=
  match root with
  | [] => children
  | e :: root' => populateChildrenForE root' (children ++ [fst e])
  end.

(** The [while] of [findBranch]: [rest] are the entries from the cursor
    [i] on and [n] is [root.size ()].  [root[i].first] is read before
    [i] is compared with [n], so that with the cursor at [n] the read
    is out of range: [beyond] is the value it yields, if it yields one
    ([None]: the read fails, and nothing follows).  The cursor being
    [n] there, the comparison then ends the loop whatever the value;
    a loop that went on would read further out of range. *)
Fixpoint findBranch_scan (beyond : option N) (rest : top) (n x i : N) : option N :=
  match rest with
  | [] =>
      v <- beyond ;;
      if negb (v =? x) && negb (i =? n) then None else Some i
  | e :: rest' =>
      if negb (fst e =? x) && negb (i =? n)
      then findBranch_scan beyond rest' n x (i + 1)
      else Some i
  end.

Definition overTheLimit : string :=
  "over the limit in findBranch. Object not found/////////////////////////////////////////////////".

(** What [findBranch] writes on the standard output, and its result;
    [beyond] is what a read of [root[root.size ()].first] yields. *)
Definition findBranch (beyond : option N) (root : top) (x : N) : string * option N :=
  match findBranch_scan beyond root (size root) x 0 with
  | None => (EmptyString, None)
  | Some i => (if i =? size root then overTheLimit else EmptyString, Some i)
  end.

(** The scan stops on a match or on the last item, which is then the
    one tested. *)
Fixpoint doesNotContain (root : top) (x : N) : bool :=
  match root with
  | [] => true
  | e :: root' =>
      match root' with
      | [] => negb (fst e =? x)
      | _ :: _ => if negb (fst e =? x) then doesNotContain root' x else false
      end
  end.

(** One step of a coordinate inside its branch: past the last leaf of
    the branch it moves to the first leaf of the next branch. *)
Definition advance (root : top) (c : coord) : option coord :=
  b <- at_ root (fst c) ;;
  Some (if snd c =? pred_size (size (snd b))
        then (u32 (fst c + 1), 0)
        else (fst c, u32 (snd c + 1))).

Definition sweepAtEnd (root : top) (sc : coord) : option bool :=
  if fst sc =? pred_size (size root) then
    b <- at_ root (pred_size (size root)) ;;
    Some (snd sc =? pred_size (size (snd b)))
  else Some false.

Definition iterateCoordinates (root : top) (mainCoordinates sweepCoordinates : coord)
  : option (coord * coord) :=
  atEnd <- sweepAtEnd root sweepCoordinates ;;
  if atEnd then
    m <- advance root mainCoordinates ;;
    Some (m, m)
  else
    s <- advance root sweepCoordinates ;;
    Some (mainCoordinates, s).

Fixpoint grandchildren (root : top) (acc : N) : N :=
  match root with
  | [] => acc
  | e :: root' => grandchildren root' (u32 (acc + size (snd e)))
  end.

Definition maximum (root : top) : N :=
  let g := grandchildren root 0 in
  if g =? 1 then 1 else u32 (g * u32 (g + 1)) / 2.

Definition getNextFrame (current : N) (root : top) (frame : intVector)
    (mainCoordinates sweepCoordinates : coord) (ranBefore : bool)
  : option (intVector * coord * coord * bool) :=
  '(mc, sc) <- (if ranBefore
                then iterateCoordinates root mainCoordinates sweepCoordinates
                else Some (mainCoordinates, sweepCoordinates)) ;;
  frame <- assign frame 0 current ;;
  b <- at_ root (fst mc) ;;
  frame <- assign frame 1 (fst b) ;;
  c <- at_ (snd b) (snd mc) ;;
  frame <- assign frame 2 c ;;
  d <- at_ root (fst sc) ;;
  frame <- assign frame 3 (fst d) ;;
  g <- at_ (snd d) (snd sc) ;;
  frame <- assign frame 6 g ;;
  Some (frame, mc, sc, true).

(** The [while] of [getNext]: [rest] are the children from cursor [i] on. *)
Fixpoint getNext_skip (rest : intVector) (root : top) (i : N) : N :=
  match rest with
  | [] => i
  | c :: rest' => if doesNotContain root c then getNext_skip rest' root (i + 1) else i
  end.

(** Returns the frame, [gotNext] and the cursor.  Below the size of
    [children] the increment of the cursor is bounded by it; at the end
    or past it, it is the increment of an [unsigned int]. *)
Definition getNext (frame children : intVector) (root : top) (i framePos : N)
  : option (intVector * bool * N) :=
  let i := getNext_skip (from children i) root i in
  if negb (i <? size children) then Some (frame, false, u32 (i + 1))
  else
    c <- at_ children i ;;
    if doesNotContain root c then Some (frame, false, i + 1)
    else
      frame <- assign frame framePos c ;;
      Some (frame, true, i + 1).

(** The lines printed for a frame, one per slot. *)
Definition outPutAll (frame : intVector) (reverseDictionary : Reverse.t) : list string :=
  map (Reverse.index reverseDictionary) frame.

(** ** Loading *)

(** The [while (!vocab.eof ())] of [loadDictionary]; an iteration reads
    a token or sets the eof bit, so [fuel] above the number of pending
    tokens is never used up ([loadDictionary_spec]). *)
Fixpoint loadDictionary_loop (fuel : nat) (vocab : Istream.t) (word : string)
    (dictionary : Dictionary.t) : option Dictionary.t :=
  if Istream.eof vocab then Some dictionary
  else
    match fuel with
    | O => None
    | S fuel' =>
        let (vocab, word) := Istream.extract vocab word in
        let dictionary :=
          if Dictionary.count dictionary word =? 0
          then Dictionary.insert dictionary word (size dictionary)
          else dictionary in
        loadDictionary_loop fuel' vocab word dictionary
    end.

Definition loadDictionary (f : Istream.file) (dictionary : Dictionary.t)
  : option Dictionary.t :=
  let vocab := Istream.open f in
  loadDictionary_loop (S (length (Istream.pending vocab))) vocab EmptyString dictionary.

Definition reverseEntries (dictionary : Dictionary.t) (reverseDictionary : Reverse.t)
  : Reverse.t :=
  fold_left (fun r e => Reverse.insert r (snd e) (fst e)) dictionary reverseDictionary.

(** [while (root[i].first != x) i++]: running off the end is a read out
    of range. *)
Fixpoint seekBranch (rest : top) (x : N) (i : N) : option N :=
  match rest with
  | [] => None
  | e :: rest' => if fst e =? x then Some i else seekBranch rest' x (i + 1)
  end.

(** [while (k < leaves.size () && leaves[k] != x) k++]. *)
Fixpoint seekLeaf (rest : intVector) (x : N) (k : N) : N :=
  match rest with
  | [] => k
  | l :: rest' => if l =? x then k else seekLeaf rest' x (k + 1)
  end.

(** One turn of the read loop of [load]: [twoBack] and [oneBack] are
    what they were before the loop.  Of the three words indexed only
    [word] can be new to the dictionary. *)
Definition load_step (in_ : Istream.t) (word twoBack oneBack : string)
    (trees : tops) (dictionary : Dictionary.t)
  : option (Istream.t * string * tops * Dictionary.t) :=
  let (in_, word) := Istream.extract in_ word in
  let (dictionary, r) := Dictionary.index dictionary twoBack in
  let (dictionary, w) := Dictionary.index dictionary word in
  let (dictionary, o) := Dictionary.index dictionary oneBack in
  root <- at_ trees r ;;
  let root := if doesNotContain root w then root ++ [(w, [])] else root in
  i <- seekBranch root o 0 ;;
  b <- at_ root i ;;
  let k := seekLeaf (snd b) w 0 in
  let leaves := if k =? size (snd b) then snd b ++ [w] else snd b in
  root <- assign root i (fst b, leaves) ;;
  trees <- assign trees r root ;;
  Some (in_, word, trees, dictionary).

(** The [while (!in.eof ())] of [load], with [fuel] as in
    [loadDictionary_loop] ([load_loop_planted]). *)
Fixpoint load_loop (fuel : nat) (in_ : Istream.t) (word twoBack oneBack : string)
    (trees : tops) (dictionary : Dictionary.t) : option (tops * Dictionary.t) :=
  if Istream.eof in_ then Some (trees, dictionary)
  else
    match fuel with
    | O => None
    | S fuel' =>
        '(in_, word, trees, dictionary) <-
           load_step in_ word twoBack oneBack trees dictionary ;;
        load_loop fuel' in_ word twoBack oneBack trees dictionary
    end.

(** [load] up to the call of [reverseEntries]: the forest and the local
    dictionary. *)
Definition build (f : Istream.file) : option (tops * Dictionary.t) :=
  let in_ := Istream.open f in
  dictionary <- loadDictionary f [] ;;
  let trees : tops := repeat [] (length dictionary) in
  let (in_, twoBack) := Istream.extract in_ EmptyString in
  let (in_, oneBack) := Istream.extract in_ EmptyString in
  let (dictionary, b) := Dictionary.index dictionary oneBack in
  let (dictionary, r) := Dictionary.index dictionary twoBack in
  root <- at_ trees r ;;
  trees <- assign trees r (root ++ [(b, [])]) ;;
  load_loop (S (length (Istream.pending in_))) in_ EmptyString twoBack oneBack
    trees dictionary.

Definition load (f : Istream.file) : option (tops * Reverse.t) :=
  '(trees, dictionary) <- build f ;;
  Some (trees, reverseEntries dictionary []).

(** ** The search phase *)

Definition sentinel : N := 1234578.

Inductive event : Type :=
| Line (s : string)          (* a line of text *)
| Root (current : N)         (* the line "root: " followed by the root's word *)
| Visit (mc sc : coord)      (* the pair [getNextFrame] has just loaded; prints nothing *)
| Emit (frame : intVector).  (* a divider line, then the frame *)

(** A computation prints events and then returns, or stops on a read or
    write out of range. *)
Definition run (A : Type) : Type := (list event * option A)%type.

Definition ret {A : Type} (a : A) : run A := ([], Some a).
Definition emit (e : event) : run unit := ([e], Some tt).
Definition lift {A : Type} (o : option A) : run A := ([], o).
Definition bind {A B : Type} (m : run A) (k : A -> run B) : run B :=
  match m with
  | (t, None) => (t, None)
  | (t, Some a) => let (t', r) := k a in (t ++ t', r)
  end.

Notation "x <~ e ;; k" := (bind e (fun x => k))
  (at level 61, e at next level, right associativity).
Notation "' p <~ e ;; k" := (bind e (fun x => match x with p => k end))
  (at level 61, p pattern, e at next level, right associativity).

(** The [while (gotNextE)] of [main]; a call of [getNext] moves the
    cursor forward, so [fuel] above the number of children is never used
    up ([matchLoop_start]). *)
Fixpoint matchLoop (fuel : nat) (frame children : intVector) (rootD : top) (iterE : N)
  : run intVector :=
  match fuel with
  | O => lift None
  | S fuel' =>
      '(frame, gotNextE, iterE) <~ lift (getNext frame children rootD iterE 4) ;;
      if gotNextE : bool then
        _ <~ emit (Emit frame) ;;
        matchLoop fuel' frame children rootD iterE
      else ret frame
  end.

(** One turn of the [for (pos = 0; pos < max; pos++)] of [main]; it
    leaves the frame, the two coordinates and [ranBefore]. *)
Definition turn (trees : tops) (current : N) (root : top)
    (frame : intVector) (mc sc : coord) (ranBefore : bool)
  : run (intVector * coord * coord * bool) :=
  '(frame, mc, sc, ranBefore) <~
     lift (getNextFrame current root frame mc sc ranBefore) ;;
  _ <~ emit (Visit mc sc) ;;
  b <~ lift (at_ frame 1) ;;
  rootB <~ lift (at_ trees b) ;;
  d <~ lift (at_ frame 3) ;;
  rootD <~ lift (at_ trees d) ;;
  let children := populateChildrenForE rootB [] in
  frame <~ matchLoop (S (length children)) frame children rootD 0 ;;
  ret (frame, mc, sc, ranBefore).

(** [n] turns of that loop. *)
Fixpoint posLoop (n : nat) (trees : tops) (current : N) (root : top)
    (frame : intVector) (mc sc : coord) (ranBefore : bool)
  : run (intVector * coord * coord * bool) :=
  match n with
  | O => ret (frame, mc, sc, ranBefore)
  | S n' =>
      '(frame, mc, sc, ranBefore) <~ turn trees current root frame mc sc ranBefore ;;
      posLoop n' trees current root frame mc sc ranBefore
  end.

(** The body of [for (current = 0; current < trees.size (); current++)]. *)
Definition searchRoot (trees : tops) (current : N) (frame : intVector) : run intVector :=
  root <~ lift (at_ trees current) ;;
  let max := maximum root in
  _ <~ emit (Root current) ;;
  '(frame, _, _, _) <~
     posLoop (N.to_nat max) trees current root frame (0, 0) (0, 0) false ;;
  ret frame.

Fixpoint rootLoop (todo : tops) (trees : tops) (current : N) (frame : intVector)
  : run intVector :=
  match todo with
  | [] => ret frame
  | _ :: todo' =>
      frame <~ searchRoot trees current frame ;;
      rootLoop todo' trees (current + 1) frame
  end.

Definition search (trees : tops) : run intVector :=
  _ <~ emit (Line "begin search phase") ;;
  rootLoop trees trees 0 (repeat sentinel 9).

(** The events of a whole run and the reverse dictionary that resolves
    them. *)
Definition main (f : Istream.file) : Reverse.t * run intVector :=
  match load f with
  | None => ([], ([Line "dictionary loaded"], None))
  | Some (trees, reverseDictionary) =>
      (reverseDictionary, _ <~ emit (Line "dictionary loaded") ;; search trees)
  end.

Definition divider : string := "/////////////////////////////////".

(** What an event writes on the standard output. *)
Definition render (reverseDictionary : Reverse.t) (e : event) : list string :=
  match e with
  | Line s => [s]
  | Root current => [("root: " ++ Reverse.index reverseDictionary current)%string]
  | Visit _ _ => []
  | Emit frame => divider :: outPutAll frame reverseDictionary
  end.

Definition stdout (f : Istream.file) : list string :=
  flat_map (render (fst (main f))) (fst (snd (main f))).

Definition emitted (t : list event) : list intVector :=
  flat_map (fun e => match e with Emit frame => [frame] | _ => [] end) t.

Definition visited (t : list event) : list (coord * coord) :=
  flat_map (fun e => match e with Visit mc sc => [(mc, sc)] | _ => [] end) t.

(** * Notions of the specification *)

(** ** Forests *)

Definition branchIds (root : top) : list N := map fst root.

(** [l] is a leaf of a branch entry [b] of [root]. *)
Definition leafUnder (root : top) (b l : N) : Prop :=
  exists e, In e root /\ fst e = b /\ In l (snd e).

(** The leaves of all the branch entries of a root, counted exactly. *)
Fixpoint leafCount (root : top) : N :=
  match root with
  | [] => 0
  | e :: root' => size (snd e) + leafCount root'
  end.

(** Every branch entry has a leaf. *)
Definition leafy (root : top) : Prop := Forall (fun e => snd e <> []) root.

(** No root has a leaf. *)
Definition leafless (trees : tops) : Prop := Forall (fun root => leafCount root = 0) trees.


(** Within a root no two branch entries have the same id. *)
Definition uniqueBranches (trees : tops) : Prop :=
  Forall (fun root => NoDup (branchIds root)) trees.

(** The forest a file is loaded into. *)
Definition forest (f : Istream.file) : tops :=
  match load f with Some (trees, _) => trees | None => [] end.

(** A file that ends with its last token. *)
Definition corpus (ws : list string) : Istream.file :=
  {| Istream.tokens := ws; Istream.trailing := false |}.

(** ** Frames *)

Definition slot (frame : intVector) (k : N) : N :=
  match at_ frame k with Some x => x | None => 0 end.

(** Slots 1 and 3 are branches of the root in slot 0, slot 2 a leaf
    under slot 1 and slot 6 a leaf under slot 3. *)
Definition rooted (trees : tops) (frame : intVector) : Prop :=
  exists root,
    at_ trees (slot frame 0) = Some root /\
    In (slot frame 1) (branchIds root) /\
    In (slot frame 3) (branchIds root) /\
    leafUnder root (slot frame 1) (slot frame 2) /\
    leafUnder root (slot frame 3) (slot frame 6).

(** Slot 4 is a branch of the tree of slot 1 and of the tree of slot 3. *)
Definition sharedContinuation (trees : tops) (frame : intVector) : Prop :=
  exists rootB rootD,
    at_ trees (slot frame 1) = Some rootB /\
    at_ trees (slot frame 3) = Some rootD /\
    In (slot frame 4) (branchIds rootB) /\
    In (slot frame 4) (branchIds rootD).

(** Nine slots, the reserved ones holding the value of the fill
    constructor. *)
Definition reserved (frame : intVector) : Prop :=
  size frame = 9 /\
  at_ frame 5 = Some sentinel /\ at_ frame 7 = Some sentinel /\ at_ frame 8 = Some sentinel.

Definition wellFormed (trees : tops) (frame : intVector) : Prop :=
  rooted trees frame /\ sharedContinuation trees frame /\ reserved frame.

(** [c] is a branch id of [root]. *)
Definition matching (root : top) (c : N) : bool := negb (doesNotContain root c).

(** The frame with [x] in slot 4. *)
Definition store (frame : intVector) (x : N) : intVector :=
  match assign frame 4 x with Some frame' => frame' | None => frame end.

(** What the specification says of the rendering: the six defined slots
    only. *)
Definition definedSlotsOnly (reverseDictionary : Reverse.t) (frame : intVector) : Prop :=
  outPutAll frame reverseDictionary
  = map (fun k => Reverse.index reverseDictionary (slot frame k)) [0; 1; 2; 3; 4; 6].

(** ** Runs *)

(** Every event of the run satisfies [P], and its result, if it has
    one, satisfies [Q]. *)
Definition run_all {A : Type} (P : event -> Prop) (Q : A -> Prop) (m : run A) : Prop :=
  Forall P (fst m) /\ forall a, snd m = Some a -> Q a.

(** A property of the emitted frames, as a property of events. *)
Definition onEmit (P : intVector -> Prop) (e : event) : Prop :=
  match e with Emit frame => P frame | _ => True end.

(** The root lines of the roots [current], [current + 1], ... *)
Fixpoint rootLines (todo : tops) (current : N) : list event :=
  match todo with
  | [] => []
  | _ :: todo' => Root current :: rootLines todo' (current + 1)
  end.

(** From the coordinates [x] and [y] the loop of [main] visits the
    pairs [vs] and returns. *)
Definition walksFrom (trees : tops) (current : N) (root : top)
    (rb : bool) (x y : coord) (vs : list (coord * coord)) : Prop :=
  forall frame,
    reserved frame ->
    exists t st,
      posLoop (length vs) trees current root frame x y rb = (t, Some st) /\
      visited t = vs.

(** ** The vocabulary *)

(** What [loadDictionary] does with one word. *)
Definition intern (dictionary : Dictionary.t) (word : string) : Dictionary.t :=
  if Dictionary.count dictionary word =? 0
  then Dictionary.insert dictionary word (size dictionary)
  else dictionary.

(** The dictionary after the tokens [ws]; a file without any token has
    the one failed extraction interned, the empty word. *)
Definition vocabulary (ws : list string) : Dictionary.t :=
  match ws with
  | [] => intern [] EmptyString
  | _ :: _ => fold_left intern ws []
  end.

(** The words of a token list, each once, in the order of their first
    occurrence. *)
Fixpoint distinctFrom (seen ws : list string) : list string :=
  match ws with
  | [] => seen
  | w :: ws' =>
      distinctFrom (if existsb (String.eqb w) seen then seen else seen ++ [w]) ws'
  end.

Definition distinct (ws : list string) : list string := distinctFrom [] ws.

(** [d] gives the words of [seen], and no other, their positions in
    it. *)
Definition enumerates (d : Dictionary.t) (seen : list string) : Prop :=
  size d = size seen /\
  NoDup seen /\
  forall w i, Dictionary.find d w = Some i <-> at_ seen i = Some w.

(** The ids of the dictionary are below [n]. *)
Definition bounded (n : N) (d : Dictionary.t) : Prop := Forall (fun e => snd e < n) d.

(** ** The build *)

(** The words [twoBack] and [oneBack] are read into, once. *)
Definition seedWords (ws : list string) : string * string :=
  match ws with
  | [] => (EmptyString, EmptyString)
  | [a] => (a, EmptyString)
  | a :: b :: _ => (a, b)
  end.

(** The stream after these two extractions. *)
Definition afterSeeds (f : Istream.file) : Istream.t :=
  match Istream.tokens f with
  | a :: b :: rest =>
      {| Istream.pending := rest; Istream.trail := Istream.trailing f;
         Istream.eofbit := match rest with [] => negb (Istream.trailing f) | _ => false end |}
  | _ => {| Istream.pending := []; Istream.trail := Istream.trailing f;
            Istream.eofbit := true |}
  end.

(** The forest between the words of the read loop: the tree of the id
    0 starts with the entry of [oneBack], and the other trees are
    empty. *)
Definition planted (twoBack oneBack : string) (o : N) (k : nat)
    (trees : tops) (dictionary : Dictionary.t) : Prop :=
  Dictionary.find dictionary twoBack = Some 0 /\
  Dictionary.find dictionary oneBack = Some o /\
  exists leaves more, trees = ((o, leaves) :: more) :: repeat [] k.

(** The turns the read loop still has to make. *)
Definition turns (s : Istream.t) : nat :=
  if Istream.eofbit s then O else S (length (Istream.pending s)).

Module Windows.

(** Following the specification's words: the build with a sliding
    window of three tokens, on word ids. *)

Definition addLeaf (leaves : intVector) (w_leaf : N) : intVector :=
  if existsb (N.eqb w_leaf) leaves then leaves else leaves ++ [w_leaf].

Fixpoint addToBranch (root : top) (w_branch w_leaf : N) : top :=
  match root with
  | [] => [(w_branch, [w_leaf])]
  | e :: root' =>
      if fst e =? w_branch then (fst e, addLeaf (snd e) w_leaf) :: root'
      else e :: addToBranch root' w_branch w_leaf
  end.

Definition window (forest : tops) (w_root w_branch w_leaf : N) : tops :=
  match at_ forest w_root with
  | Some root =>
      match assign forest w_root (addToBranch root w_branch w_leaf) with
      | Some forest' => forest'
      | None => forest
      end
  | None => forest
  end.

Fixpoint slide (ids : list N) (forest : tops) : tops :=
  match ids with
  | [] => forest
  | w_root :: rest =>
      match rest with
      | w_branch :: w_leaf :: _ => slide rest (window forest w_root w_branch w_leaf)
      | _ => forest
      end
  end.

End Windows.

(** ** The flattened leaf positions of a root *)

(** The coordinates of the leaves of branch [b], from leaf index [l]. *)
Fixpoint leafCoords (b : N) (leaves : intVector) (l : N) : list coord :=
  match leaves with
  | [] => []
  | _ :: leaves' => (b, l) :: leafCoords b leaves' (l + 1)
  end.

(** The coordinates of all the leaves, in branch-list and leaf-set
    order, the first branch having the index [b]. *)
Fixpoint flattenFrom (root : top) (b : N) : list coord :=
  match root with
  | [] => []
  | e :: root' => leafCoords b (snd e) 0 ++ flattenFrom root' (b + 1)
  end.

Definition flatten (root : top) : list coord := flattenFrom root 0.

(** The pairs of an upper triangle, the diagonal included, row by row. *)
Fixpoint upper {A : Type} (l : list A) : list (A * A) :=
  match l with
  | [] => []
  | x :: l' => map (pair x) l ++ upper l'
  end.

(** The order of (branch index, leaf index). *)
Definition lexLt (m s : coord) : Prop := fst m < fst s \/ (fst m = fst s /\ snd m < snd s).

Definition lexLe (m s : coord) : Prop := fst m < fst s \/ (fst m = fst s /\ snd m <= snd s).

(** [l] is increasing: each element is below the elements after it. *)
Fixpoint increasing (l : list coord) : Prop :=
  match l with
  | [] => True
  | x :: l' => Forall (lexLt x) l' /\ increasing l'
  end.

Module Positions.

(** Following the specification's words: [main] and [sweep] as
    positions in the flattened sequence of [L] leaves. *)
Definition next (L main sweep : nat) : nat * nat :=
  if (S sweep =? L)%nat then (S main, S main) else (main, S sweep).

End Positions.

(** [iterateCoordinates] does on the coordinates of [root] what the
    specification says of the positions, wherever the next positions
    exist. *)
Definition followsPositions (root : top) : Prop :=
  forall main sweep m s m' s',
    (main <= sweep)%nat ->
    nth_error (flatten root) main = Some m ->
    nth_error (flatten root) sweep = Some s ->
    nth_error (flatten root)
      (fst (Positions.next (length (flatten root)) main sweep)) = Some m' ->
    nth_error (flatten root)
      (snd (Positions.next (length (flatten root)) main sweep)) = Some s' ->
    iterateCoordinates root m s = Some (m', s').

(** ** Sample forests *)

(** The forest the specification expects of the corpus "a b c a b d",
    with a = 0, b = 1, c = 2 and d = 3, and the one [load] builds. *)
Definition expectedForest : tops := [[(1, [2; 3])]; [(2, [0])]; [(0, [1])]; []].

Definition builtForest : tops :=
  [[(1, [2; 0; 1; 3]); (2, []); (0, []); (3, [])]; []; []; []].

(** A root with branches of two leaves and of one leaf, in a forest. *)
Definition smallRoot : top := [(1, [1; 2]); (2, [0])].

Definition smallForest : tops := [smallRoot; []; [(0, [1])]].

(** A root whose second branch entry has no leaf, in a forest. *)
Definition gapRoot : top := [(0, [0; 1]); (1, [])].

Definition gapForest : tops := [gapRoot; []].

(** The frame of [main] before the search. *)
Definition blankFrame : intVector := repeat sentinel 9.

(** * Notions of the further properties *)

(** [dictionary[w]] as a value. *)
Definition idOf (d : Dictionary.t) (w : string) : N := snd (Dictionary.index d w).

(** The tree of the first token once the read loop has seen the words
    [sw]: the entry of [oneBack] holds them all as leaves, and each of
    them but [oneBack] has an entry without leaves. *)
Definition seedTree (d : Dictionary.t) (oneBack : string) (sw : list string) : top :=
  (idOf d oneBack, map (idOf d) sw)
  :: map (fun w => (idOf d w, [])) (filter (fun w => negb (String.eqb w oneBack)) sw).

(** No two words of [d] have the same id. *)
Definition injective (d : Dictionary.t) : Prop :=
  forall w w' i, Dictionary.find d w = Some i -> Dictionary.find d w' = Some i -> w = w'.

(** [w] is a word of [d]. *)
Definition known (d : Dictionary.t) (w : string) : Prop := Dictionary.find d w <> None.

(** What the build keeps true of a root: the ids it holds are below
    [n], the leaves of an entry are distinct, and every leaf is the id
    of an entry of the root as well. *)
Definition soundRoot (n : N) (root : top) : Prop :=
  Forall (fun e => fst e < n /\
                   Forall (fun l => l < n) (snd e) /\
                   NoDup (snd e) /\
                   incl (snd e) (branchIds root)) root.

Definition sound (trees : tops) : Prop := Forall (soundRoot (size trees)) trees.

(** * Lemmas *)

(** ** Vectors: reads and writes *)

Section Vectors.

Context {A : Type}.
Implicit Types (v : list A) (i j : N) (x : A).

Lemma at_nth_error v : forall i, at_ v i = nth_error v (N.to_nat i).
Proof.
  induction v as [|y v IH]; intros i; simpl.
  - now destruct (N.to_nat i).
  - destruct (N.eqb_spec i 0) as [->|Hi]; [reflexivity|].
    rewrite IH. replace (N.to_nat i) with (S (N.to_nat (N.pred i))) by lia.
    reflexivity.
Qed.

Lemma at_In v i x : at_ v i = Some x -> In x v.
Proof. rewrite at_nth_error. apply nth_error_In. Qed.

Lemma at_lt v i x : at_ v i = Some x -> i < size v.
Proof.
  rewrite at_nth_error. intros H.
  assert (N.to_nat i < length v)%nat by (apply nth_error_Some; congruence).
  unfold size. lia.
Qed.

Lemma at_Some v i : i < size v -> exists x, at_ v i = Some x.
Proof.
  unfold size. intros H. rewrite at_nth_error.
  destruct (nth_error v (N.to_nat i)) eqn:E; [eauto|].
  apply nth_error_None in E. lia.
Qed.

Lemma at_app_l v v' i : i < size v -> at_ (v ++ v') i = at_ v i.
Proof.
  unfold size. intros H. rewrite !at_nth_error. apply nth_error_app1. lia.
Qed.

Lemma at_app_r v v' i : at_ (v ++ v') (size v + i) = at_ v' i.
Proof.
  unfold size. rewrite !at_nth_error.
  replace (N.to_nat (N.of_nat (length v) + i)) with (length v + N.to_nat i)%nat by lia.
  rewrite nth_error_app2 by lia. f_equal. lia.
Qed.

Lemma at_middle v x v' : at_ (v ++ x :: v') (size v) = Some x.
Proof.
  replace (size v) with (size v + 0) by lia. now rewrite at_app_r.
Qed.

Lemma size_app v v' : size (v ++ v') = size v + size v'.
Proof. unfold size. rewrite length_app. lia. Qed.

Lemma size_cons x v : size (x :: v) = size v + 1.
Proof. unfold size. simpl. lia. Qed.

Lemma size_nil : size (@nil A) = 0.
Proof. reflexivity. Qed.

Lemma assign_at v : forall i x v',
  assign v i x = Some v' ->
  forall j, at_ v' j = if j =? i then Some x else at_ v j.
Proof.
  induction v as [|y v IH]; intros i x v' H j; simpl in H; [discriminate|].
  destruct (N.eqb_spec i 0) as [->|Hi].
  - injection H as <-. simpl. now destruct (j =? 0).
  - destruct (assign v (N.pred i) x) as [w|] eqn:E; [|discriminate].
    injection H as <-. simpl.
    destruct (N.eqb_spec j 0) as [->|Hj].
    + destruct (N.eqb_spec 0 i); [lia|reflexivity].
    + rewrite (IH _ _ _ E).
      destruct (N.eqb_spec (N.pred j) (N.pred i)), (N.eqb_spec j i);
        try reflexivity; lia.
Qed.

Lemma assign_size v : forall i x v', assign v i x = Some v' -> size v' = size v.
Proof.
  induction v as [|y v IH]; intros i x v' H; simpl in H; [discriminate|].
  destruct (i =? 0).
  - injection H as <-. reflexivity.
  - destruct (assign v (N.pred i) x) as [w|] eqn:E; [|discriminate].
    injection H as <-. rewrite !size_cons. now rewrite (IH _ _ _ E).
Qed.

Lemma assign_Some v : forall i x, i < size v -> exists v', assign v i x = Some v'.
Proof.
  induction v as [|y v IH]; intros i x H.
  - unfold size in H. simpl in H. lia.
  - simpl. destruct (N.eqb_spec i 0); [eauto|].
    destruct (IH (N.pred i) x) as [w ->]; [rewrite size_cons in H; lia|].
    simpl. eauto.
Qed.

Lemma assign_assign v : forall i x y v',
  assign v i x = Some v' -> assign v' i y = assign v i y.
Proof.
  induction v as [|z v IH]; intros i x y v' H; simpl in H; [discriminate|].
  destruct (i =? 0) eqn:Ei.
  - injection H as <-. simpl. now rewrite Ei.
  - destruct (assign v (N.pred i) x) as [w|] eqn:E; [|discriminate].
    injection H as <-. simpl. rewrite Ei. now rewrite (IH _ _ _ _ E).
Qed.

End Vectors.

Ltac sizes := rewrite ?size_app, ?size_cons, ?size_nil in *.

(** ** Branch lists *)

Lemma populateChildrenForE_spec root : forall children,
  populateChildrenForE root children = children ++ branchIds root.
Proof.
  induction root as [|e root IH]; intros children; simpl.
  - now rewrite app_nil_r.
  - rewrite IH, <- app_assoc. reflexivity.
Qed.

Lemma doesNotContain_spec root x :
  doesNotContain root x = negb (existsb (N.eqb x) (branchIds root)).
Proof.
  induction root as [|e root IH]; [reflexivity|].
  cbn [doesNotContain branchIds map existsb]. fold (branchIds root).
  rewrite (N.eqb_sym x (fst e)).
  destruct root as [|e' root].
  - simpl. now rewrite orb_false_r.
  - rewrite IH. now destruct (fst e =? x).
Qed.

Lemma doesNotContain_false root x :
  doesNotContain root x = false <-> In x (branchIds root).
Proof.
  rewrite doesNotContain_spec, negb_false_iff, existsb_exists.
  split.
  - intros (y & Hy & E). apply N.eqb_eq in E. now subst.
  - intros H. exists x. split; [assumption|apply N.eqb_refl].
Qed.

Lemma doesNotContain_true root x :
  doesNotContain root x = true <-> ~ In x (branchIds root).
Proof.
  rewrite <- doesNotContain_false. destruct (doesNotContain root x); intuition congruence.
Qed.

(** ** Runs *)

Lemma run_all_ret {A : Type} (P : event -> Prop) (Q : A -> Prop) a :
  Q a -> run_all P Q (ret a).
Proof. intros H. split; simpl; [constructor|]. now intros ? [= <-]. Qed.

Lemma run_all_emit (P : event -> Prop) (Q : unit -> Prop) e :
  P e -> Q tt -> run_all P Q (emit e).
Proof. intros H HQ. split; simpl; [auto|]. now intros ? [= <-]. Qed.

Lemma run_all_lift {A : Type} (P : event -> Prop) (Q : A -> Prop) (o : option A) :
  (forall a, o = Some a -> Q a) -> run_all P Q (lift o).
Proof. intros H. split; simpl; [constructor|assumption]. Qed.

Lemma run_all_bind {A B : Type} (P : event -> Prop) (Q : A -> Prop) (R : B -> Prop)
    (m : run A) (k : A -> run B) :
  run_all P Q m -> (forall a, Q a -> run_all P R (k a)) -> run_all P R (bind m k).
Proof.
  destruct m as [t [a|]]; intros [Ht Ha] Hk; unfold bind; simpl in *.
  - specialize (Hk a (Ha a eq_refl)). destruct (k a) as [t' r], Hk as [Ht' Hr].
    split; simpl in *; [apply Forall_app; auto|assumption].
  - split; simpl; [assumption|discriminate].
Qed.

Lemma bind_lift_Some {A B : Type} (a : A) (k : A -> run B) : bind (lift (Some a)) k = k a.
Proof. unfold bind, lift. now destruct (k a). Qed.

Lemma bind_lift_None {A B : Type} (k : A -> run B) : bind (lift None) k = ([], None).
Proof. reflexivity. Qed.

Lemma bind_ret {A B : Type} (a : A) (k : A -> run B) : bind (ret a) k = k a.
Proof. apply bind_lift_Some. Qed.

Lemma bind_emit {B : Type} (e : event) (k : unit -> run B) :
  bind (emit e) k = (e :: fst (k tt), snd (k tt)).
Proof. unfold bind, emit. now destruct (k tt). Qed.

Lemma emitted_app t t' : emitted (t ++ t') = emitted t ++ emitted t'.
Proof. apply flat_map_app. Qed.

Lemma visited_app t t' : visited (t ++ t') = visited t ++ visited t'.
Proof. apply flat_map_app. Qed.

Lemma Forall_emitted (P : intVector -> Prop) t :
  Forall (onEmit P) t <-> Forall P (emitted t).
Proof.
  induction t as [|e t IH]; simpl; [split; constructor|].
  rewrite Forall_cons_iff, IH.
  destruct e; simpl; rewrite ?Forall_cons_iff; tauto.
Qed.

(** ** Frames *)

Lemma getNextFrame_spec current root frame mc sc rb frame' mc' sc' rb' :
  getNextFrame current root frame mc sc rb = Some (frame', mc', sc', rb') ->
  (if rb then iterateCoordinates root mc sc else Some (mc, sc)) = Some (mc', sc') /\
  rb' = true /\
  size frame' = size frame /\
  exists b c d g,
    at_ root (fst mc') = Some b /\ at_ (snd b) (snd mc') = Some c /\
    at_ root (fst sc') = Some d /\ at_ (snd d) (snd sc') = Some g /\
    forall j, at_ frame' j =
              if j =? 6 then Some g
              else if j =? 3 then Some (fst d)
              else if j =? 2 then Some c
              else if j =? 1 then Some (fst b)
              else if j =? 0 then Some current
              else at_ frame j.
Proof.
  unfold getNextFrame. intros H.
  destruct (if rb then _ else _) as [[m s]|]; [|discriminate].
  destruct (assign frame 0 current) as [f0|] eqn:E0; [|discriminate].
  destruct (at_ root (fst m)) as [b|] eqn:Eb; [|discriminate].
  destruct (assign f0 1 (fst b)) as [f1|] eqn:E1; [|discriminate].
  destruct (at_ (snd b) (snd m)) as [c|] eqn:Ec; [|discriminate].
  destruct (assign f1 2 c) as [f2|] eqn:E2; [|discriminate].
  destruct (at_ root (fst s)) as [d|] eqn:Ed; [|discriminate].
  destruct (assign f2 3 (fst d)) as [f3|] eqn:E3; [|discriminate].
  destruct (at_ (snd d) (snd s)) as [g|] eqn:Eg; [|discriminate].
  destruct (assign f3 6 g) as [f6|] eqn:E6; [|discriminate].
  injection H as <- <- <- <-.
  repeat split.
  - rewrite (assign_size _ _ _ _ E6), (assign_size _ _ _ _ E3),
      (assign_size _ _ _ _ E2), (assign_size _ _ _ _ E1).
    apply (assign_size _ _ _ _ E0).
  - exists b, c, d, g. repeat split; try assumption.
    intros j.
    rewrite (assign_at _ _ _ _ E6), (assign_at _ _ _ _ E3), (assign_at _ _ _ _ E2),
      (assign_at _ _ _ _ E1), (assign_at _ _ _ _ E0).
    reflexivity.
Qed.

Lemma getNextFrame_Some current root frame mc sc (rb : bool) mc' sc' b c d g :
  (if rb then iterateCoordinates root mc sc else Some (mc, sc)) = Some (mc', sc') ->
  6 < size frame ->
  at_ root (fst mc') = Some b -> at_ (snd b) (snd mc') = Some c ->
  at_ root (fst sc') = Some d -> at_ (snd d) (snd sc') = Some g ->
  exists frame', getNextFrame current root frame mc sc rb = Some (frame', mc', sc', true).
Proof.
  intros Hit Hsz Hb Hc Hd Hg. unfold getNextFrame. rewrite Hit.
  destruct (assign_Some frame 0 current) as [f0 E0]; [lia|]. rewrite E0.
  pose proof (assign_size _ _ _ _ E0) as S0.
  rewrite Hb.
  destruct (assign_Some f0 1 (fst b)) as [f1 E1]; [lia|]. rewrite E1.
  pose proof (assign_size _ _ _ _ E1) as S1.
  rewrite Hc.
  destruct (assign_Some f1 2 c) as [f2 E2]; [lia|]. rewrite E2.
  pose proof (assign_size _ _ _ _ E2) as S2.
  rewrite Hd.
  destruct (assign_Some f2 3 (fst d)) as [f3 E3]; [lia|]. rewrite E3.
  pose proof (assign_size _ _ _ _ E3) as S3.
  rewrite Hg.
  destruct (assign_Some f3 6 g) as [f6 E6]; [lia|]. rewrite E6.
  eauto.
Qed.

(** ** The matcher *)

Lemma from_app {A : Type} (pre rest : list A) : from (pre ++ rest) (size pre) = rest.
Proof.
  induction pre as [|x pre IH]; cbn [from app].
  - destruct rest; reflexivity.
  - rewrite size_cons.
    destruct (N.eqb_spec (size pre + 1) 0) as [E|_]; [lia|].
    replace (N.pred (size pre + 1)) with (size pre) by lia. exact IH.
Qed.

Lemma from_past {A : Type} (v : list A) : forall i, size v <= i -> from v i = [].
Proof.
  induction v as [|x v IH]; intros i H; [reflexivity|].
  rewrite size_cons in H. simpl.
  destruct (N.eqb_spec i 0); [lia|]. apply IH. lia.
Qed.

Lemma getNext_skip_none root rest : forall i,
  Forall (fun c => doesNotContain root c = true) rest ->
  getNext_skip rest root i = i + size rest.
Proof.
  induction rest as [|c rest IH]; intros i H; simpl.
  - unfold size. simpl. lia.
  - inversion H as [|? ? Hc Hrest]; subst. rewrite Hc, IH by assumption.
    rewrite size_cons. lia.
Qed.

Lemma getNext_skip_some root skipped c rest : forall i,
  Forall (fun c => doesNotContain root c = true) skipped ->
  doesNotContain root c = false ->
  getNext_skip (skipped ++ c :: rest) root i = i + size skipped.
Proof.
  induction skipped as [|s skipped IH]; intros i H Hc; simpl.
  - rewrite Hc. unfold size. simpl. lia.
  - inversion H as [|? ? Hs Hrest]; subst. rewrite Hs, IH by assumption.
    rewrite size_cons. lia.
Qed.

(** Either no child from the cursor on is a branch of [root], or there
    is a first one. *)
Lemma first_match root (rest : intVector) :
  Forall (fun c => doesNotContain root c = true) rest \/
  exists skipped c rest',
    rest = skipped ++ c :: rest' /\
    Forall (fun c => doesNotContain root c = true) skipped /\
    doesNotContain root c = false.
Proof.
  induction rest as [|x rest IH]; [left; constructor|].
  destruct (doesNotContain root x) eqn:Ex.
  - destruct IH as [IH|(skipped & c & rest' & -> & Hs & Hc)].
    + left. now constructor.
    + right. exists (x :: skipped), c, rest'. repeat split; auto.
  - right. exists [], x, rest. repeat split; auto.
Qed.

Lemma getNext_exhausted frame pre rest root pos :
  Forall (fun c => doesNotContain root c = true) rest ->
  getNext frame (pre ++ rest) root (size pre) pos
  = Some (frame, false, u32 (size (pre ++ rest) + 1)).
Proof.
  intros H. unfold getNext. rewrite from_app, getNext_skip_none by assumption.
  rewrite size_app, N.ltb_irrefl. reflexivity.
Qed.

Lemma getNext_past frame children root i pos :
  size children <= i -> getNext frame children root i pos = Some (frame, false, u32 (i + 1)).
Proof.
  intros H. unfold getNext. rewrite from_past by assumption. simpl.
  destruct (N.ltb_spec i (size children)); [lia|reflexivity].
Qed.

Lemma getNext_match frame frame' pre skipped c rest root pos :
  Forall (fun c => doesNotContain root c = true) skipped ->
  doesNotContain root c = false ->
  assign frame pos c = Some frame' ->
  getNext frame (pre ++ skipped ++ c :: rest) root (size pre) pos
  = Some (frame', true, size (pre ++ skipped ++ [c])).
Proof.
  intros Hs Hc Hf. unfold getNext.
  rewrite from_app, getNext_skip_some by assumption.
  assert (Hat : at_ (pre ++ skipped ++ c :: rest) (size pre + size skipped) = Some c).
  { rewrite app_assoc, <- size_app. apply at_middle. }
  destruct (N.ltb_spec (size pre + size skipped) (size (pre ++ skipped ++ c :: rest)))
    as [_|Hge].
  - simpl. rewrite Hat, Hc, Hf. rewrite !size_app, size_cons.
    do 2 f_equal. sizes. lia.
  - rewrite !size_app, size_cons in Hge. lia.
Qed.

(** What a call of [getNext] does, whatever the cursor: it stops on the
    first child from the cursor on that is a branch of [root], or goes
    past the end. *)
Lemma getNext_spec frame children root i pos frame' got i' :
  getNext frame children root i pos = Some (frame', got, i') ->
  if got : bool
  then i < i' /\ i' <= size children /\
       (exists c, at_ children (i' - 1) = Some c /\
                  doesNotContain root c = false /\
                  assign frame pos c = Some frame') /\
       (forall j c, i <= j -> j < i' - 1 -> at_ children j = Some c ->
                    doesNotContain root c = true)
  else frame' = frame /\ i' = u32 (N.max i (size children) + 1) /\
       (forall j c, i <= j -> at_ children j = Some c -> doesNotContain root c = true).
Proof.
  destruct (N.le_gt_cases (size children) i) as [Hge|Hlt].
  - rewrite getNext_past by assumption. intros [= <- <- <-].
    split; [reflexivity|]. split; [now rewrite N.max_l by assumption|].
    intros j c Hj Hat. apply at_lt in Hat. lia.
  - assert (Hsplit : exists pre rest, children = pre ++ rest /\ size pre = i).
    { exists (firstn (N.to_nat i) children), (skipn (N.to_nat i) children).
      split; [now rewrite firstn_skipn|].
      unfold size in *. rewrite length_firstn. lia. }
    destruct Hsplit as (pre & rest & -> & <-).
    assert (Hrest : forall (l : intVector) j c,
               size pre <= j -> at_ (pre ++ l) j = Some c -> at_ l (j - size pre) = Some c).
    { intros l j c Hj Hat. rewrite <- (at_app_r pre l).
      now replace (size pre + (j - size pre)) with j by lia. }
    destruct (first_match root rest) as [Hn|(skipped & c & rest' & -> & Hs & Hc)].
    + rewrite getNext_exhausted by assumption. intros [= <- <- <-].
      split; [reflexivity|]. split; [now rewrite N.max_r by (sizes; lia)|].
      intros j c Hj Hat. apply Hrest, at_In in Hat; [|assumption].
      rewrite Forall_forall in Hn. now apply Hn.
    + destruct (assign frame pos c) as [f|] eqn:Ef.
      * rewrite (getNext_match _ _ _ _ _ _ _ _ Hs Hc Ef). intros [= <- <- <-].
        sizes. split; [lia|]. split; [lia|]. split.
        -- exists c. repeat split; try assumption.
           replace (size pre + (size skipped + (0 + 1)) - 1)
             with (size (pre ++ skipped)) by (sizes; lia).
           rewrite app_assoc. apply at_middle.
        -- intros j x Hj Hlt' Hat. apply Hrest in Hat; [|assumption].
           rewrite at_app_l in Hat by lia. apply at_In in Hat.
           rewrite Forall_forall in Hs. now apply Hs.
      * unfold getNext. rewrite from_app, getNext_skip_some by assumption.
        destruct (N.ltb_spec (size pre + size skipped)
                    (size (pre ++ skipped ++ c :: rest'))) as [_|Hge'].
        -- simpl.
           replace (at_ (pre ++ skipped ++ c :: rest') (size pre + size skipped))
             with (Some c).
           ++ now rewrite Hc, Ef.
           ++ rewrite app_assoc, <- size_app. symmetry. apply at_middle.
        -- rewrite !size_app, size_cons in Hge'. lia.
Qed.

Lemma store_assign frame c frame' : assign frame 4 c = Some frame' -> store frame c = frame'.
Proof. unfold store. now intros ->. Qed.

Lemma store_store frame c c' : store (store frame c) c' = store frame c'.
Proof.
  destruct (assign frame 4 c) as [f|] eqn:E.
  - rewrite (store_assign _ _ _ E). unfold store.
    rewrite (assign_assign _ _ _ c' _ E).
    destruct (assign_Some frame 4 c') as [f' ->]; [|reflexivity].
    rewrite <- (assign_size _ _ _ _ E). apply at_lt with (x := c).
    now rewrite (assign_at _ _ _ _ E), N.eqb_refl.
  - replace (store frame c) with frame by (unfold store; now rewrite E).
    reflexivity.
Qed.

(** The loop of [main] around [getNext], from a cursor at the end of
    [pre]: it emits the frame once for each later child that is a branch
    of [rootD], and then stops. *)
Lemma matchLoop_exact rootD : forall fuel frame pre rest,
  (length rest < fuel)%nat ->
  4 < size frame ->
  matchLoop fuel frame (pre ++ rest) rootD (size pre)
  = (map (fun c => Emit (store frame c)) (filter (matching rootD) rest),
     Some (fold_left store (filter (matching rootD) rest) frame)).
Proof.
  induction fuel as [|fuel IH]; intros frame pre rest Hfuel Hsz; [lia|].
  cbn [matchLoop].
  destruct (first_match rootD rest) as [Hn|(skipped & c & rest' & -> & Hs & Hc)].
  - rewrite getNext_exhausted by assumption.
    replace (filter (matching rootD) rest) with (@nil N).
    + reflexivity.
    + symmetry. clear -Hn. induction Hn as [|c rest Hc _ IH]; [reflexivity|].
      simpl. unfold matching at 1. now rewrite Hc.
  - destruct (assign_Some frame 4 c Hsz) as [f Ef].
    rewrite (getNext_match _ _ _ _ _ _ _ _ Hs Hc Ef).
    assert (Hfilter : filter (matching rootD) (skipped ++ c :: rest')
                      = c :: filter (matching rootD) rest').
    { rewrite filter_app.
      replace (filter (matching rootD) skipped) with (@nil N).
      - simpl. unfold matching at 1. now rewrite Hc.
      - symmetry. clear -Hs. induction Hs as [|x l Hx _ IH]; [reflexivity|].
        simpl. unfold matching at 1. now rewrite Hx. }
    rewrite Hfilter.
    replace (pre ++ skipped ++ c :: rest') with ((pre ++ skipped ++ [c]) ++ rest')
      by (now rewrite <- !app_assoc).
    rewrite bind_lift_Some, bind_emit, IH.
    + cbn [app map fold_left fst snd]. rewrite (store_assign _ _ _ Ef).
      do 2 f_equal. apply map_ext. intros a.
      now rewrite <- (store_assign _ _ _ Ef), store_store.
    + rewrite length_app in Hfuel. simpl in Hfuel. lia.
    + now rewrite (assign_size _ _ _ _ Ef).
Qed.

Lemma matchLoop_start rootD frame children :
  4 < size frame ->
  matchLoop (S (length children)) frame children rootD 0
  = (map (fun c => Emit (store frame c)) (filter (matching rootD) children),
     Some (fold_left store (filter (matching rootD) children) frame)).
Proof.
  intros H. apply (matchLoop_exact rootD (S (length children)) frame [] children); [lia|exact H].
Qed.

Lemma store_at frame c :
  4 < size frame ->
  forall j, at_ (store frame c) j = if j =? 4 then Some c else at_ frame j.
Proof.
  intros H j. destruct (assign_Some frame 4 c H) as [f E].
  rewrite (store_assign _ _ _ E). apply (assign_at _ _ _ _ E).
Qed.

Lemma store_size frame c : size (store frame c) = size frame.
Proof.
  unfold store. destruct (assign frame 4 c) as [f|] eqn:E; [|reflexivity].
  apply (assign_size _ _ _ _ E).
Qed.

Lemma store_reserved frame c : reserved frame -> reserved (store frame c).
Proof.
  intros (Hsz & H5 & H7 & H8). unfold reserved.
  rewrite store_size, !store_at by lia. simpl. auto.
Qed.

Lemma fold_store_reserved cs : forall frame,
  reserved frame -> reserved (fold_left store cs frame).
Proof.
  induction cs as [|c cs IH]; intros frame H; simpl; [assumption|].
  apply IH, store_reserved, H.
Qed.

(** ** What every emitted frame satisfies *)

Lemma turn_wellFormed trees current root frame mc sc rb :
  at_ trees current = Some root ->
  reserved frame ->
  run_all (onEmit (wellFormed trees)) (fun st => reserved (fst (fst (fst st))))
    (turn trees current root frame mc sc rb).
Proof.
  intros Hroot Hres. unfold turn.
  apply run_all_bind
    with (Q := fun a => getNextFrame current root frame mc sc rb = Some a).
  { now apply run_all_lift. }
  intros [[[f1 mc'] sc'] rb'] Hf1.
  apply getNextFrame_spec in Hf1
    as (_ & _ & Hsz & b & c & d & g & Hb & Hc & Hd & Hg & Hat).
  destruct Hres as (Hsz9 & H5 & H7 & H8).
  apply run_all_bind with (Q := fun _ => True).
  { now apply run_all_emit. }
  intros _ _.
  apply run_all_bind with (Q := fun x => x = fst b).
  { apply run_all_lift. rewrite Hat. simpl. now intros ? [= <-]. }
  intros ? ->.
  apply run_all_bind with (Q := fun rootB => at_ trees (fst b) = Some rootB).
  { now apply run_all_lift. }
  intros rootB HrootB.
  apply run_all_bind with (Q := fun x => x = fst d).
  { apply run_all_lift. rewrite Hat. simpl. now intros ? [= <-]. }
  intros ? ->.
  apply run_all_bind with (Q := fun rootD => at_ trees (fst d) = Some rootD).
  { now apply run_all_lift. }
  intros rootD HrootD.
  assert (Hres1 : reserved f1).
  { unfold reserved. rewrite Hsz, !Hat. simpl. auto. }
  rewrite populateChildrenForE_spec. cbn [app].
  rewrite matchLoop_start by (destruct Hres1; lia).
  apply run_all_bind with (Q := reserved).
  - split; cbn [fst snd].
    + apply Forall_map, Forall_forall. intros x Hx.
      apply filter_In in Hx as [Hx Hm]. cbn [onEmit].
      assert (H4 : 4 < size f1) by (destruct Hres1; lia).
      split; [|split].
      * exists root. unfold slot. rewrite !store_at, !Hat by assumption. cbn.
        repeat split.
        -- assumption.
        -- apply in_map, (at_In _ _ _ Hb).
        -- apply in_map, (at_In _ _ _ Hd).
        -- exists b. repeat split; eauto using at_In.
        -- exists d. repeat split; eauto using at_In.
      * exists rootB, rootD. unfold slot. rewrite !store_at, !Hat by assumption. cbn.
        repeat split; try assumption.
        apply doesNotContain_false. unfold matching in Hm.
        now apply negb_true_iff in Hm.
      * now apply store_reserved.
    + intros a [= <-]. now apply fold_store_reserved.
  - intros f2 Hres2. now apply run_all_ret.
Qed.

Lemma posLoop_wellFormed trees current root :
  at_ trees current = Some root ->
  forall n frame mc sc rb,
    reserved frame ->
    run_all (onEmit (wellFormed trees)) (fun st => reserved (fst (fst (fst st))))
      (posLoop n trees current root frame mc sc rb).
Proof.
  intros Hroot. induction n as [|n IH]; intros frame mc sc rb Hres.
  - now apply run_all_ret.
  - cbn [posLoop].
    eapply run_all_bind; [now apply turn_wellFormed|].
    intros [[[f1 mc'] sc'] rb'] Hf1. now apply IH.
Qed.

Lemma searchRoot_wellFormed trees current frame :
  reserved frame ->
  run_all (onEmit (wellFormed trees)) reserved (searchRoot trees current frame).
Proof.
  intros Hres. unfold searchRoot.
  apply run_all_bind with (Q := fun root => at_ trees current = Some root).
  { now apply run_all_lift. }
  intros root Hroot.
  apply run_all_bind with (Q := fun _ => True).
  { now apply run_all_emit. }
  intros _ _.
  eapply run_all_bind; [now apply posLoop_wellFormed|].
  intros [[[f1 mc'] sc'] rb'] Hf1. now apply run_all_ret.
Qed.

Lemma rootLoop_wellFormed trees : forall todo current frame,
  reserved frame ->
  run_all (onEmit (wellFormed trees)) reserved (rootLoop todo trees current frame).
Proof.
  induction todo as [|r todo IH]; intros current frame Hres; cbn [rootLoop].
  - now apply run_all_ret.
  - apply run_all_bind with (Q := reserved).
    + now apply searchRoot_wellFormed.
    + intros f Hf. now apply IH.
Qed.

Lemma search_wellFormed trees :
  run_all (onEmit (wellFormed trees)) reserved (search trees).
Proof.
  unfold search.
  apply run_all_bind with (Q := fun _ => True).
  { now apply run_all_emit. }
  intros _ _. apply rootLoop_wellFormed.
  unfold reserved. simpl. auto.
Qed.

Lemma main_events f :
  fst (snd (main f)) = Line "dictionary loaded" :: 
    match load f with Some (trees, _) => fst (search trees) | None => [] end.
Proof.
  unfold main. destruct (load f) as [[trees rd]|]; [|reflexivity].
  cbn [snd]. now rewrite bind_emit.
Qed.

Lemma main_emitted f : emitted (fst (snd (main f))) = emitted (fst (search (forest f))).
Proof.
  rewrite main_events. unfold forest.
  destruct (load f) as [[trees rd]|]; reflexivity.
Qed.

Lemma search_emitted trees : Forall (wellFormed trees) (emitted (fst (search trees))).
Proof. apply Forall_emitted, search_wellFormed. Qed.

(** ** The number of leaves of a root *)

Lemma u32_small n : n < 2 ^ 32 -> u32 n = n.
Proof. apply N.mod_small. Qed.

Lemma u32_le n : u32 n <= n.
Proof. unfold u32. apply N.Div0.mod_le. Qed.

Lemma grandchildren_exact root : forall acc,
  acc + leafCount root < 2 ^ 32 -> grandchildren root acc = acc + leafCount root.
Proof.
  induction root as [|e root IH]; intros acc H; simpl in *; [lia|].
  rewrite u32_small by lia. rewrite IH by lia. lia.
Qed.

Lemma leafCount_zero root : leafCount root = 0 <-> Forall (fun e => snd e = []) root.
Proof.
  induction root as [|e root IH]; simpl.
  - split; [constructor|reflexivity].
  - rewrite Forall_cons_iff, <- IH. destruct e as [b [|l ls]]; cbn [snd]; sizes; split.
    + intros H. split; [reflexivity|lia].
    + intros [_ H]. lia.
    + lia.
    + intros [H _]. discriminate.
Qed.

Lemma maximum_zero root : leafCount root = 0 -> maximum root = 0.
Proof.
  intros H. unfold maximum. rewrite grandchildren_exact by (rewrite H; reflexivity).
  rewrite H. reflexivity.
Qed.

Lemma searchRoot_leafless trees current root frame :
  at_ trees current = Some root ->
  leafCount root = 0 ->
  searchRoot trees current frame = ([Root current], Some frame).
Proof.
  intros Hroot HL. unfold searchRoot.
  rewrite Hroot, bind_lift_Some, bind_emit, (maximum_zero _ HL). reflexivity.
Qed.

(** ** The dictionary *)

Module DictionaryFacts.
Import Dictionary.

Lemma find_place_other d w v w' : w <> w' -> find (place d w v) w' = find d w'.
Proof.
  intros Hne. induction d as [|[k x] d IH]; simpl.
  - destruct (String.eqb_spec w w'); [contradiction|reflexivity].
  - destruct (String.compare w k); simpl.
    + reflexivity.
    + destruct (String.eqb_spec w w'); [contradiction|reflexivity].
    + now rewrite IH.
Qed.

Lemma find_place_same d w v : find d w = None -> find (place d w v) w = Some v.
Proof.
  induction d as [|[k x] d IH]; simpl; intros H.
  - now rewrite String.eqb_refl.
  - destruct (String.eqb_spec k w) as [->|Hk]; [discriminate|].
    destruct (String.compare w k) eqn:E; simpl.
    + apply String.compare_eq_iff in E. congruence.
    + now rewrite String.eqb_refl.
    + destruct (String.eqb_spec k w); [contradiction|]. now apply IH.
Qed.

Lemma size_place d w v : find d w = None -> size (place d w v) = size d + 1.
Proof.
  induction d as [|[k x] d IH]; cbn [place find]; intros H.
  - reflexivity.
  - destruct (String.eqb_spec k w) as [->|Hk]; [discriminate|].
    destruct (String.compare w k) eqn:E.
    + apply String.compare_eq_iff in E. congruence.
    + now sizes.
    + sizes. now rewrite IH.
Qed.

Lemma index_found d w v : find d w = Some v -> index d w = (d, v).
Proof. unfold index. now intros ->. Qed.

Lemma index_spec d w d' v :
  index d w = (d', v) ->
  find d' w = Some v /\
  (forall w', w' <> w -> find d' w' = find d w') /\
  (forall v0, find d w = Some v0 -> d' = d /\ v = v0) /\
  (find d w = None -> v = 0 /\ size d' = size d + 1).
Proof.
  unfold index. destruct (find d w) as [v0|] eqn:E; intros [= <- <-].
  - split; [assumption|]. split; [reflexivity|]. split; [|discriminate].
    intros ? [= <-]. now split.
  - split; [now apply find_place_same|]. split; [|split].
    + intros w' Hne. apply find_place_other. congruence.
    + discriminate.
    + intros _. split; [reflexivity|now apply size_place].
Qed.

Lemma index_keeps d w d' v w' v' :
  index d w = (d', v) -> find d w' = Some v' -> find d' w' = Some v'.
Proof.
  intros H Hw'. apply index_spec in H as (Hw & Hother & Hsame & _).
  destruct (String.eqb_spec w' w) as [->|Hne].
  - destruct (Hsame _ Hw') as [-> ->]. assumption.
  - now rewrite Hother.
Qed.

End DictionaryFacts.

(** ** Reading the file *)

Lemma intern_find_same d w :
  Dictionary.find (intern d w) w
  = Some (match Dictionary.find d w with Some v => v | None => size d end).
Proof.
  unfold intern, Dictionary.count, Dictionary.insert.
  destruct (Dictionary.find d w) as [v|] eqn:E; simpl; [assumption|].
  now apply DictionaryFacts.find_place_same.
Qed.

Lemma intern_find_other d w w' :
  w <> w' -> Dictionary.find (intern d w) w' = Dictionary.find d w'.
Proof.
  intros Hne. unfold intern, Dictionary.count, Dictionary.insert.
  destruct (Dictionary.find d w) as [v|] eqn:E; simpl; [reflexivity|].
  now apply DictionaryFacts.find_place_other.
Qed.

Lemma intern_size d w :
  size (intern d w) = match Dictionary.find d w with Some _ => size d | None => size d + 1 end.
Proof.
  unfold intern, Dictionary.count, Dictionary.insert.
  destruct (Dictionary.find d w) as [v|] eqn:E; simpl; [reflexivity|].
  now apply DictionaryFacts.size_place.
Qed.

Lemma intern_known d w v : Dictionary.find d w = Some v -> intern d w = d.
Proof. unfold intern, Dictionary.count. now intros ->. Qed.

Lemma intern_twice d w : intern (intern d w) w = intern d w.
Proof. eapply intern_known, intern_find_same. Qed.

Lemma loadDictionary_loop_spec tr : forall ws fuel word d,
  (length ws < fuel)%nat ->
  loadDictionary_loop fuel
    {| Istream.pending := ws; Istream.trail := tr; Istream.eofbit := false |} word d
  = Some (match ws with [] => intern d word | _ :: _ => fold_left intern ws d end).
Proof.
  induction ws as [|w ws IH]; intros fuel word d Hfuel;
    (destruct fuel as [|fuel]; [simpl in Hfuel; lia|]).
  - cbn. fold (intern d word). now destruct fuel.
  - cbn [loadDictionary_loop Istream.eof Istream.eofbit Istream.extract Istream.pending
           Istream.trail].
    fold (intern d w). simpl in Hfuel.
    destruct ws as [|w' ws].
    + destruct tr; cbn [negb].
      * rewrite (IH fuel w (intern d w)) by (simpl; lia).
        now rewrite intern_twice.
      * now destruct fuel.
    + rewrite (IH fuel w (intern d w)) by (simpl in *; lia). reflexivity.
Qed.

Lemma loadDictionary_spec f : loadDictionary f [] = Some (vocabulary (Istream.tokens f)).
Proof.
  unfold loadDictionary, Istream.open. cbn [Istream.pending].
  rewrite loadDictionary_loop_spec by lia.
  destruct (Istream.tokens f); reflexivity.
Qed.

Lemma intern_keeps d w w' v :
  Dictionary.find d w' = Some v -> Dictionary.find (intern d w) w' = Some v.
Proof.
  intros H. destruct (String.eqb_spec w w') as [->|Hne].
  - now rewrite intern_find_same, H.
  - now rewrite intern_find_other.
Qed.

Lemma fold_intern_keeps ws : forall d w v,
  Dictionary.find d w = Some v -> Dictionary.find (fold_left intern ws d) w = Some v.
Proof.
  induction ws as [|x ws IH]; intros d w v H; simpl; [assumption|].
  now apply IH, intern_keeps.
Qed.

Lemma intern_size_le d w : size d <= size (intern d w).
Proof. rewrite intern_size. destruct (Dictionary.find d w); lia. Qed.

Lemma fold_intern_size_le ws : forall d, size d <= size (fold_left intern ws d).
Proof.
  induction ws as [|x ws IH]; intros d; simpl; [lia|].
  etransitivity; [apply (intern_size_le d x)|apply IH].
Qed.

(** The first token of the file has the id 0. *)
Lemma vocabulary_first w ws : Dictionary.find (vocabulary (w :: ws)) w = Some 0.
Proof.
  unfold vocabulary. cbn [fold_left]. apply fold_intern_keeps.
  now rewrite intern_find_same.
Qed.

Lemma vocabulary_size ws : 1 <= size (vocabulary ws).
Proof.
  destruct ws as [|w ws]; [now cbv|].
  unfold vocabulary. cbn [fold_left].
  etransitivity; [|apply fold_intern_size_le]. rewrite intern_size. cbn. lia.
Qed.

(** ** Building the forest *)

Lemma seeds_extracted f :
  let s1 := Istream.extract (Istream.open f) EmptyString in
  let s2 := Istream.extract (fst s1) EmptyString in
  (snd s1, snd s2) = seedWords (Istream.tokens f) /\ fst s2 = afterSeeds f.
Proof.
  destruct f as [[|a [|b rest]] tr]; cbn.
  - auto.
  - destruct tr; cbn; auto.
  - auto.
Qed.

Lemma build_seeded f :
  exists d o k,
    planted (fst (seedWords (Istream.tokens f))) (snd (seedWords (Istream.tokens f)))
      o k ([(o, [])] :: repeat [] k) d /\
    S k = length (vocabulary (Istream.tokens f)) /\
    build f = load_loop (S (length (Istream.pending (afterSeeds f)))) (afterSeeds f)
                EmptyString (fst (seedWords (Istream.tokens f)))
                (snd (seedWords (Istream.tokens f))) ([(o, [])] :: repeat [] k) d.
Proof.
  unfold build. rewrite loadDictionary_spec.
  pose proof (seeds_extracted f) as Hseeds. cbv zeta in Hseeds.
  destruct (Istream.extract (Istream.open f) EmptyString) as [in1 twoBack].
  cbn [fst snd] in Hseeds.
  destruct (Istream.extract in1 EmptyString) as [in2 oneBack].
  cbn [fst snd] in Hseeds. destruct Hseeds as [Hwords ->].
  rewrite <- Hwords. cbn [fst snd].
  set (d0 := vocabulary (Istream.tokens f)).
  assert (H0 : Dictionary.find d0 twoBack = Some 0 \/
               (twoBack = EmptyString /\ oneBack = EmptyString /\ d0 = [(EmptyString, 0)])).
  { unfold d0. destruct (Istream.tokens f) as [|a [|b rest]]; injection Hwords as -> ->.
    - right. auto.
    - left. apply vocabulary_first.
    - left. apply vocabulary_first. }
  destruct (Dictionary.index d0 oneBack) as [d1 o] eqn:E1.
  destruct (Dictionary.index d1 twoBack) as [d2 r] eqn:E2.
  assert (Hr : r = 0 /\ Dictionary.find d2 twoBack = Some 0 /\
               Dictionary.find d2 oneBack = Some o).
  { pose proof (DictionaryFacts.index_spec _ _ _ _ E1) as (Ho & _).
    destruct H0 as [H0|(-> & -> & Hd0)].
    - pose proof (DictionaryFacts.index_keeps _ _ _ _ _ _ E1 H0) as H1.
      rewrite (DictionaryFacts.index_found _ _ _ H1) in E2. injection E2 as <- <-.
      auto.
    - rewrite Hd0 in E1. cbn in E1. injection E1 as <- <-.
      cbn in E2. injection E2 as <- <-. auto. }
  destruct Hr as (-> & Htwo & Hone).
  pose proof (vocabulary_size (Istream.tokens f)) as Hsz. fold d0 in Hsz.
  unfold size in Hsz.
  destruct (length d0) as [|k] eqn:Ek; [lia|].
  exists d2, o, k. cbn [repeat at_ assign N.eqb app].
  split; [|split; [reflexivity|reflexivity]].
  split; [assumption|]. split; [assumption|]. now exists [], [].
Qed.

Lemma extract_turns s w :
  Istream.eofbit s = false -> (turns (fst (Istream.extract s w)) < turns s)%nat.
Proof.
  unfold turns, Istream.extract. intros ->.
  destruct (Istream.pending s) as [|x rest]; cbn; [lia|].
  destruct (match rest with [] => negb (Istream.trail s) | _ :: _ => false end); lia.
Qed.

(** A turn of the read loop changes no tree but the one of [twoBack]. *)
Lemma load_step_frame in_ word twoBack oneBack trees d in' word' trees' d' :
  load_step in_ word twoBack oneBack trees d = Some (in', word', trees', d') ->
  forall i, i <> snd (Dictionary.index d twoBack) -> at_ trees' i = at_ trees i.
Proof.
  unfold load_step.
  destruct (Istream.extract in_ word) as [in1 word1].
  destruct (Dictionary.index d twoBack) as [d1 r].
  destruct (Dictionary.index d1 word1) as [d2 w].
  destruct (Dictionary.index d2 oneBack) as [d3 o].
  destruct (at_ trees r) as [root|]; [|discriminate].
  destruct (seekBranch _ o 0) as [i0|]; [|discriminate].
  destruct (at_ _ i0) as [b|]; [|discriminate].
  destruct (assign _ i0 _) as [root'|]; [|discriminate].
  destruct (assign trees r root') as [trees1|] eqn:E; [|discriminate].
  intros [= <- <- <- <-] i Hi. cbn [snd] in Hi.
  rewrite (assign_at _ _ _ _ E). now destruct (N.eqb_spec i r).
Qed.

Lemma load_step_planted twoBack oneBack o k in_ word trees d :
  planted twoBack oneBack o k trees d ->
  exists word' trees' d',
    load_step in_ word twoBack oneBack trees d
    = Some (fst (Istream.extract in_ word), word', trees', d') /\
    planted twoBack oneBack o k trees' d'.
Proof.
  intros (Htwo & Hone & leaves & more & ->). unfold load_step.
  destruct (Istream.extract in_ word) as [in1 word1]. cbn [fst].
  rewrite (DictionaryFacts.index_found _ _ _ Htwo).
  destruct (Dictionary.index d word1) as [d1 w] eqn:E1.
  pose proof (DictionaryFacts.index_keeps _ _ _ _ _ _ E1 Htwo) as Htwo1.
  pose proof (DictionaryFacts.index_keeps _ _ _ _ _ _ E1 Hone) as Hone1.
  rewrite (DictionaryFacts.index_found _ _ _ Hone1).
  cbn [at_ N.eqb].
  match goal with
  | |- context [doesNotContain ?r ?x] => destruct (doesNotContain r x)
  end;
    cbn [app seekBranch fst]; rewrite N.eqb_refl; cbn [at_ assign N.eqb snd fst];
    (eexists _, _, _; split; [reflexivity|]);
    (split; [assumption|]); (split; [assumption|]); eauto.
Qed.

Lemma load_loop_planted twoBack oneBack o k : forall fuel in_ word trees d,
  (turns in_ <= fuel)%nat ->
  planted twoBack oneBack o k trees d ->
  exists trees' d',
    load_loop fuel in_ word twoBack oneBack trees d = Some (trees', d') /\
    planted twoBack oneBack o k trees' d'.
Proof.
  induction fuel as [|fuel IH]; intros in_ word trees d Hfuel Hpl.
  - unfold turns in Hfuel. cbn [load_loop]. unfold Istream.eof.
    destruct (Istream.eofbit in_); [eauto|lia].
  - cbn [load_loop]. unfold Istream.eof.
    destruct (Istream.eofbit in_) eqn:Eeof; [eauto|].
    destruct (load_step_planted _ _ _ _ in_ word _ _ Hpl) as (word' & trees' & d' & -> & Hpl').
    apply IH; [|assumption].
    pose proof (extract_turns in_ word Eeof). lia.
Qed.

Lemma build_planted f :
  exists trees d o k,
    build f = Some (trees, d) /\
    planted (fst (seedWords (Istream.tokens f))) (snd (seedWords (Istream.tokens f)))
      o k trees d /\
    S k = length (vocabulary (Istream.tokens f)).
Proof.
  destruct (build_seeded f) as (d & o & k & Hpl & Hk & ->).
  assert (Hturns : (turns (afterSeeds f) <= S (length (Istream.pending (afterSeeds f))))%nat).
  { unfold turns. destruct (Istream.eofbit (afterSeeds f)); lia. }
  destruct (load_loop_planted _ _ _ _ _ _ EmptyString _ _ Hturns Hpl)
    as (trees' & d' & -> & Hpl').
  eauto 8.
Qed.

(** [load] always returns. *)
Lemma load_total f : exists trees reverseDictionary, load f = Some (trees, reverseDictionary).
Proof.
  unfold load. destruct (build_planted f) as (trees & d & o & k & -> & _). eauto.
Qed.

Lemma at_repeat_nil {A : Type} (k : nat) i (x : list A) :
  at_ (repeat [] k) i = Some x -> x = [].
Proof. intros H. apply at_In, repeat_spec in H. assumption. Qed.

(** ** The vocabulary *)

Lemma existsb_eqb_In w seen : existsb (String.eqb w) seen = true <-> In w seen.
Proof.
  rewrite existsb_exists. split.
  - intros (x & Hx & E). apply String.eqb_eq in E. now subst.
  - intros H. exists w. split; [assumption|apply String.eqb_refl].
Qed.

Lemma enumerates_In d seen w :
  enumerates d seen -> (In w seen <-> exists i, Dictionary.find d w = Some i).
Proof.
  intros (_ & _ & H). split.
  - intros Hin. apply In_nth_error in Hin as [n Hn].
    exists (N.of_nat n). apply H. rewrite at_nth_error. now rewrite Nat2N.id.
  - intros [i Hi]. apply H in Hi. now apply at_In in Hi.
Qed.

Lemma enumerates_intern d seen w :
  enumerates d seen ->
  enumerates (intern d w) (if existsb (String.eqb w) seen then seen else seen ++ [w]).
Proof.
  intros Hen. pose proof Hen as (Hsz & Hnd & Hfind).
  destruct (existsb (String.eqb w) seen) eqn:Eex.
  - apply existsb_eqb_In, (enumerates_In _ _ _ Hen) in Eex as [i Hi].
    now rewrite (intern_known _ _ _ Hi).
  - assert (Hnin : ~ In w seen).
    { rewrite <- existsb_eqb_In. congruence. }
    assert (Hnone : Dictionary.find d w = None).
    { destruct (Dictionary.find d w) as [i|] eqn:E; [|reflexivity].
      exfalso. apply Hnin, (enumerates_In _ _ _ Hen). eauto. }
    split; [|split].
    + rewrite intern_size, Hnone. sizes. lia.
    + apply NoDup_app; [assumption|repeat constructor; now intros []|].
      intros x Hx [<-|[]]. contradiction.
    + intros w' i. destruct (String.eqb_spec w w') as [<-|Hne].
      * rewrite intern_find_same, Hnone, Hsz. split.
        -- intros [= <-]. apply at_middle.
        -- intros Hat. f_equal.
           destruct (N.lt_trichotomy i (size seen)) as [Hlt|[->|Hgt]].
           ++ rewrite at_app_l in Hat by assumption. now apply at_In in Hat.
           ++ reflexivity.
           ++ apply at_lt in Hat. sizes. lia.
      * rewrite intern_find_other by assumption. rewrite Hfind. split.
        -- intros Hat. rewrite at_app_l; [assumption|now apply at_lt in Hat].
        -- intros Hat. destruct (N.lt_trichotomy i (size seen)) as [Hlt|[->|Hgt]].
           ++ now rewrite at_app_l in Hat.
           ++ rewrite at_middle in Hat. congruence.
           ++ apply at_lt in Hat. sizes. lia.
Qed.

Lemma enumerates_fold ws : forall d seen,
  enumerates d seen -> enumerates (fold_left intern ws d) (distinctFrom seen ws).
Proof.
  induction ws as [|w ws IH]; intros d seen H; simpl; [assumption|].
  now apply IH, enumerates_intern.
Qed.

(** For a file with a token: the vocabulary has as many entries as the
    stream has distinct tokens, and the id of a token is its rank among
    the distinct tokens in the order of first occurrence, so that the
    ids are unique and fill [0 .. size - 1]. *)
Lemma vocabulary_enumerates f :
  Istream.tokens f <> [] ->
  exists d, loadDictionary f [] = Some d /\ enumerates d (distinct (Istream.tokens f)).
Proof.
  intros Hne. rewrite loadDictionary_spec. eexists. split; [reflexivity|].
  unfold vocabulary. destruct (Istream.tokens f) as [|w ws]; [contradiction|].
  apply enumerates_fold. repeat split; try constructor; discriminate.
Qed.

(** ** Forests without leaves *)

Lemma rootLoop_leafless frame : forall todo pre,
  leafless todo ->
  rootLoop todo (pre ++ todo) (size pre) frame = (rootLines todo (size pre), Some frame).
Proof.
  induction todo as [|root todo IH]; intros pre Hl; cbn [rootLoop rootLines].
  - reflexivity.
  - inversion Hl as [|? ? Hroot Htodo]; subst.
    rewrite (searchRoot_leafless _ _ root) by (auto using at_middle).
    unfold bind.
    replace (pre ++ root :: todo) with ((pre ++ [root]) ++ todo) by now rewrite <- app_assoc.
    replace (size pre + 1) with (size (pre ++ [root])) by (sizes; lia).
    now rewrite IH.
Qed.



Lemma leafless_repeat k : leafless (repeat [] k).
Proof. induction k; constructor; auto. Qed.

(** ** The range of the word ids *)

Lemma bounded_mono n m d : n <= m -> bounded n d -> bounded m d.
Proof. intros Hle. apply Forall_impl. intros e He. lia. Qed.

Lemma bounded_place n d w v : v < n -> bounded n d -> bounded n (Dictionary.place d w v).
Proof.
  intros Hv. induction d as [|[k x] d IH]; intros Hb; cbn [Dictionary.place].
  - repeat constructor. assumption.
  - inversion Hb as [|? ? Hx Hd]; subst.
    destruct (String.compare w k); [assumption| |]; constructor; auto.
    now apply IH.
Qed.

Lemma bounded_intern d w : bounded (size d) d -> bounded (size (intern d w)) (intern d w).
Proof.
  intros Hb. pose proof (intern_size d w) as Hsz.
  unfold intern, Dictionary.count, Dictionary.insert in *.
  destruct (Dictionary.find d w) as [v|]; cbn [N.eqb] in *; [assumption|].
  rewrite Hsz. apply bounded_place; [lia|]. apply (bounded_mono (size d)); [lia|assumption].
Qed.

Lemma bounded_fold ws : forall d,
  bounded (size d) d -> bounded (size (fold_left intern ws d)) (fold_left intern ws d).
Proof.
  induction ws as [|w ws IH]; intros d H; simpl; [assumption|].
  now apply IH, bounded_intern.
Qed.

Lemma bounded_vocabulary ws : bounded (size (vocabulary ws)) (vocabulary ws).
Proof.
  destruct ws as [|w ws].
  - repeat constructor.
  - unfold vocabulary. apply bounded_fold. constructor.
Qed.

Lemma bounded_index n d w : 0 < n -> bounded n d -> bounded n (fst (Dictionary.index d w)).
Proof.
  intros Hn Hb. unfold Dictionary.index.
  destruct (Dictionary.find d w); cbn [fst]; [assumption|].
  now apply bounded_place.
Qed.

Lemma load_step_bounded n in_ word twoBack oneBack trees d in' word' trees' d' :
  load_step in_ word twoBack oneBack trees d = Some (in', word', trees', d') ->
  0 < n -> bounded n d ->
  bounded n d' /\ size trees' = size trees.
Proof.
  unfold load_step. intros H Hn Hb.
  destruct (Istream.extract in_ word) as [in1 word1].
  pose proof (bounded_index n d twoBack Hn Hb) as H1.
  destruct (Dictionary.index d twoBack) as [d1 r]. cbn [fst] in H1.
  pose proof (bounded_index n d1 word1 Hn H1) as H2.
  destruct (Dictionary.index d1 word1) as [d2 w]. cbn [fst] in H2.
  pose proof (bounded_index n d2 oneBack Hn H2) as H3.
  destruct (Dictionary.index d2 oneBack) as [d3 o]. cbn [fst] in H3.
  destruct (at_ trees r) as [root|]; [|discriminate].
  destruct (seekBranch _ o 0) as [i0|]; [|discriminate].
  destruct (at_ _ i0) as [b|]; [|discriminate].
  destruct (assign _ i0 _) as [root'|]; [|discriminate].
  destruct (assign trees r root') as [trees1|] eqn:E; [|discriminate].
  injection H as <- <- <- <-. split; [assumption|].
  apply (assign_size _ _ _ _ E).
Qed.

Lemma load_loop_bounded n twoBack oneBack : forall fuel in_ word trees d trees' d',
  load_loop fuel in_ word twoBack oneBack trees d = Some (trees', d') ->
  0 < n -> bounded n d ->
  bounded n d' /\ size trees' = size trees.
Proof.
  induction fuel as [|fuel IH]; intros in_ word trees d trees' d' H Hn Hb;
    cbn [load_loop] in H; destruct (Istream.eof in_).
  - injection H as <- <-. auto.
  - discriminate.
  - injection H as <- <-. auto.
  - destruct (load_step in_ word twoBack oneBack trees d)
      as [[[[in1 word1] trees1] d1]|] eqn:E; [|discriminate].
    destruct (load_step_bounded n _ _ _ _ _ _ _ _ _ _ E Hn Hb) as [Hb1 Hsz1].
    destruct (IH _ _ _ _ _ _ H Hn Hb1) as [Hb' Hsz']. split; [assumption|congruence].
Qed.

(** Every id the build hands out indexes the forest. *)
Lemma build_bounded f trees d : build f = Some (trees, d) -> bounded (size trees) d.
Proof.
  unfold build. rewrite loadDictionary_spec.
  pose proof (vocabulary_size (Istream.tokens f)) as Hsz.
  pose proof (bounded_vocabulary (Istream.tokens f)) as Hb0.
  generalize dependent (vocabulary (Istream.tokens f)). intros d0 Hsz Hb0.
  destruct (Istream.extract (Istream.open f) EmptyString) as [in1 twoBack].
  destruct (Istream.extract in1 EmptyString) as [in2 oneBack].
  assert (Hpos : 0 < size d0) by lia.
  pose proof (bounded_index _ _ oneBack Hpos Hb0) as Hb1.
  destruct (Dictionary.index d0 oneBack) as [d1 b]. cbn [fst] in Hb1.
  pose proof (bounded_index _ _ twoBack Hpos Hb1) as Hb2.
  destruct (Dictionary.index d1 twoBack) as [d2 r]. cbn [fst] in Hb2.
  destruct (at_ _ r) as [root|]; [|discriminate].
  destruct (assign _ r _) as [trees1|] eqn:E; [|discriminate].
  intros H. apply (load_loop_bounded (size d0)) in H as [Hb Hsz']; [|assumption..].
  rewrite Hsz', (assign_size _ _ _ _ E). unfold size at 1. now rewrite repeat_length.
Qed.

(** ** Distinct branch ids *)

Lemma assign_Forall {A : Type} (P : A -> Prop) (v : list A) : forall i x v',
  Forall P v -> P x -> assign v i x = Some v' -> Forall P v'.
Proof.
  induction v as [|y v IH]; intros i x v' Hv Hx H; cbn [assign] in H; [discriminate|].
  apply Forall_cons_iff in Hv as [Hy Hv]. destruct (i =? 0).
  - injection H as <-. now constructor.
  - destruct (assign v (N.pred i) x) as [w|] eqn:E; [|discriminate].
    injection H as <-. constructor; [assumption|]. now apply (IH _ _ _ Hv Hx E).
Qed.

Lemma assign_map_same {A B : Type} (f : A -> B) (v : list A) : forall i x y v',
  at_ v i = Some y -> f x = f y -> assign v i x = Some v' -> map f v' = map f v.
Proof.
  induction v as [|z v IH]; intros i x y v' Hat Hf H; cbn [assign at_] in *; [discriminate|].
  destruct (i =? 0).
  - injection Hat as ->. injection H as <-. cbn [map]. now rewrite Hf.
  - destruct (assign v (N.pred i) x) as [w|] eqn:E; [|discriminate].
    injection H as <-. cbn [map]. f_equal. now apply (IH _ _ _ _ Hat Hf E).
Qed.

Lemma load_step_unique in_ word twoBack oneBack trees d in' word' trees' d' :
  load_step in_ word twoBack oneBack trees d = Some (in', word', trees', d') ->
  uniqueBranches trees -> uniqueBranches trees'.
Proof.
  unfold load_step. intros H Hu.
  destruct (Istream.extract in_ word) as [in1 word1].
  destruct (Dictionary.index d twoBack) as [d1 r].
  destruct (Dictionary.index d1 word1) as [d2 w].
  destruct (Dictionary.index d2 oneBack) as [d3 o].
  destruct (at_ trees r) as [root|] eqn:Eroot; [|discriminate].
  assert (Hroot1 : NoDup (branchIds (if doesNotContain root w
                                     then root ++ [(w, [])] else root))).
  { unfold uniqueBranches in Hu. rewrite Forall_forall in Hu.
    pose proof (Hu root (at_In _ _ _ Eroot)) as Hnd.
    destruct (doesNotContain root w) eqn:Ednc; [|assumption].
    apply doesNotContain_true in Ednc. unfold branchIds. rewrite map_app.
    apply NoDup_app; [assumption|repeat constructor; now intros []|].
    intros x Hx [<-|[]]. contradiction. }
  destruct (seekBranch _ o 0) as [i0|]; [|discriminate].
  destruct (at_ _ i0) as [b|] eqn:Eb; [|discriminate].
  destruct (assign _ i0 _) as [root'|] eqn:E'; [|discriminate].
  destruct (assign trees r root') as [trees1|] eqn:E; [|discriminate].
  injection H as <- <- <- <-.
  apply (assign_Forall (fun root => NoDup (branchIds root)) trees r root' trees1 Hu);
    [|exact E].
  unfold branchIds. now rewrite (assign_map_same fst _ _ (fst b, _) b _ Eb eq_refl E').
Qed.

Lemma load_loop_unique twoBack oneBack : forall fuel in_ word trees d trees' d',
  load_loop fuel in_ word twoBack oneBack trees d = Some (trees', d') ->
  uniqueBranches trees -> uniqueBranches trees'.
Proof.
  induction fuel as [|fuel IH]; intros in_ word trees d trees' d' H Hu;
    cbn [load_loop] in H; destruct (Istream.eof in_).
  - now injection H as <- <-.
  - discriminate.
  - now injection H as <- <-.
  - destruct (load_step in_ word twoBack oneBack trees d)
      as [[[[in1 word1] trees1] d1]|] eqn:E; [|discriminate].
    apply (IH _ _ _ _ _ _ H). now apply (load_step_unique _ _ _ _ _ _ _ _ _ _ E).
Qed.

(** The build keeps the branch ids of a root distinct. *)
Lemma build_unique f trees d : build f = Some (trees, d) -> uniqueBranches trees.
Proof.
  unfold build. rewrite loadDictionary_spec.
  generalize (vocabulary (Istream.tokens f)). intros d0.
  destruct (Istream.extract (Istream.open f) EmptyString) as [in1 twoBack].
  destruct (Istream.extract in1 EmptyString) as [in2 oneBack].
  destruct (Dictionary.index d0 oneBack) as [d1 b].
  destruct (Dictionary.index d1 twoBack) as [d2 r].
  destruct (at_ _ r) as [root|] eqn:Eroot; [|discriminate].
  destruct (assign _ r _) as [trees1|] eqn:E; [|discriminate].
  intros H. apply load_loop_unique in H; [assumption|].
  apply at_repeat_nil in Eroot. subst root.
  eapply (assign_Forall (fun root => NoDup (branchIds root))); [| |exact E].
  - apply Forall_forall. intros x Hx. apply repeat_spec in Hx. subst x. constructor.
  - cbn. repeat constructor. now intros [].
Qed.

Lemma forest_unique f : uniqueBranches (forest f).
Proof.
  unfold forest, load. destruct (build f) as [[trees d]|] eqn:E; [|constructor].
  now apply (build_unique f trees d).
Qed.

(** ** The reverse dictionary *)

Lemma reverseEntries_key d k : forall r w,
  Reverse.find (reverseEntries d r) k = Some w ->
  (exists w', Reverse.find r k = Some w') \/ exists e, In e d /\ snd e = k.
Proof.
  induction d as [|e d IH]; intros r w H; cbn [reverseEntries fold_left] in H.
  - left. eauto.
  - apply IH in H as [[w' Hw']|(e' & He' & Hk)].
    + unfold Reverse.insert in Hw'.
      destruct (Reverse.find r (snd e)) as [x|] eqn:Ex; [left; eauto|].
      assert (Happ : forall r0, Reverse.find (r0 ++ [(snd e, fst e)]) k
                                = match Reverse.find r0 k with
                                  | Some x => Some x
                                  | None => if snd e =? k then Some (fst e) else None
                                  end).
      { induction r0 as [|[k0 w0] r0 IH0]; cbn; [reflexivity|].
        destruct (k0 =? k); [reflexivity|apply IH0]. }
      rewrite Happ in Hw'. destruct (Reverse.find r k) as [x|]; [left; eauto|].
      destruct (N.eqb_spec (snd e) k); [|discriminate].
      right. exists e. split; [now left|assumption].
    + right. exists e'. split; [now right|assumption].
Qed.

(** A number that is not an id has no word. *)
Lemma unassigned_id_unresolved f trees rd k :
  load f = Some (trees, rd) -> size trees <= k -> Reverse.index rd k = EmptyString.
Proof.
  unfold load. destruct (build f) as [[trees0 d]|] eqn:Eb; [|discriminate].
  intros [= <- <-] Hk. apply build_bounded in Eb.
  unfold Reverse.index. destruct (Reverse.find _ k) as [w|] eqn:E; [|reflexivity].
  apply reverseEntries_key in E as [[w' Hw']|(e & He & <-)]; [discriminate|].
  unfold bounded in Eb. rewrite Forall_forall in Eb. specialize (Eb e He). lia.
Qed.

(** ** Rendering *)

Lemma nine_slots frame :
  size frame = 9 -> frame = map (slot frame) [0; 1; 2; 3; 4; 5; 6; 7; 8].
Proof.
  unfold size. intros H.
  do 9 (destruct frame as [|? frame]; [discriminate|]).
  destruct frame; [reflexivity|]. cbn in H. lia.
Qed.

(** ** The flattened leaf positions of a root *)

Lemma upper_length_double {A : Type} (l : list A) :
  (2 * length (upper l) = length l * (length l + 1))%nat.
Proof.
  induction l as [|x l IH]; [reflexivity|].
  cbn [upper]. rewrite length_app, length_map. cbn [length]. lia.
Qed.

Lemma size_upper {A : Type} (l : list A) : size (upper l) = size l * (size l + 1) / 2.
Proof.
  pose proof (upper_length_double l) as H. unfold size.
  apply N.div_unique_exact; [discriminate|]. nia.
Qed.

Lemma leafCoords_length b leaves : forall l, length (leafCoords b leaves l) = length leaves.
Proof. induction leaves as [|x leaves IH]; intros l; simpl; auto. Qed.

Lemma size_flattenFrom root : forall b, size (flattenFrom root b) = leafCount root.
Proof.
  induction root as [|e root IH]; intros b; cbn [flattenFrom leafCount]; [reflexivity|].
  sizes. rewrite IH. unfold size. now rewrite leafCoords_length.
Qed.

Lemma size_flatten root : size (flatten root) = leafCount root.
Proof. apply size_flattenFrom. Qed.

(** Two neighbours of a concatenation are neighbours in one of the
    parts, or the last of the first part and the first of the second. *)
Lemma app_neighbours {A : Type} (X Y pre post : list A) c c' :
  X ++ Y = pre ++ c :: c' :: post ->
  (exists post', X = pre ++ c :: c' :: post') \/
  (X = pre ++ [c] /\ Y = c' :: post) \/
  (exists pre', Y = pre' ++ c :: c' :: post).
Proof.
  intros H. apply app_eq_app in H as [l [[-> H]|[-> ->]]].
  - destruct l as [|x [|x' l]].
    + right. right. exists []. now rewrite H.
    + injection H as <- <-. right. left. auto.
    + injection H as <- <- ->. left. eauto.
  - right. right. eauto.
Qed.

Lemma app_last_of {A : Type} (X Y pre : list A) c :
  X ++ Y = pre ++ [c] ->
  (Y = [] /\ X = pre ++ [c]) \/ (exists pre', Y = pre' ++ [c]).
Proof.
  intros H. apply app_eq_app in H as [l [[-> H]|[-> ->]]].
  - destruct l as [|x [|x' l]].
    + right. exists []. now rewrite H.
    + injection H as <- <-. left. auto.
    + injection H as _ H. destruct l; discriminate.
  - right. eauto.
Qed.

Lemma leafCoords_neighbours b leaves : forall l pre c c' post,
  leafCoords b leaves l = pre ++ c :: c' :: post ->
  exists i, c = (b, i) /\ c' = (b, i + 1) /\ i + 1 < l + size leaves.
Proof.
  induction leaves as [|x leaves IH]; intros l pre c c' post H; cbn [leafCoords] in H.
  - destruct pre; discriminate.
  - destruct pre as [|p pre].
    + injection H as <- H. destruct leaves as [|x' leaves]; [discriminate|].
      cbn [leafCoords] in H. injection H as <- _.
      exists l. sizes. repeat split. lia.
    + injection H as _ H. apply IH in H as (i & -> & -> & Hi).
      exists i. sizes. repeat split. lia.
Qed.

Lemma leafCoords_last b leaves : forall l pre c,
  leafCoords b leaves l = pre ++ [c] ->
  c = (b, l + size leaves - 1) /\ 0 < size leaves.
Proof.
  induction leaves as [|x leaves IH]; intros l pre c H; cbn [leafCoords] in H.
  - destruct pre; discriminate.
  - sizes. destruct pre as [|p pre].
    + injection H as <- H. destruct leaves; [|discriminate].
      sizes. split; [f_equal; lia|lia].
    + injection H as _ H. apply IH in H as [-> Hpos].
      split; [f_equal; lia|lia].
Qed.

Lemma leafCoords_In b leaves : forall l c,
  In c (leafCoords b leaves l) ->
  fst c = b /\ l <= snd c /\ exists x, at_ leaves (snd c - l) = Some x.
Proof.
  induction leaves as [|x leaves IH]; intros l c H; cbn [leafCoords] in H; [contradiction|].
  destruct H as [<-|H].
  - cbn [fst snd]. rewrite N.sub_diag. repeat split; [lia|]. cbn. eauto.
  - apply IH in H as (Hb & Hl & y & Hy). repeat split; [assumption|lia|].
    exists y. cbn [at_]. destruct (N.eqb_spec (snd c - l) 0); [lia|].
    replace (N.pred (snd c - l)) with (snd c - (l + 1)) by lia. assumption.
Qed.

Lemma pred_size_pos n : 0 < n -> n < 2 ^ 64 -> pred_size n = n - 1.
Proof.
  intros Hpos Hlt. unfold pred_size.
  replace (n + (2 ^ 64 - 1)) with (n - 1 + 1 * 2 ^ 64) by lia.
  rewrite N.Div0.mod_add. apply N.mod_small. lia.
Qed.

Lemma leafy_size root : leafy root -> size root <= leafCount root.
Proof.
  induction 1 as [|[b [|x leaves]] root He _ IH]; cbn [leafCount snd] in *; sizes;
    [lia|contradiction|lia].
Qed.

Lemma leafCount_app done todo : leafCount (done ++ todo) = leafCount done + leafCount todo.
Proof. induction done as [|e done IH]; cbn [app leafCount]; lia. Qed.

Lemma flattenFrom_nil todo b : leafy todo -> flattenFrom todo b = [] -> todo = [].
Proof.
  intros Hl H. destruct todo as [|[x [|l leaves]] todo]; [reflexivity| |].
  - inversion Hl as [|? ? He _]; subst. now contradiction He.
  - discriminate.
Qed.

Lemma flattenFrom_head e todo b :
  snd e <> [] -> exists rest, flattenFrom (e :: todo) b = (b, 0) :: rest.
Proof.
  intros He. cbn [flattenFrom]. destruct e as [x [|l leaves]]; [now contradiction He|].
  cbn [snd leafCoords app]. eauto.
Qed.

Lemma flatten_first root x ms : leafy root -> flatten root = x :: ms -> x = (0, 0).
Proof.
  intros Hl H. destruct root as [|e root]; [discriminate|].
  apply Forall_cons_iff in Hl as [He _].
  destruct (flattenFrom_head e root 0 He) as [rest Hrest].
  unfold flatten in H. pose proof (eq_trans (eq_sym Hrest) H) as E.
  now injection E as <- _.
Qed.

Section Enumeration.

Variable root : top.
Hypothesis Hleafy : leafy root.
Hypothesis Hcount : leafCount root < 2 ^ 32.

Lemma branch_at done e todo : root = done ++ e :: todo -> at_ root (size done) = Some e.
Proof. intros ->. apply at_middle. Qed.

Lemma branch_bounds done e todo :
  root = done ++ e :: todo ->
  size done + 1 + size todo = size root /\
  size root < 2 ^ 32 /\ 0 < size (snd e) /\ size (snd e) < 2 ^ 32 /\ leafy todo.
Proof.
  intros Hroot. pose proof (leafy_size root Hleafy) as Hsz.
  assert (Hc : leafCount (done ++ e :: todo) < 2 ^ 32) by (rewrite <- Hroot; exact Hcount).
  assert (Hl : leafy (done ++ e :: todo)) by (rewrite <- Hroot; exact Hleafy).
  assert (Hs : size root = size done + 1 + size todo) by (rewrite Hroot; sizes; lia).
  rewrite leafCount_app in Hc. cbn [leafCount] in Hc.
  apply Forall_app in Hl as [_ Hl]. apply Forall_cons_iff in Hl as [He Htodo].
  destruct e as [x [|l leaves]]; [now contradiction He|].
  cbn [snd] in *. sizes. repeat split; try lia; assumption.
Qed.

Lemma flattenFrom_neighbours : forall todo done,
  root = done ++ todo ->
  forall pre c c' post,
    flattenFrom todo (size done) = pre ++ c :: c' :: post ->
    advance root c = Some c' /\ sweepAtEnd root c = Some false.
Proof.
  induction todo as [|e todo IH]; intros done Hroot pre c c' post H;
    cbn [flattenFrom] in H.
  - destruct pre; discriminate.
  - pose proof (branch_at _ _ _ Hroot) as Hat.
    pose proof (branch_bounds _ _ _ Hroot) as (Hsz & Hsmall & Hpos & Hlt & Htodo).
    apply app_neighbours in H as [[post' H]|[[H1 H2]|[pre' H]]].
    + apply leafCoords_neighbours in H as (i & -> & -> & Hi).
      unfold advance, sweepAtEnd. cbn [fst snd]. rewrite Hat.
      rewrite !pred_size_pos by lia.
      destruct (N.eqb_spec i (size (snd e) - 1)); [lia|].
      rewrite u32_small by lia. split; [reflexivity|].
      destruct (N.eqb_spec (size done) (size root - 1)) as [E|_]; [|reflexivity].
      rewrite <- E, Hat. cbn [snd]. rewrite pred_size_pos by lia.
      now destruct (N.eqb_spec i (size (snd e) - 1)); [lia|].
    + apply leafCoords_last in H1 as [-> _].
      destruct todo as [|e' todo]; [discriminate|].
      apply Forall_cons_iff in Htodo as [He' _].
      destruct (flattenFrom_head e' todo (size done + 1) He') as [rest Hhead].
      pose proof (eq_trans (eq_sym Hhead) H2) as H3. injection H3 as <- _.
      unfold advance, sweepAtEnd. cbn [fst snd]. rewrite Hat.
      rewrite !pred_size_pos by lia. sizes.
      rewrite N.eqb_refl, u32_small by lia. split; [reflexivity|].
      now destruct (N.eqb_spec (size done) (size root - 1)); [lia|].
    + replace (size done + 1) with (size (done ++ [e])) in H by (sizes; lia).
      apply (IH (done ++ [e])) in H; [assumption|].
      now rewrite <- app_assoc.
Qed.

Lemma flattenFrom_last : forall todo done,
  root = done ++ todo ->
  forall pre c,
    flattenFrom todo (size done) = pre ++ [c] -> sweepAtEnd root c = Some true.
Proof.
  induction todo as [|e todo IH]; intros done Hroot pre c H; cbn [flattenFrom] in H.
  - destruct pre; discriminate.
  - pose proof (branch_at _ _ _ Hroot) as Hat.
    pose proof (branch_bounds _ _ _ Hroot) as (Hsz & Hsmall & Hpos & Hlt & Htodo).
    apply app_last_of in H as [[H1 H2]|[pre' H]].
    + apply flattenFrom_nil in H1; [|assumption]. subst todo.
      apply leafCoords_last in H2 as [-> _].
      unfold sweepAtEnd. cbn [fst snd]. sizes.
      rewrite !pred_size_pos by lia.
      replace (size root - 1) with (size done) by lia.
      rewrite N.eqb_refl, Hat, pred_size_pos by lia.
      now rewrite N.eqb_refl.
    + replace (size done + 1) with (size (done ++ [e])) in H by (sizes; lia).
      apply (IH (done ++ [e])) in H; [assumption|].
      now rewrite <- app_assoc.
Qed.

Lemma flattenFrom_reads : forall todo done,
  root = done ++ todo ->
  forall c, In c (flattenFrom todo (size done)) ->
            exists e x, at_ root (fst c) = Some e /\ at_ (snd e) (snd c) = Some x.
Proof.
  induction todo as [|e todo IH]; intros done Hroot c H; cbn [flattenFrom] in H.
  - contradiction.
  - apply in_app_or in H as [H|H].
    + apply leafCoords_In in H as (Hb & _ & x & Hx).
      rewrite N.sub_0_r in Hx. exists e, x. rewrite Hb.
      split; [now apply (branch_at _ _ _ Hroot)|assumption].
    + replace (size done + 1) with (size (done ++ [e])) in H by (sizes; lia).
      apply (IH (done ++ [e])) in H; [assumption|].
      now rewrite <- app_assoc.
Qed.

(** What [iterateCoordinates] does on the flattened positions: the
    sweep at the last position moves [main] to its successor and resets
    the sweep to it; any other sweep moves to its successor. *)
Lemma iterate_reset pre1 x x' ms pre2 y :
  flatten root = pre1 ++ x :: x' :: ms ->
  flatten root = pre2 ++ [y] ->
  iterateCoordinates root x y = Some (x', x').
Proof.
  intros Hx Hy. unfold iterateCoordinates.
  rewrite (flattenFrom_last root [] eq_refl _ _ Hy).
  now destruct (flattenFrom_neighbours root [] eq_refl _ _ _ _ Hx) as [-> _].
Qed.

Lemma iterate_sweep x pre2 y y' ys :
  flatten root = pre2 ++ y :: y' :: ys ->
  iterateCoordinates root x y = Some (x, y').
Proof.
  intros Hy. unfold iterateCoordinates.
  now destruct (flattenFrom_neighbours root [] eq_refl _ _ _ _ Hy) as [-> ->].
Qed.

Lemma flatten_reads c :
  In c (flatten root) ->
  exists e x, at_ root (fst c) = Some e /\ at_ (snd e) (snd c) = Some x.
Proof. apply (flattenFrom_reads root [] eq_refl). Qed.

End Enumeration.

(** ** The walk of the two coordinates *)

Lemma bind_pair {A B : Type} t (a : A) (k : A -> run B) :
  bind (t, Some a) k = (t ++ fst (k a), snd (k a)).
Proof. unfold bind. now destruct (k a). Qed.

Lemma bind_assoc {A B C : Type} (m : run A) (f : A -> run B) (g : B -> run C) :
  bind (bind m f) g = bind m (fun a => bind (f a) g).
Proof.
  destruct m as [t [a|]]; [|reflexivity].
  unfold bind. destruct (f a) as [t' [b|]]; [|reflexivity].
  destruct (g b) as [t'' r]. now rewrite app_assoc.
Qed.

Lemma bind_ext {A B : Type} (m : run A) (f g : A -> run B) :
  (forall a, f a = g a) -> bind m f = bind m g.
Proof. intros H. destruct m as [t [a|]]; [|reflexivity]. unfold bind. now rewrite H. Qed.

Lemma bind_inv {A B : Type} (m : run A) (k : A -> run B) t b :
  bind m k = (t, Some b) ->
  exists t1 a t2, m = (t1, Some a) /\ k a = (t2, Some b) /\ t = t1 ++ t2.
Proof.
  destruct m as [t1 [a|]]; unfold bind; [|discriminate].
  destruct (k a) as [t2 r] eqn:E. intros [= <- ->]. eauto 6.
Qed.

Lemma visited_emits (frames : list intVector) : visited (map Emit frames) = [].
Proof. induction frames; simpl; auto. Qed.

Lemma matchLoop_visited rootD children : forall fuel frame i,
  visited (fst (matchLoop fuel frame children rootD i)) = [].
Proof.
  induction fuel as [|fuel IH]; intros frame i; cbn [matchLoop]; [reflexivity|].
  destruct (getNext frame children rootD i 4) as [[[f got] i']|].
  - rewrite bind_lift_Some. destruct got; [|reflexivity].
    rewrite bind_emit. cbn [fst visited flat_map app]. apply IH.
  - reflexivity.
Qed.

(** A turn that returns has visited one pair. *)
Lemma turn_visits_one trees current root frame mc sc rb t st :
  turn trees current root frame mc sc rb = (t, Some st) -> length (visited t) = 1%nat.
Proof.
  unfold turn.
  destruct (getNextFrame current root frame mc sc rb) as [[[[f m] s] r]|];
    [rewrite bind_lift_Some|discriminate].
  rewrite bind_emit.
  destruct (at_ f 1) as [b|]; [rewrite bind_lift_Some|discriminate].
  destruct (at_ trees b) as [rootB|]; [rewrite bind_lift_Some|discriminate].
  destruct (at_ f 3) as [d|]; [rewrite bind_lift_Some|discriminate].
  destruct (at_ trees d) as [rootD|]; [rewrite bind_lift_Some|discriminate].
  cbv zeta.
  pose proof (matchLoop_visited rootD (populateChildrenForE rootB [])
                (S (length (populateChildrenForE rootB []))) f 0) as Hv.
  destruct (matchLoop _ f _ rootD 0) as [t' [f'|]]; [|discriminate].
  rewrite bind_pair. cbn [fst snd ret] in *. intros [= <- _].
  cbn [visited flat_map app length]. fold (visited (t' ++ [])).
  now rewrite visited_app, Hv.
Qed.

Lemma posLoop_plus trees current root : forall n m frame mc sc rb,
  posLoop (n + m) trees current root frame mc sc rb
  = bind (posLoop n trees current root frame mc sc rb)
      (fun st => match st with
                 | (frame', mc', sc', rb') => posLoop m trees current root frame' mc' sc' rb'
                 end).
Proof.
  induction n as [|n IH]; intros m frame mc sc rb; cbn [posLoop Nat.add].
  - now rewrite bind_ret.
  - rewrite bind_assoc. apply bind_ext.
    intros [[[f mc'] sc'] rb']. apply IH.
Qed.

Lemma posLoop_count trees current root : forall n frame mc sc rb t st,
  posLoop n trees current root frame mc sc rb = (t, Some st) -> length (visited t) = n.
Proof.
  induction n as [|n IH]; intros frame mc sc rb t st H; cbn [posLoop] in H.
  - now injection H as <- _.
  - apply bind_inv in H as (t1 & [[[f mc'] sc'] rb'] & t2 & Hturn & Hrest & ->).
    rewrite visited_app, length_app.
    now rewrite (turn_visits_one _ _ _ _ _ _ _ _ _ Hturn), (IH _ _ _ _ _ _ Hrest).
Qed.

(** The first [n] turns of a loop that returns. *)
Lemma posLoop_prefix trees current root n m frame mc sc rb t st :
  posLoop (n + m) trees current root frame mc sc rb = (t, Some st) ->
  exists t1 st1,
    posLoop n trees current root frame mc sc rb = (t1, Some st1) /\
    visited t1 = firstn n (visited t).
Proof.
  rewrite posLoop_plus. intros H.
  apply bind_inv in H as (t1 & st1 & t2 & Hn & _ & ->).
  exists t1, st1. split; [assumption|].
  rewrite visited_app. pose proof (posLoop_count _ _ _ _ _ _ _ _ _ _ Hn) as Hlen.
  rewrite <- Hlen at 1. rewrite firstn_app, Nat.sub_diag, firstn_all.
  cbn [firstn]. now rewrite app_nil_r.
Qed.

Section Walk.

Variable trees : tops.
Variable current : N.
Variable root : top.
Hypothesis Hleafy : leafy root.
Hypothesis Hcount : leafCount root < 2 ^ 32.
Hypothesis Hids : Forall (fun e => fst e < size trees) root.

(** A turn on two flattened positions. *)
Lemma turn_valid frame mc sc (rb : bool) mc' sc' :
  (if rb then iterateCoordinates root mc sc else Some (mc, sc)) = Some (mc', sc') ->
  In mc' (flatten root) -> In sc' (flatten root) ->
  reserved frame ->
  exists t frame',
    turn trees current root frame mc sc rb = (Visit mc' sc' :: t, Some (frame', mc', sc', true)) /\
    visited t = [] /\ reserved frame'.
Proof.
  intros Hit Hmc Hsc Hres.
  destruct (flatten_reads root Hleafy Hcount _ Hmc) as (b & c & Hb & Hc).
  destruct (flatten_reads root Hleafy Hcount _ Hsc) as (d & g & Hd & Hg).
  assert (Hsz : 6 < size frame) by (destruct Hres as [-> _]; reflexivity).
  destruct (getNextFrame_Some current root frame mc sc rb mc' sc' b c d g
              Hit Hsz Hb Hc Hd Hg) as [f1 Hf1].
  pose proof (getNextFrame_spec _ _ _ _ _ _ _ _ _ _ Hf1)
    as (_ & _ & Hsz1 & b0 & c0 & d0 & g0 & Hb0 & Hc0 & Hd0 & Hg0 & Hat).
  assert (b0 = b) by congruence. assert (d0 = d) by congruence. subst b0 d0.
  assert (Hres1 : reserved f1).
  { destruct Hres as (Hs & H5 & H7 & H8). unfold reserved.
    rewrite Hsz1, !Hat. cbn. auto. }
  unfold turn. rewrite Hf1, bind_lift_Some, bind_emit.
  assert (H1 : at_ f1 1 = Some (fst b)) by (rewrite Hat; reflexivity).
  assert (H3 : at_ f1 3 = Some (fst d)) by (rewrite Hat; reflexivity).
  rewrite H1, bind_lift_Some.
  unfold leafy in Hids. rewrite Forall_forall in Hids.
  destruct (at_Some trees (fst b)) as [rootB HrootB]; [apply Hids, (at_In _ _ _ Hb)|].
  destruct (at_Some trees (fst d)) as [rootD HrootD]; [apply Hids, (at_In _ _ _ Hd)|].
  rewrite HrootB, bind_lift_Some, H3, bind_lift_Some, HrootD, bind_lift_Some.
  cbv zeta. rewrite matchLoop_start by (destruct Hres1 as [-> _]; reflexivity).
  rewrite bind_pair. cbn [fst snd ret].
  eexists _, _. split; [reflexivity|]. split.
  - rewrite visited_app, <- (map_map (store f1) Emit), visited_emits. reflexivity.
  - now apply fold_store_reserved.
Qed.

Local Abbreviation walks := (walksFrom trees current root).

Lemma walks_nil rb x y : walks rb x y [].
Proof. intros frame _. eexists _, _. split; reflexivity. Qed.

Lemma walks_cons (rb : bool) x y x' y' vs :
  (if rb then iterateCoordinates root x y else Some (x, y)) = Some (x', y') ->
  In x' (flatten root) -> In y' (flatten root) ->
  walks true x' y' vs ->
  walks rb x y ((x', y') :: vs).
Proof.
  intros Hit Hx' Hy' Hw frame Hres.
  destruct (turn_valid frame x y rb x' y' Hit Hx' Hy' Hres) as (t & f1 & Hturn & Hv & Hres1).
  destruct (Hw f1 Hres1) as (t2 & st & Hrest & Hv2).
  cbn [length posLoop]. rewrite Hturn, bind_pair. cbn beta iota.
  rewrite Hrest. cbn [fst snd].
  eexists _, _. split; [reflexivity|].
  cbn [visited flat_map app]. fold (visited (t ++ t2)).
  now rewrite visited_app, Hv, Hv2.
Qed.

(** The rest of a row, and then the rows below. *)
Lemma walks_row x ms :
  In x (flatten root) ->
  (forall pre y, flatten root = pre ++ [y] -> walks true x y (upper ms)) ->
  forall ys y pre,
    flatten root = pre ++ y :: ys ->
    walks true x y (map (pair x) ys ++ upper ms).
Proof.
  intros Hx Hbelow. induction ys as [|y' ys IH]; intros y pre HF.
  - now apply (Hbelow pre).
  - cbn [map app]. apply walks_cons.
    + now apply (iterate_sweep root Hleafy Hcount x pre y y' ys).
    + assumption.
    + rewrite HF. apply in_or_app. right. now right; left.
    + apply (IH y' (pre ++ [y])). now rewrite <- app_assoc.
Qed.

Lemma walks_rows : forall ms x pre1,
  flatten root = pre1 ++ x :: ms ->
  forall pre y, flatten root = pre ++ [y] -> walks true x y (upper ms).
Proof.
  induction ms as [|x' ms IH]; intros x pre1 Hx pre y Hy.
  - apply walks_nil.
  - assert (Hx' : flatten root = (pre1 ++ [x]) ++ x' :: ms) by now rewrite <- app_assoc.
    assert (Hin : In x' (flatten root)).
    { rewrite Hx'. apply in_or_app. right. now left. }
    cbn [upper map app]. apply walks_cons.
    + now apply (iterate_reset root Hleafy Hcount pre1 x x' ms pre y).
    + assumption.
    + assumption.
    + apply (walks_row x' ms Hin (IH x' _ Hx') ms x' (pre1 ++ [x]) Hx').
Qed.

(** From the start the loop visits the upper triangle of the flattened
    positions, row by row. *)
Lemma walks_upper : walks false (0, 0) (0, 0) (upper (flatten root)).
Proof.
  destruct (flatten root) as [|x ms] eqn:HF; [apply walks_nil|].
  pose proof (flatten_first root x ms Hleafy HF) as ->.
  assert (Hin : In (0, 0) (flatten root)) by (rewrite HF; now left).
  cbn [upper map app]. apply walks_cons.
  - reflexivity.
  - assumption.
  - assumption.
  - apply (walks_row (0, 0) ms Hin (walks_rows ms (0, 0) [] HF) ms (0, 0) [] HF).
Qed.

End Walk.

(** ** The number of turns *)

Lemma maximum_exact root :
  leafCount root < 65536 -> maximum root = leafCount root * (leafCount root + 1) / 2.
Proof.
  intros H. unfold maximum. rewrite grandchildren_exact by (cbn; lia). cbn [N.add].
  destruct (N.eqb_spec (leafCount root) 1) as [->|_]; [reflexivity|].
  rewrite (u32_small (leafCount root + 1)) by lia.
  rewrite u32_small; [reflexivity|].
  assert (leafCount root * (leafCount root + 1) <= 65535 * 65536) by nia. lia.
Qed.

Lemma maximum_le root :
  leafCount root < 2 ^ 32 -> maximum root <= leafCount root * (leafCount root + 1) / 2.
Proof.
  intros H. unfold maximum. rewrite grandchildren_exact by (cbn; lia). cbn [N.add].
  destruct (N.eqb_spec (leafCount root) 1) as [->|_]; [cbn; lia|].
  apply N.Div0.div_le_mono.
  etransitivity; [apply u32_le|].
  apply N.mul_le_mono_l, u32_le.
Qed.

Lemma size_firstn {A : Type} (l : list A) n : n <= size l -> size (firstn (N.to_nat n) l) = n.
Proof. unfold size. intros H. rewrite length_firstn. lia. Qed.

(** The search of a root all of whose branch entries have a leaf, and
    whose branch ids index the forest: it returns, having visited the
    first [maximum root] pairs of the upper triangle. *)
Lemma searchRoot_enumerates trees current root frame :
  at_ trees current = Some root ->
  leafy root ->
  leafCount root < 2 ^ 32 ->
  Forall (fun e => fst e < size trees) root ->
  reserved frame ->
  exists t frame',
    searchRoot trees current frame = (t, Some frame') /\
    visited t = firstn (N.to_nat (maximum root)) (upper (flatten root)).
Proof.
  intros Hroot Hleafy Hcount Hids Hres.
  destruct (walks_upper trees current root Hleafy Hcount Hids frame Hres)
    as (t & st & Hloop & Hv).
  assert (Hle : (N.to_nat (maximum root) <= length (upper (flatten root)))%nat).
  { pose proof (maximum_le root Hcount) as H.
    pose proof (size_upper (flatten root)) as Hs. rewrite size_flatten in Hs.
    unfold size in Hs. lia. }
  replace (length (upper (flatten root)))
    with (N.to_nat (maximum root)
          + (length (upper (flatten root)) - N.to_nat (maximum root)))%nat in Hloop by lia.
  apply posLoop_prefix in Hloop as (t1 & [[[f1 mc] sc] rb] & Hn & Hv1).
  unfold searchRoot. rewrite Hroot, bind_lift_Some, bind_emit, Hn, bind_pair.
  cbn [fst snd ret]. eexists _, _. split; [reflexivity|].
  cbn [visited flat_map app]. fold (visited (t1 ++ [])).
  rewrite app_nil_r, Hv1. now rewrite Hv.
Qed.

Lemma searchRoot_count trees current root frame :
  at_ trees current = Some root ->
  leafy root ->
  leafCount root < 2 ^ 32 ->
  Forall (fun e => fst e < size trees) root ->
  reserved frame ->
  exists t frame',
    searchRoot trees current frame = (t, Some frame') /\
    size (visited t) = maximum root.
Proof.
  intros Hroot Hleafy Hcount Hids Hres.
  destruct (searchRoot_enumerates _ _ _ _ Hroot Hleafy Hcount Hids Hres)
    as (t & frame' & Hs & Hv).
  exists t, frame'. split; [assumption|]. rewrite Hv. apply size_firstn.
  rewrite size_upper, size_flatten. now apply maximum_le.
Qed.

(** ** The order of the two coordinates *)

Lemma increasing_app l1 l2 :
  increasing l1 -> increasing l2 ->
  (forall x y, In x l1 -> In y l2 -> lexLt x y) ->
  increasing (l1 ++ l2).
Proof.
  induction l1 as [|x l1 IH]; intros H1 H2 H12; cbn [app increasing] in *; [assumption|].
  destruct H1 as [Hx H1]. split.
  - apply Forall_app. split; [assumption|].
    apply Forall_forall. intros y Hy. apply H12; [now left|assumption].
  - apply IH; auto. intros x0 y Hx0 Hy. apply H12; [now right|assumption].
Qed.

Lemma leafCoords_increasing b leaves : forall l, increasing (leafCoords b leaves l).
Proof.
  induction leaves as [|x leaves IH]; intros l; cbn [leafCoords increasing]; [exact I|].
  split; [|apply IH].
  apply Forall_forall. intros c Hc. apply leafCoords_In in Hc as (Hb & Hl & _).
  right. cbn [fst snd]. split; [now rewrite Hb|lia].
Qed.

Lemma flattenFrom_from root : forall b c, In c (flattenFrom root b) -> b <= fst c.
Proof.
  induction root as [|e root IH]; intros b c H; cbn [flattenFrom] in H; [contradiction|].
  apply in_app_or in H as [H|H].
  - apply leafCoords_In in H as (-> & _). lia.
  - apply IH in H. lia.
Qed.

Lemma flattenFrom_increasing root : forall b, increasing (flattenFrom root b).
Proof.
  induction root as [|e root IH]; intros b; cbn [flattenFrom]; [exact I|].
  apply increasing_app; [apply leafCoords_increasing|apply IH|].
  intros x y Hx Hy. apply leafCoords_In in Hx as (Hb & _).
  apply flattenFrom_from in Hy. left. lia.
Qed.

Lemma upper_ordered l : increasing l -> Forall (fun p => lexLe (fst p) (snd p)) (upper l).
Proof.
  induction l as [|x l IH]; intros H; cbn [upper]; [constructor|].
  destruct H as [Hx Hl]. apply Forall_app. split; [|now apply IH].
  cbn [map]. constructor.
  - right. cbn [fst snd]. split; [reflexivity|lia].
  - apply Forall_map. eapply Forall_impl; [|exact Hx].
    intros y [Hy|[Hy1 Hy2]]; cbn [fst snd]; [now left|right; split; [assumption|lia]].
Qed.

Lemma Forall_firstn_of {A : Type} (P : A -> Prop) n (l : list A) :
  Forall P l -> Forall P (firstn n l).
Proof.
  intros H. rewrite <- (firstn_skipn n l) in H. now apply Forall_app in H as [H _].
Qed.

(** ** The step on flattened positions *)

Lemma nth_error_neighbours {A : Type} (l : list A) p x x' :
  nth_error l p = Some x -> nth_error l (S p) = Some x' ->
  exists pre post, l = pre ++ x :: x' :: post.
Proof.
  intros Hx Hx'. apply nth_error_split in Hx as (pre & post & -> & <-).
  rewrite nth_error_app2 in Hx' by lia.
  replace (S (length pre) - length pre)%nat with 1%nat in Hx' by lia.
  destruct post as [|y post]; [discriminate|]. injection Hx' as ->. eauto.
Qed.

Lemma nth_error_last {A : Type} (l : list A) p x :
  nth_error l p = Some x -> S p = length l -> exists pre, l = pre ++ [x].
Proof.
  intros Hx Hp. apply nth_error_split in Hx as (pre & post & -> & <-).
  rewrite length_app in Hp. cbn [length] in Hp.
  destruct post; [eauto|]. cbn [length] in Hp. lia.
Qed.

Lemma leafy_followsPositions root :
  leafy root -> leafCount root < 2 ^ 32 -> followsPositions root.
Proof.
  intros Hleafy Hcount main sweep m s m' s' Hle Hm Hs Hm' Hs'.
  unfold Positions.next in Hm', Hs'.
  destruct (Nat.eqb_spec (S sweep) (length (flatten root))) as [E|Hne];
    cbn [fst snd] in Hm', Hs'.
  - assert (m' = s') by congruence. subst s'.
    destruct (nth_error_neighbours _ _ _ _ Hm Hm') as (pre1 & ms & H1).
    destruct (nth_error_last _ _ _ Hs E) as (pre2 & H2).
    now apply (iterate_reset root Hleafy Hcount pre1 m m' ms pre2 s).
  - assert (m' = m) by congruence. subst m'.
    destruct (nth_error_neighbours _ _ _ _ Hs Hs') as (pre2 & ys & H2).
    now apply (iterate_sweep root Hleafy Hcount m pre2 s s' ys).
Qed.

(** ** The search on the forest of the sample corpus *)

(** The forest [load] builds of "a b c a b d" has branch entries without
    leaves; the search of its first root reads a leaf that is not there
    on its fifth turn, no frame having been emitted. *)
Lemma sample_corpus_search_stops :
  snd (snd (main (corpus ["a"; "b"; "c"; "a"; "b"; "d"]%string))) = None /\
  visited (fst (snd (main (corpus ["a"; "b"; "c"; "a"; "b"; "d"]%string))))
  = [((0, 0), (0, 0)); ((0, 0), (0, 1)); ((0, 0), (0, 2)); ((0, 0), (0, 3))] /\
  emitted (fst (snd (main (corpus ["a"; "b"; "c"; "a"; "b"; "d"]%string)))) = [].
Proof. repeat split. Qed.

(** On "a a b" the search returns, two frames emitted. *)
Lemma sample_corpus_frames :
  main (corpus ["a"; "a"; "b"]%string)
  = ([(0, "a"); (1, "b")]%string,
     ([Line "dictionary loaded"; Line "begin search phase"; Root 0;
       Visit (0, 0) (0, 0);
       Emit [0; 0; 1; 0; 0; sentinel; 1; sentinel; sentinel];
       Emit [0; 0; 1; 0; 1; sentinel; 1; sentinel; sentinel];
       Root 1],
      Some [0; 0; 1; 0; 1; sentinel; 1; sentinel; sentinel])).
Proof. reflexivity. Qed.

(** With two tokens and a final newline the read loop makes one turn
    on the failed extraction: the empty word gets the id 0, and on
    "a a" a leaf is added and a frame emitted, whose words all print as
    the empty word. *)
Lemma two_tokens_and_newline :
  main (Istream.File ["a"; "a"]%string true)
  = ([(0, EmptyString)],
     ([Line "dictionary loaded"; Line "begin search phase"; Root 0;
       Visit (0, 0) (0, 0);
       Emit [0; 0; 0; 0; 0; sentinel; 0; sentinel; sentinel]],
      Some [0; 0; 0; 0; 0; sentinel; 0; sentinel; sentinel])).
Proof. reflexivity. Qed.

(** ** The frames of a turn *)

(** A turn of [main] on the frame [f1] that [getNextFrame] hands over:
    it emits [f1] once for each branch id of the tree of slot 1 that is
    a branch id of the tree of slot 3, in the order of the tree of
    slot 1, and ends. *)
Lemma turn_exact (trees : tops) current (root : top) frame mc sc rb f1 mc' sc' rb'
    (rootB rootD : top) :
  getNextFrame current root frame mc sc rb = Some (f1, mc', sc', rb') ->
  at_ trees (slot f1 1) = Some rootB ->
  at_ trees (slot f1 3) = Some rootD ->
  turn trees current root frame mc sc rb
  = (Visit mc' sc'
       :: map (fun c => Emit (store f1 c)) (filter (matching rootD) (branchIds rootB)),
     Some (fold_left store (filter (matching rootD) (branchIds rootB)) f1, mc', sc', rb')).
Proof.
  intros Hf1 HB HD.
  pose proof (getNextFrame_spec _ _ _ _ _ _ _ _ _ _ Hf1)
    as (_ & _ & _ & b & c & d & g & _ & _ & _ & _ & Hat).
  assert (H1 : at_ f1 1 = Some (fst b)) by (rewrite Hat; reflexivity).
  assert (H3 : at_ f1 3 = Some (fst d)) by (rewrite Hat; reflexivity).
  assert (H6 : 4 < size f1).
  { assert (H : at_ f1 6 = Some g) by (rewrite Hat; reflexivity). apply at_lt in H. lia. }
  unfold slot in HB, HD. rewrite H1 in HB. rewrite H3 in HD.
  unfold turn. rewrite Hf1, bind_lift_Some, bind_emit, H1, bind_lift_Some, HB,
    bind_lift_Some, H3, bind_lift_Some, HD, bind_lift_Some.
  cbv zeta. rewrite populateChildrenForE_spec. cbn [app].
  rewrite matchLoop_start by exact H6.
  rewrite bind_pair. cbn [fst snd ret]. now rewrite app_nil_r.
Qed.

(** * The claims *)

(** Claim C1.  On the corpus "a b c a b d" (a = 0, b = 1, c = 2, d = 3)
    the sliding window of the specification gives Forest[a] the branch b
    with the leaves c and d, Forest[b] the branch c with the leaf a and
    Forest[c] the branch a with the leaf b; [load] builds another
    forest: every word from the third on becomes a leaf of a's branch b
    and a branch of a, and the trees of b and c stay empty. *)
Theorem window_never_slides :
  Windows.slide [0; 1; 2; 0; 1; 3] (repeat [] 4) = expectedForest /\
  build (corpus ["a"; "b"; "c"; "a"; "b"; "d"]%string)
  = Some (builtForest, [("a", 0); ("b", 1); ("c", 2); ("d", 3)]%string) /\
  builtForest <> expectedForest.
Proof.
  repeat split; try reflexivity. discriminate.
Qed.

(** Claim C2.  In every emitted frame, slot 4 is a branch id of the
    forest entry of slot 1 and of the forest entry of slot 3.  For one
    coordinate pair, a turn of [main] runs the matcher on the frame
    [f1] that [getNextFrame] hands over, with a cursor on the branch
    ids of the entry of slot 1: the turn emits [f1] once for each of
    these ids that is a branch id of the entry of slot 3, with that id
    in slot 4, in the order of the entry of slot 1, and then ends, so
    that no other frame is produced for the pair; the ids emitted are
    distinct when the branch ids of the entry of slot 1 are, as they
    are in the forest of any file.  A call of the matcher stops on the
    first child from the cursor on that is a branch id of the entry of
    slot 3, stores it in slot 4 and leaves the cursor behind it; when
    there is none it reports so, leaves the frame, and the cursor is
    past the end, where every later call finds nothing. *)
Theorem matcher_shared_continuations :
  (forall trees, Forall (sharedContinuation trees) (emitted (fst (search trees)))) /\
  (forall f, Forall (sharedContinuation (forest f)) (emitted (fst (snd (main f))))) /\
  (forall f, uniqueBranches (forest f)) /\
  (forall (trees : tops) current (root : top) frame mc sc rb f1 mc' sc' rb'
          (rootB rootD : top),
      getNextFrame current root frame mc sc rb = Some (f1, mc', sc', rb') ->
      at_ trees (slot f1 1) = Some rootB ->
      at_ trees (slot f1 3) = Some rootD ->
      let found := filter (matching rootD) (branchIds rootB) in
      turn trees current root frame mc sc rb
      = (Visit mc' sc' :: map (fun c => Emit (store f1 c)) found,
         Some (fold_left store found f1, mc', sc', rb')) /\
      emitted (fst (turn trees current root frame mc sc rb)) = map (store f1) found /\
      map (fun frame' => slot frame' 4) (map (store f1) found) = found /\
      (forall c, In c found <-> In c (branchIds rootB) /\ In c (branchIds rootD)) /\
      (NoDup (branchIds rootB) -> NoDup found)) /\
  (forall (frame : intVector) (rootB rootD : top),
      4 < size frame ->
      let children := populateChildrenForE rootB [] in
      let found := filter (matching rootD) (branchIds rootB) in
      children = branchIds rootB /\
      (forall i frame' i',
          getNext frame children rootD i 4 = Some (frame', true, i') ->
          i < i' /\ i' <= size children /\
          at_ children (i' - 1) = Some (slot frame' 4) /\
          frame' = store frame (slot frame' 4) /\
          In (slot frame' 4) (branchIds rootD) /\
          forall j c, i <= j -> j < i' - 1 -> at_ children j = Some c ->
                      ~ In c (branchIds rootD)) /\
      (forall i frame' i',
          getNext frame children rootD i 4 = Some (frame', false, i') ->
          frame' = frame /\
          i' = u32 (N.max i (size children) + 1) /\
          forall j c, i <= j -> at_ children j = Some c -> ~ In c (branchIds rootD)) /\
      (forall i, size children <= i ->
                 getNext frame children rootD i 4 = Some (frame, false, u32 (i + 1))) /\
      matchLoop (S (length children)) frame children rootD 0
      = (map (fun c => Emit (store frame c)) found, Some (fold_left store found frame))).
Proof.
  assert (H : forall trees, Forall (sharedContinuation trees) (emitted (fst (search trees)))).
  { intros trees. eapply Forall_impl; [|apply search_emitted]. now intros f (_ & H & _). }
  split; [exact H|]. split; [intros f; rewrite main_emitted; apply H|].
  split; [apply forest_unique|]. split.
  - intros trees current root frame mc sc rb f1 mc' sc' rb' rootB rootD Hf1 HB HD found.
    pose proof (turn_exact _ _ _ _ _ _ _ _ _ _ _ _ _ Hf1 HB HD) as Hturn. fold found in Hturn.
    assert (H4 : 4 < size f1).
    { pose proof (getNextFrame_spec _ _ _ _ _ _ _ _ _ _ Hf1)
        as (_ & _ & _ & b & c & d & g & _ & _ & _ & _ & Hat).
      assert (H6 : at_ f1 6 = Some g) by (rewrite Hat; reflexivity).
      apply at_lt in H6. lia. }
    split; [exact Hturn|]. split; [|split; [|split]].
    + rewrite Hturn. cbn [fst emitted flat_map app]. clear.
      induction found as [|c l IH]; [reflexivity|]. cbn [map flat_map app]. now rewrite IH.
    + rewrite map_map. rewrite <- (map_id found) at 2. apply map_ext.
      intros c. unfold slot. now rewrite store_at, N.eqb_refl.
    + intros c. unfold found, matching. rewrite filter_In, negb_true_iff.
      now rewrite doesNotContain_false.
    + intros Hnd. now apply NoDup_filter.
  - intros frame rootB rootD Hsz children found.
    assert (Hch : children = branchIds rootB).
    { unfold children. now rewrite populateChildrenForE_spec. }
    split; [exact Hch|]. split; [|split; [|split]].
    + intros i frame' i' Hget. apply getNext_spec in Hget as (Hlt & Hle & (c & Hc & Hdnc & Hf) & Hskip).
      assert (Hslot : slot frame' 4 = c).
      { unfold slot. now rewrite (assign_at _ _ _ _ Hf), N.eqb_refl. }
      rewrite Hslot. split; [exact Hlt|]. split; [exact Hle|]. split; [exact Hc|].
      split; [symmetry; now apply store_assign|]. split; [now apply doesNotContain_false|].
      intros j x Hj Hj' Hat. apply doesNotContain_true. now apply (Hskip j).
    + intros i frame' i' Hget. apply getNext_spec in Hget as (Hf & Hi & Hskip).
      split; [exact Hf|]. split; [exact Hi|].
      intros j x Hj Hat. apply doesNotContain_true. now apply (Hskip j).
    + intros i Hi. now apply getNext_past.
    + rewrite Hch. now apply matchLoop_start.
Qed.

(** C2 on a turn whose slots 1 and 3 have the trees [5; 3; 4] and
    [4; 3] (the frames come with 3, then 4, in slot 4, the order of
    slot 1's tree), and on the first turn of [main] on the corpus
    "a a b", whose forest has the tree [(a, {b}); (b, {})] for a. *)
Lemma matcher_shared_continuations_witness :
  (let trees := [[(1, [0]); (2, [0])]; [(5, []); (3, []); (4, [])]; [(4, []); (3, [])];
                 []; []; []] in
   getNextFrame 0 [(1, [0]); (2, [0])] blankFrame (0, 0) (1, 0) false
   = Some ([0; 1; 0; 2; sentinel; sentinel; 0; sentinel; sentinel], (0, 0), (1, 0), true) /\
   turn trees 0 [(1, [0]); (2, [0])] blankFrame (0, 0) (1, 0) false
   = ([Visit (0, 0) (1, 0);
       Emit [0; 1; 0; 2; 3; sentinel; 0; sentinel; sentinel];
       Emit [0; 1; 0; 2; 4; sentinel; 0; sentinel; sentinel]],
      Some ([0; 1; 0; 2; 4; sentinel; 0; sentinel; sentinel], (0, 0), (1, 0), true))) /\
  forest (corpus ["a"; "a"; "b"]%string) = [[(0, [1]); (1, [])]; []] /\
  getNextFrame 0 [(0, [1]); (1, [])] blankFrame (0, 0) (0, 0) false
  = Some ([0; 0; 1; 0; sentinel; sentinel; 1; sentinel; sentinel], (0, 0), (0, 0), true) /\
  turn (forest (corpus ["a"; "a"; "b"]%string)) 0 [(0, [1]); (1, [])] blankFrame
    (0, 0) (0, 0) false
  = ([Visit (0, 0) (0, 0);
      Emit [0; 0; 1; 0; 0; sentinel; 1; sentinel; sentinel];
      Emit [0; 0; 1; 0; 1; sentinel; 1; sentinel; sentinel]],
     Some ([0; 0; 1; 0; 1; sentinel; 1; sentinel; sentinel], (0, 0), (0, 0), true)) /\
  emitted (fst (snd (main (corpus ["a"; "a"; "b"]%string))))
  = [[0; 0; 1; 0; 0; sentinel; 1; sentinel; sentinel];
     [0; 0; 1; 0; 1; sentinel; 1; sentinel; sentinel]].
Proof.
  assert (Hg0 : getNextFrame 0 [(1, [0]); (2, [0])] blankFrame (0, 0) (1, 0) false
                = Some ([0; 1; 0; 2; sentinel; sentinel; 0; sentinel; sentinel],
                        (0, 0), (1, 0), true)) by reflexivity.
  assert (Hf : forest (corpus ["a"; "a"; "b"]%string) = [[(0, [1]); (1, [])]; []])
    by reflexivity.
  assert (Hg : getNextFrame 0 [(0, [1]); (1, [])] blankFrame (0, 0) (0, 0) false
               = Some ([0; 0; 1; 0; sentinel; sentinel; 1; sentinel; sentinel],
                       (0, 0), (0, 0), true)) by reflexivity.
  split; [|split; [exact Hf|split; [exact Hg|split; [|reflexivity]]]].
  - cbv zeta. split; [exact Hg0|].
    exact (proj1 (proj1 (proj2 (proj2 (proj2 matcher_shared_continuations)))
                    [[(1, [0]); (2, [0])]; [(5, []); (3, []); (4, [])]; [(4, []); (3, [])];
                     []; []; []]
                    0 [(1, [0]); (2, [0])] blankFrame (0, 0) (1, 0) false _ _ _ _
                    [(5, []); (3, []); (4, [])] [(4, []); (3, [])]
                    Hg0 eq_refl eq_refl)).
  - exact (proj1 (proj1 (proj2 (proj2 (proj2 matcher_shared_continuations)))
                    (forest (corpus ["a"; "a"; "b"]%string)) 0 [(0, [1]); (1, [])] blankFrame
                    (0, 0) (0, 0) false _ _ _ _ [(0, [1]); (1, [])] [(0, [1]); (1, [])]
                    Hg eq_refl eq_refl)).
Defined.

(** Claim C3.  In every emitted frame, slot 1 and slot 3 are branch ids
    of the forest entry of the word in slot 0, slot 2 is a leaf of the
    entry of slot 1 under that root and slot 6 a leaf of the entry of
    slot 3; this holds of the search on any forest, and so of a run of
    the program on any file. *)
Theorem emitted_frames_rooted :
  (forall trees, Forall (rooted trees) (emitted (fst (search trees)))) /\
  (forall f, Forall (rooted (forest f)) (emitted (fst (snd (main f))))).
Proof.
  assert (H : forall trees, Forall (rooted trees) (emitted (fst (search trees)))).
  { intros trees. eapply Forall_impl; [|apply search_emitted]. now intros f (H & _). }
  split; [exact H|]. intros f. rewrite main_emitted. apply H.
Qed.

(** Claim C4.  On the corpus "a a a b" (a = 0, b = 1) [load] builds
    for a the tree [(a, {a, b}); (b, {})]: it has L = 2 leaves, and
    [maximum] gives the loop of [main] the triangular number 3 for its
    bound.  The first two turns visit the pairs of the first leaf with
    the two leaves.  The third turn moves the sweep coordinate from the
    last leaf of the first entry onto the entry of b, which has no
    leaf, and [getNextFrame] reads a leaf that is not there: the run
    stops, on a read out of range, after two pairs and not the three
    of the triangle.  (On the root of the claim's example, with entries
    of two leaves and of one leaf, the six pairs are visited.) *)
Theorem pairs_visited_short_of_triangle :
  build (corpus ["a"; "a"; "a"; "b"]%string)
  = Some (gapForest, [("a", 0); ("b", 1)]%string) /\
  forest (corpus ["a"; "a"; "a"; "b"]%string) = gapForest /\
  at_ gapForest 0 = Some gapRoot /\
  leafCount gapRoot = 2 /\
  maximum gapRoot = leafCount gapRoot * (leafCount gapRoot + 1) / 2 /\
  maximum gapRoot = 3 /\
  visited (fst (snd (main (corpus ["a"; "a"; "a"; "b"]%string))))
  = [((0, 0), (0, 0)); ((0, 0), (0, 1))] /\
  size (visited (fst (snd (main (corpus ["a"; "a"; "a"; "b"]%string)))))
  <> leafCount gapRoot * (leafCount gapRoot + 1) / 2 /\
  (forall frame, getNextFrame 0 gapRoot frame (0, 0) (0, 1) true = None) /\
  snd (snd (main (corpus ["a"; "a"; "a"; "b"]%string))) = None /\
  leafCount smallRoot = 3 /\
  size (visited (fst (searchRoot smallForest 0 blankFrame))) = 6 /\
  snd (searchRoot smallForest 0 blankFrame) <> None.
Proof.
  repeat split; try reflexivity; try discriminate.
  - intros frame. unfold getNextFrame.
    change (iterateCoordinates gapRoot (0, 0) (0, 1)) with (Some ((0, 0), (1, 0))).
    cbn [fst snd]. change (at_ gapRoot 0) with (Some (0, [0; 1])).
    change (at_ gapRoot 1) with (Some (1, @nil N)). cbn [fst snd at_ N.eqb].
    destruct (assign frame 0 0) as [f0|]; [|reflexivity].
    destruct (assign f0 1 0) as [f1|]; [|reflexivity].
    destruct (assign f1 2 0) as [f2|]; [|reflexivity].
    destruct (assign f2 3 1) as [f3|]; reflexivity.
Qed.

(** Claim C5.  On the corpus "a a a b" the tree of a is
    [(a, {a, b}); (b, {})], with the two flattened positions (0, 0) and
    (0, 1).  With [main] on the first and [sweep] on the last of them,
    the step of the specification moves [main] to the last position
    and resets [sweep] to it.  [iterateCoordinates] looks for the end
    of the sweep on the last leaf of the last entry, here an entry
    without leaves, and does not find the sweep to be at the end: it
    leaves [main] where it is and moves [sweep] to (1, 0), which is no
    position.  Of the three pairs of the triangle the run visits two,
    and stops on the read of the leaf at (1, 0).  (On a root whose
    entries have two leaves and one leaf, the end of the sweep is
    found, and the triangle is visited row by row.) *)
Theorem sweep_end_missed :
  forest (corpus ["a"; "a"; "a"; "b"]%string) = gapForest /\
  at_ gapForest 0 = Some gapRoot /\
  flatten gapRoot = [(0, 0); (0, 1)] /\
  upper (flatten gapRoot) = [((0, 0), (0, 0)); ((0, 0), (0, 1)); ((0, 1), (0, 1))] /\
  Positions.next (length (flatten gapRoot)) 0 1 = (1%nat, 1%nat) /\
  sweepAtEnd gapRoot (0, 1) = Some false /\
  iterateCoordinates gapRoot (0, 0) (0, 1) = Some ((0, 0), (1, 0)) /\
  ~ In (1, 0) (flatten gapRoot) /\
  ~ followsPositions gapRoot /\
  visited (fst (snd (main (corpus ["a"; "a"; "a"; "b"]%string))))
  = [((0, 0), (0, 0)); ((0, 0), (0, 1))] /\
  visited (fst (snd (main (corpus ["a"; "a"; "a"; "b"]%string))))
  <> upper (flatten gapRoot) /\
  snd (snd (main (corpus ["a"; "a"; "a"; "b"]%string))) = None /\
  iterateCoordinates smallRoot (0, 0) (1, 0) = Some ((0, 1), (0, 1)) /\
  visited (fst (searchRoot smallForest 0 blankFrame)) = upper (flatten smallRoot).
Proof.
  repeat split; try reflexivity.
  - cbn. intros [H|[H|[]]]; discriminate.
  - intros H. specialize (H 0%nat 1%nat (0, 0) (0, 1) (0, 1) (0, 1)).
    cbn in H. discriminate H; auto.
  - discriminate.
Qed.

(** Claim C6.  On a file without any token the one extraction fails,
    and the empty word it leaves in [word] is interned with the id 0:
    the vocabulary has one entry although the stream has no token.  On a
    file with one token the failed extraction of [oneBack] has the build
    add the empty word, with the id 0 of the token. *)
Theorem empty_file_vocabulary :
  (forall trailing,
      exists d,
        loadDictionary (Istream.File [] trailing) [] = Some d /\
        d = [(EmptyString, 0)] /\
        size d = 1 /\
        size (distinct (Istream.tokens (Istream.File [] trailing))) = 0) /\
  (exists trees d,
      build (corpus ["a"%string]) = Some (trees, d) /\
      d = [(EmptyString, 0); ("a"%string, 0)] /\
      size (distinct (Istream.tokens (corpus ["a"%string]))) = 1).
Proof.
  split.
  - intros trailing. eexists. repeat split.
  - eexists _, _. repeat split.
Qed.




(** Claim C8.  A root whose branch entries hold no leaf at all, a root
    without branch entries in particular, is skipped: its turn of the
    search prints the root line only, emits no frame and ends without a
    read out of range. *)
Theorem leafless_root_skipped :
  forall trees current root frame,
    at_ trees current = Some root ->
    leafCount root = 0 ->
    searchRoot trees current frame = ([Root current], Some frame) /\
    emitted (fst (searchRoot trees current frame)) = [] /\
    visited (fst (searchRoot trees current frame)) = [].
Proof.
  intros trees current root frame Hroot HL.
  rewrite (searchRoot_leafless _ _ _ _ Hroot HL). auto.
Qed.

Lemma leafless_root_skipped_witness :
  searchRoot [[(1, []); (0, [])]; []] 0 blankFrame = ([Root 0], Some blankFrame) /\
  searchRoot [[(1, []); (0, [])]; []] 1 blankFrame = ([Root 1], Some blankFrame).
Proof.
  split.
  - apply (leafless_root_skipped [[(1, []); (0, [])]; []] 0 [(1, []); (0, [])]);
      reflexivity.
  - apply (leafless_root_skipped [[(1, []); (0, [])]; []] 1 []); reflexivity.
Defined.

(** Claim C9, as stated, fails: the only frame of the corpus "a a a" is
    printed on nine lines, the reserved slots as empty lines. *)
Lemma reserved_slots_rendered :
  exists frame,
    emitted (fst (snd (main (corpus ["a"; "a"; "a"]%string)))) = [frame] /\
    outPutAll frame (fst (main (corpus ["a"; "a"; "a"]%string)))
    = ["a"; "a"; "a"; "a"; "a"; EmptyString; "a"; EmptyString; EmptyString]%string /\
    ~ definedSlotsOnly (fst (main (corpus ["a"; "a"; "a"]%string))) frame.
Proof.
  eexists. split; [reflexivity|]. split; [reflexivity|]. discriminate.
Qed.

(** Claim C9, amended.  Every emitted frame has nine slots, the slots
    5, 7 and 8 holding the value 1234578 of the fill constructor, and is
    rendered as a divider line followed by nine lines, one for each slot
    0 to 8 in this order, the line of a slot being the reverse
    dictionary's word for its id; 1234578 has no word, and the reserved
    slots are printed as empty lines, as long as the forest has at most
    1234578 trees. *)
Theorem frames_rendered_in_full :
  forall f,
    Forall (fun frame =>
              reserved frame /\
              render (fst (main f)) (Emit frame)
              = divider :: map (fun k => Reverse.index (fst (main f)) (slot frame k))
                             [0; 1; 2; 3; 4; 5; 6; 7; 8])
      (emitted (fst (snd (main f)))) /\
    (size (forest f) <= sentinel -> Reverse.index (fst (main f)) sentinel = EmptyString).
Proof.
  intros f. split.
  - rewrite main_emitted. eapply Forall_impl; [|apply search_emitted].
    intros frame (_ & _ & Hres). split; [assumption|].
    cbn [render]. f_equal. unfold outPutAll.
    rewrite (nine_slots frame) at 1 by apply Hres. now rewrite map_map.
  - unfold forest, main. destruct (load f) as [[trees rd]|] eqn:E; [|reflexivity].
    cbn [fst]. now apply (unassigned_id_unresolved f trees).
Qed.

Lemma frames_rendered_in_full_witness :
  size (forest (corpus ["a"; "a"; "b"]%string)) <= sentinel /\
  Reverse.index (fst (main (corpus ["a"; "a"; "b"]%string))) sentinel = EmptyString /\
  map (render (fst (main (corpus ["a"; "a"; "b"]%string))))
    (map Emit (emitted (fst (snd (main (corpus ["a"; "a"; "b"]%string))))))
  = [[divider; "a"; "a"; "b"; "a"; "a"; EmptyString; "b"; EmptyString; EmptyString];
     [divider; "a"; "a"; "b"; "a"; "b"; EmptyString; "b"; EmptyString; EmptyString]]%string.
Proof.
  assert (H : size (forest (corpus ["a"; "a"; "b"]%string)) <= sentinel)
    by (vm_compute; discriminate).
  split; [exact H|]. split; [|reflexivity].
  exact (proj2 (frames_rendered_in_full (corpus ["a"; "a"; "b"]%string)) H).
Defined.

(** Claim C10.  For a file with at least one token, the build returns a
    forest in which every entry but the one of the first token's id is
    empty; a turn of the read loop, run with the [twoBack] and [oneBack]
    set before the loop, changes no tree but the one of [twoBack]. *)
Theorem only_first_root_grows :
  forall f,
    Istream.tokens f <> [] ->
    exists trees dictionary first,
      build f = Some (trees, dictionary) /\
      Dictionary.find dictionary (hd EmptyString (Istream.tokens f)) = Some first /\
      (forall i root, at_ trees i = Some root -> i <> first -> root = []) /\
      (forall in_ word twoBack oneBack trees0 d0 in' word' trees' d',
          load_step in_ word twoBack oneBack trees0 d0 = Some (in', word', trees', d') ->
          forall i, i <> snd (Dictionary.index d0 twoBack) -> at_ trees' i = at_ trees0 i).
Proof.
  intros f Hne.
  destruct (build_planted f) as (trees & d & o & k & Hb & (Htwo & _ & leaves & more & ->) & _).
  exists (((o, leaves) :: more) :: repeat [] k), d, 0.
  split; [assumption|]. split; [|split].
  - destruct (Istream.tokens f) as [|a [|b rest]]; [contradiction| |]; exact Htwo.
  - intros i root Hat Hi. cbn [at_] in Hat.
    destruct (N.eqb_spec i 0); [contradiction|]. now apply at_repeat_nil in Hat.
  - intros. eapply load_step_frame; eassumption.
Qed.

Lemma only_first_root_grows_witness :
  exists trees dictionary first,
    build (Istream.File ["a"; "b"; "c"; "a"; "b"; "d"]%string true)
    = Some (trees, dictionary) /\
    Dictionary.find dictionary "a"%string = Some first /\
    forall i root, at_ trees i = Some root -> i <> first -> root = [].
Proof.
  destruct (only_first_root_grows (Istream.File ["a"; "b"; "c"; "a"; "b"; "d"]%string true))
    as (trees & dictionary & first & H1 & H2 & H3 & _).
  - simpl. discriminate.
  - exists trees, dictionary, first. auto.
Defined.

(** * Further properties of the code *)

(** ** Scans of a branch list *)

Lemma pushLeaves_spec rest : forall children, pushLeaves rest children = children ++ rest.
Proof.
  induction rest as [|l rest IH]; intros children; cbn [pushLeaves].
  - now rewrite app_nil_r.
  - now rewrite IH, <- app_assoc.
Qed.

Lemma seekLeaf_shift x l : forall k, seekLeaf l x (k + 1) = seekLeaf l x k + 1.
Proof.
  induction l as [|y l IH]; intros k; cbn [seekLeaf]; [reflexivity|].
  destruct (y =? x); [reflexivity|]. apply IH.
Qed.

Lemma seekLeaf_absent x l : forall k, ~ In x l -> seekLeaf l x k = k + size l.
Proof.
  induction l as [|y l IH]; intros k Hn; cbn [seekLeaf]; sizes; [lia|].
  destruct (N.eqb_spec y x) as [->|_]; [exfalso; apply Hn; now left|].
  rewrite IH by (intros H; apply Hn; now right). lia.
Qed.

Lemma seekLeaf_found x l : forall k,
  In x l ->
  seekLeaf l x k < k + size l /\
  at_ l (seekLeaf l x k - k) = Some x /\
  forall j, j < seekLeaf l x k - k -> at_ l j <> Some x.
Proof.
  induction l as [|y l IH]; intros k Hin; [contradiction|].
  cbn [seekLeaf]. sizes.
  destruct (N.eqb_spec y x) as [->|Hne].
  - rewrite N.sub_diag. split; [lia|]. split; [reflexivity|]. intros j Hj. lia.
  - destruct Hin as [E|Hin]; [contradiction|].
    destruct (IH (k + 1) Hin) as (Hlt & Hat & Hmin).
    assert (Hk : k + 1 <= seekLeaf l x (k + 1)).
    { clear. revert k. induction l as [|z l IHl]; intros k; cbn [seekLeaf]; [lia|].
      destruct (z =? x); [lia|]. specialize (IHl (k + 1)). lia. }
    repeat split; [lia| |].
    + cbn [at_]. destruct (N.eqb_spec (seekLeaf l x (k + 1) - k) 0) as [E|_]; [lia|].
      replace (N.pred (seekLeaf l x (k + 1) - k)) with (seekLeaf l x (k + 1) - (k + 1)) by lia.
      assumption.
    + intros j Hj. cbn [at_]. destruct (N.eqb_spec j 0) as [->|Hj0]; [congruence|].
      apply Hmin. lia.
Qed.

Lemma findBranch_scan_spec beyond root x : forall rest pre,
  root = pre ++ rest ->
  ~ In x (branchIds pre) ->
  findBranch_scan beyond rest (size root) x (size pre)
  = if doesNotContain rest x
    then match beyond with Some _ => Some (size root) | None => None end
    else Some (size pre + seekLeaf (branchIds rest) x 0).
Proof.
  induction rest as [|e rest IH]; intros pre Hroot Hpre.
  - cbn [findBranch_scan doesNotContain]. destruct beyond as [v|]; [|reflexivity].
    rewrite app_nil_r in Hroot. subst pre.
    now rewrite N.eqb_refl, andb_false_r.
  - cbn [findBranch_scan branchIds map seekLeaf].
    assert (Hlt : size pre < size root) by (rewrite Hroot; sizes; lia).
    destruct (N.eqb_spec (size pre) (size root)) as [E|_]; [lia|].
    rewrite andb_true_r.
    destruct (N.eqb_spec (fst e) x) as [Ex|Ex]; cbn [negb].
    + assert (Hc : doesNotContain (e :: rest) x = false).
      { apply doesNotContain_false. now left. }
      rewrite Hc. now rewrite N.add_0_r.
    + replace (size pre + 1) with (size (pre ++ [e])) by (sizes; reflexivity).
      rewrite (IH (pre ++ [e])).
      * assert (Hc : doesNotContain (e :: rest) x = doesNotContain rest x).
        { destruct (doesNotContain rest x) eqn:Er.
          - apply doesNotContain_true. apply doesNotContain_true in Er.
            cbn. intros [H|H]; auto.
          - apply doesNotContain_false. apply doesNotContain_false in Er. now right. }
        rewrite Hc. destruct (doesNotContain rest x); [reflexivity|].
        f_equal. sizes. rewrite (seekLeaf_shift x _ 0). unfold branchIds. lia.
      * now rewrite <- app_assoc.
      * unfold branchIds. rewrite map_app, in_app_iff. cbn. intros [H|[H|[]]]; auto.
Qed.

(** X1 ([doesNotContain]).  Whatever the root, the scan that stops on
    the last item decides membership among the branch ids: it answers
    [true] exactly when no entry of the root has the id [x], on the
    empty root in particular, and [false] exactly when one has. *)
Theorem doesNotContain_decides_membership :
  forall root x,
    (doesNotContain root x = true <-> ~ In x (branchIds root)) /\
    (doesNotContain root x = false <-> In x (branchIds root)) /\
    doesNotContain [] x = true.
Proof.
  intros root x. split; [apply doesNotContain_true|].
  split; [apply doesNotContain_false|reflexivity].
Qed.

(** X2 ([populateChildrenForE]).  The branch ids of the root are added
    after what [children] holds already, in the order of the entries:
    nothing is cleared or reordered, the size grows by the size of the
    root, and filling from two roots in turn is filling from their
    concatenation. *)
Theorem populateChildrenForE_appends :
  forall root root' children,
    populateChildrenForE root children = children ++ branchIds root /\
    size (populateChildrenForE root children) = size children + size root /\
    populateChildrenForE root' (populateChildrenForE root children)
    = populateChildrenForE (root ++ root') children.
Proof.
  intros root root' children. rewrite !populateChildrenForE_spec. repeat split.
  - sizes. unfold branchIds, size. now rewrite length_map.
  - unfold branchIds. now rewrite map_app, app_assoc.
Qed.

(** X3 ([populateChildren]).  For an entry index in range the leaves of
    that entry are added after what [children] holds, in order; an
    index past the last entry is a read out of range, and nothing is
    returned. *)
Theorem populateChildren_appends_leaves :
  forall root sub children,
    populateChildren root sub children
    = match at_ root sub with
      | Some b => Some (children ++ snd b)
      | None => None
      end /\
    (populateChildren root sub children = None <-> size root <= sub).
Proof.
  intros root sub children. unfold populateChildren.
  destruct (at_ root sub) as [b|] eqn:E.
  - rewrite pushLeaves_spec. split; [reflexivity|]. split; [discriminate|].
    intros H. apply at_lt in E. lia.
  - split; [reflexivity|]. split; [|reflexivity]. intros _.
    destruct (N.le_gt_cases (size root) sub) as [H|H]; [assumption|].
    destruct (at_Some root sub H) as [b Hb]. congruence.
Qed.

(** X4 ([findBranch]).  When an entry of the root has the id [x],
    [findBranch] returns the index of the first such entry, and prints
    nothing; no read is out of range. *)
Theorem findBranch_first_occurrence :
  forall beyond root x,
    In x (branchIds root) ->
    exists i,
      findBranch beyond root x = (EmptyString, Some i) /\
      at_ (branchIds root) i = Some x /\
      forall j, j < i -> at_ (branchIds root) j <> Some x.
Proof.
  intros beyond root x Hin. unfold findBranch.
  pose proof (findBranch_scan_spec beyond root x root [] eq_refl (fun H => H)) as Hscan.
  change (size (@nil intVectorPair)) with 0 in Hscan. rewrite Hscan.
  apply doesNotContain_false in Hin as Hc. rewrite Hc. cbn [N.add].
  destruct (seekLeaf_found x (branchIds root) 0 Hin) as (Hlt & Hat & Hmin).
  rewrite N.sub_0_r in Hat, Hmin.
  exists (seekLeaf (branchIds root) x 0). split; [|split; assumption].
  assert (Hsz : size (branchIds root) = size root).
  { unfold size, branchIds. now rewrite length_map. }
  destruct (N.eqb_spec (seekLeaf (branchIds root) x 0) (size root)) as [E|_]; [lia|].
  reflexivity.
Qed.

(** X4 on a root in which the id 7 occurs twice. *)
Lemma findBranch_first_occurrence_witness :
  In 7 (branchIds [(4, []); (7, [1]); (9, []); (7, [])]) /\
  findBranch None [(4, []); (7, [1]); (9, []); (7, [])] 7 = (EmptyString, Some 1) /\
  exists i,
    findBranch (Some 7) [(4, []); (7, [1]); (9, []); (7, [])] 7 = (EmptyString, Some i) /\
    at_ (branchIds [(4, []); (7, [1]); (9, []); (7, [])]) i = Some 7 /\
    forall j, j < i -> at_ (branchIds [(4, []); (7, [1]); (9, []); (7, [])]) j <> Some 7.
Proof.
  assert (H : In 7 (branchIds [(4, []); (7, [1]); (9, []); (7, [])])).
  { cbn. auto. }
  split; [exact H|]. split; [reflexivity|].
  exact (findBranch_first_occurrence (Some 7) [(4, []); (7, [1]); (9, []); (7, [])] 7 H).
Defined.

(** X5 ([findBranch]).  When no entry of the root has the id [x], the
    scan reads [root[root.size ()].first], a read out of range, before
    it compares the cursor with the size.  Whatever value that read
    yields, the comparison then ends the loop: the call prints the
    "over the limit" message and returns [root.size ()].  Nothing is
    printed or returned only when the read itself fails.  Of any call
    that returns, the index is the size at most, and the message is
    printed exactly when it is the size. *)
Theorem findBranch_absent_reads_past_end :
  forall root x,
    ~ In x (branchIds root) ->
    (forall v, findBranch (Some v) root x = (overTheLimit, Some (size root))) /\
    findBranch None root x = (EmptyString, None) /\
    forall beyond root' x' i,
      snd (findBranch beyond root' x') = Some i ->
      i <= size root' /\
      (i = size root' <-> ~ In x' (branchIds root')) /\
      fst (findBranch beyond root' x')
      = if i =? size root' then overTheLimit else EmptyString.
Proof.
  intros root x Hnin. split; [|split].
  - intros v. unfold findBranch.
    pose proof (findBranch_scan_spec (Some v) root x root [] eq_refl (fun H => H)) as Hscan.
    change (size (@nil intVectorPair)) with 0 in Hscan. rewrite Hscan.
    apply doesNotContain_true in Hnin. now rewrite Hnin, N.eqb_refl.
  - unfold findBranch.
    pose proof (findBranch_scan_spec None root x root [] eq_refl (fun H => H)) as Hscan.
    change (size (@nil intVectorPair)) with 0 in Hscan. rewrite Hscan.
    apply doesNotContain_true in Hnin. now rewrite Hnin.
  - clear. intros beyond root x i. unfold findBranch.
    pose proof (findBranch_scan_spec beyond root x root [] eq_refl (fun H => H)) as Hscan.
    change (size (@nil intVectorPair)) with 0 in Hscan. rewrite Hscan.
    assert (Hsz : size (branchIds root) = size root).
    { unfold size, branchIds. now rewrite length_map. }
    destruct (doesNotContain root x) eqn:Ec.
    + apply doesNotContain_true in Ec.
      destruct beyond as [v|]; cbn [snd fst]; [|discriminate].
      intros [= <-]. split; [lia|]. split; [tauto|reflexivity].
    + apply doesNotContain_false in Ec.
      destruct (seekLeaf_found x (branchIds root) 0 Ec) as (Hlt & _).
      cbn [N.add snd fst]. intros [= <-]. split; [lia|]. split; [|reflexivity].
      split; [lia|contradiction].
Qed.

(** X5 on a root without the id 5, and on the empty root. *)
Lemma findBranch_absent_reads_past_end_witness :
  ~ In 5 (branchIds [(4, []); (7, [1])]) /\
  findBranch (Some 0) [(4, []); (7, [1])] 5 = (overTheLimit, Some 2) /\
  findBranch (Some 5) [(4, []); (7, [1])] 5 = (overTheLimit, Some 2) /\
  findBranch None [] 5 = (EmptyString, None).
Proof.
  assert (H : ~ In 5 (branchIds [(4, []); (7, [1])])).
  { cbn. intros [H|[H|[]]]; discriminate. }
  split; [exact H|].
  pose proof (findBranch_absent_reads_past_end [(4, []); (7, [1])] 5 H) as (Hv & _).
  split; [exact (Hv 0)|]. split; [exact (Hv 5)|reflexivity].
Defined.

(** ** The number of turns and the frame *)

(** X6 ([maximum]).  The case [grandchildren == 1] of [maximum] changes
    nothing: for every root the result is the halved product of the
    32-bit leaf count [g] and [g + 1], computed in 32 bits, and it is
    below [2^31]. *)
Theorem maximum_special_case_redundant :
  forall root,
    maximum root
    = u32 (grandchildren root 0 * u32 (grandchildren root 0 + 1)) / 2 /\
    maximum root < 2 ^ 31.
Proof.
  intros root. unfold maximum.
  assert (Hhalf : forall n, u32 n / 2 < 2 ^ 31).
  { intros n. apply N.Div0.div_lt_upper_bound.
    change (2 * 2 ^ 31) with (2 ^ 32). apply N.mod_lt. discriminate. }
  destruct (N.eqb_spec (grandchildren root 0) 1) as [E|_].
  - rewrite E. split; reflexivity.
  - split; [reflexivity|apply Hhalf].
Qed.

(** X7 ([getNextFrame]).  A call that returns has written the slots 0,
    1, 2, 3 and 6 only: slot 0 is [current], the other slots and the
    size of the frame are those of the frame passed in, which had seven
    slots at least; [ranBefore] is set, and the first call
    ([ranBefore] false) leaves the two coordinates where they were.  On
    a frame of six slots or fewer the call writes out of range. *)
Theorem getNextFrame_writes_five_slots :
  forall current root frame mc sc rb,
    (forall frame' mc' sc' rb',
        getNextFrame current root frame mc sc rb = Some (frame', mc', sc', rb') ->
        rb' = true /\
        size frame' = size frame /\
        6 < size frame /\
        (rb = false -> mc' = mc /\ sc' = sc) /\
        at_ frame' 0 = Some current /\
        forall j, j <> 0 -> j <> 1 -> j <> 2 -> j <> 3 -> j <> 6 ->
                  at_ frame' j = at_ frame j) /\
    (size frame <= 6 -> getNextFrame current root frame mc sc rb = None).
Proof.
  intros current root frame mc sc rb.
  assert (Hmain : forall frame' mc' sc' rb',
             getNextFrame current root frame mc sc rb = Some (frame', mc', sc', rb') ->
             6 < size frame).
  { intros frame' mc' sc' rb' H. unfold getNextFrame in H.
    destruct (if rb then _ else _) as [[mc1 sc1]|]; [|discriminate].
    destruct (assign frame 0 current) as [f0|] eqn:E0; [|discriminate].
    destruct (at_ root (fst mc1)) as [b|]; [|discriminate].
    destruct (assign f0 1 (fst b)) as [f1|] eqn:E1; [|discriminate].
    destruct (at_ (snd b) (snd mc1)) as [c|]; [|discriminate].
    destruct (assign f1 2 c) as [f2|] eqn:E2; [|discriminate].
    destruct (at_ root (fst sc1)) as [d|]; [|discriminate].
    destruct (assign f2 3 (fst d)) as [f3|] eqn:E3; [|discriminate].
    destruct (at_ (snd d) (snd sc1)) as [g|]; [|discriminate].
    destruct (assign f3 6 g) as [f6|] eqn:E6; [|discriminate].
    pose proof (assign_at _ _ _ _ E6 6) as H6. rewrite N.eqb_refl in H6.
    apply at_lt in H6.
    rewrite (assign_size _ _ _ _ E6), (assign_size _ _ _ _ E3), (assign_size _ _ _ _ E2),
      (assign_size _ _ _ _ E1), (assign_size _ _ _ _ E0) in H6. exact H6. }
  split.
  - intros frame' mc' sc' rb' H. pose proof (Hmain _ _ _ _ H) as Hsz.
    pose proof (getNextFrame_spec _ _ _ _ _ _ _ _ _ _ H)
      as (Hit & -> & Hsize & b & c & d & g & _ & _ & _ & _ & Hat).
    split; [reflexivity|]. split; [assumption|]. split; [assumption|]. split; [|split].
    + intros ->. now injection Hit as <- <-.
    + now rewrite Hat.
    + intros j H0 H1 H2 H3 H6. rewrite Hat.
      apply N.eqb_neq in H0, H1, H2, H3, H6. now rewrite H0, H1, H2, H3, H6.
  - intros Hsmall.
    destruct (getNextFrame current root frame mc sc rb) as [[[[f' mc'] sc'] rb']|];
      [|reflexivity].
    specialize (Hmain _ _ _ _ eq_refl). lia.
Qed.

(** X7 on the blank frame of [main], and on a frame of six slots. *)
Lemma getNextFrame_writes_five_slots_witness :
  getNextFrame 0 smallRoot blankFrame (0, 0) (0, 1) false
  = Some ([0; 1; 1; 1; sentinel; sentinel; 2; sentinel; sentinel], (0, 0), (0, 1), true) /\
  at_ [0; 1; 1; 1; sentinel; sentinel; 2; sentinel; sentinel] 4 = at_ blankFrame 4 /\
  size [0; 1; 2; 3; 4; 5] <= 6 /\
  getNextFrame 0 smallRoot [0; 1; 2; 3; 4; 5] (0, 0) (0, 1) false = None.
Proof.
  assert (E : getNextFrame 0 smallRoot blankFrame (0, 0) (0, 1) false
              = Some ([0; 1; 1; 1; sentinel; sentinel; 2; sentinel; sentinel],
                      (0, 0), (0, 1), true)) by reflexivity.
  assert (Hs : size [0; 1; 2; 3; 4; 5] <= 6) by (apply N.leb_le; reflexivity).
  split; [exact E|]. split; [|split; [exact Hs|]].
  - refine (proj2 (proj2 (proj2 (proj2 (proj2
      (proj1 (getNextFrame_writes_five_slots 0 smallRoot blankFrame (0, 0) (0, 1) false)
         _ _ _ _ E))))) 4 _ _ _ _ _); discriminate.
  - exact (proj2 (getNextFrame_writes_five_slots 0 smallRoot [0; 1; 2; 3; 4; 5]
                    (0, 0) (0, 1) false) Hs).
Defined.

(** Past the last flattened position. *)
Lemma iterate_past_last root pre y :
  leafy root -> leafCount root < 2 ^ 32 ->
  flatten root = pre ++ [y] ->
  iterateCoordinates root y y = Some ((size root, 0), (size root, 0)).
Proof.
  intros Hleafy Hcount HF.
  pose proof (flattenFrom_last root Hleafy Hcount root [] eq_refl pre y HF) as Hend.
  pose proof (leafy_size root Hleafy) as Hsz.
  assert (Hpos : 0 < size root).
  { destruct root; [destruct pre; discriminate|]. sizes. lia. }
  assert (H64 : 2 ^ 32 < 2 ^ 64) by reflexivity.
  unfold iterateCoordinates. rewrite Hend.
  unfold sweepAtEnd in Hend. rewrite pred_size_pos in Hend by lia.
  destruct (N.eqb_spec (fst y) (size root - 1)) as [Efst|]; [|discriminate].
  destruct (at_ root (size root - 1)) as [b|] eqn:Eb; [|discriminate].
  injection Hend as Hsnd.
  unfold advance. rewrite Efst, Eb, Hsnd.
  replace (size root - 1 + 1) with (size root) by lia.
  now rewrite u32_small by lia.
Qed.

(** X8 ([iterateCoordinates], [getNextFrame]).  On a root all of whose
    entries have a leaf, stepping from the last pair of the enumeration
    (both coordinates on the last leaf of the last entry) puts both
    coordinates on the entry index [root.size ()], which the next
    [getNextFrame] reads out of range: only the bound of the loop of
    [main] keeps the reads inside the root. *)
Theorem enumeration_ends_at_last_pair :
  forall root current frame pre y,
    leafy root ->
    leafCount root < 2 ^ 32 ->
    flatten root = pre ++ [y] ->
    iterateCoordinates root y y = Some ((size root, 0), (size root, 0)) /\
    getNextFrame current root frame y y true = None.
Proof.
  intros root current frame pre y Hleafy Hcount HF.
  pose proof (iterate_past_last root pre y Hleafy Hcount HF) as Hit.
  split; [assumption|]. unfold getNextFrame. rewrite Hit. cbn [fst snd].
  assert (Hnone : at_ root (size root) = None).
  { destruct (at_ root (size root)) as [e|] eqn:E; [|reflexivity].
    apply at_lt in E. lia. }
  rewrite Hnone. now destruct (assign frame 0 current).
Qed.

(** X8 on a root of three leaves. *)
Lemma enumeration_ends_at_last_pair_witness :
  leafy smallRoot /\
  flatten smallRoot = [(0, 0); (0, 1)] ++ [(1, 0)] /\
  iterateCoordinates smallRoot (1, 0) (1, 0) = Some ((2, 0), (2, 0)) /\
  getNextFrame 0 smallRoot blankFrame (1, 0) (1, 0) true = None.
Proof.
  assert (Hl : leafy smallRoot) by (repeat constructor; discriminate).
  assert (Hc : leafCount smallRoot < 2 ^ 32) by reflexivity.
  split; [exact Hl|]. split; [reflexivity|].
  exact (enumeration_ends_at_last_pair smallRoot 0 blankFrame [(0, 0); (0, 1)] (1, 0)
           Hl Hc eq_refl).
Defined.

(** ** The words of the dictionary *)

Lemma idOf_found d w i : Dictionary.find d w = Some i -> idOf d w = i.
Proof. intros H. unfold idOf. now rewrite (DictionaryFacts.index_found _ _ _ H). Qed.

Lemma known_find d w : known d w -> Dictionary.find d w = Some (idOf d w).
Proof.
  unfold known. destruct (Dictionary.find d w) as [i|] eqn:E; [|congruence].
  intros _. now rewrite (idOf_found _ _ _ E).
Qed.

Lemma idOf_inj d w w' : injective d -> known d w -> known d w' -> idOf d w = idOf d w' -> w = w'.
Proof.
  intros Hinj Hw Hw' E. apply known_find in Hw, Hw'. rewrite E in Hw.
  exact (Hinj _ _ _ Hw Hw').
Qed.

Lemma find_bounded n d w i : bounded n d -> Dictionary.find d w = Some i -> i < n.
Proof.
  unfold bounded. induction d as [|[k v] d IH]; intros Hb H; [discriminate|].
  apply Forall_cons_iff in Hb as [Hv Hb]. cbn in H.
  destruct (String.eqb k w); [now injection H as <-|auto].
Qed.

Lemma idOf_bounded n d w : 0 < n -> bounded n d -> idOf d w < n.
Proof.
  intros Hn Hb. unfold idOf, Dictionary.index.
  destruct (Dictionary.find d w) as [i|] eqn:E; cbn [snd]; [|assumption].
  exact (find_bounded _ _ _ _ Hb E).
Qed.

Lemma index_bounded n d w : 0 < n -> bounded n d -> snd (Dictionary.index d w) < n.
Proof. intros Hn Hb. now apply idOf_bounded. Qed.

Lemma distinctFrom_In w ws : forall seen,
  In w (distinctFrom seen ws) <-> In w seen \/ In w ws.
Proof.
  induction ws as [|x ws IH]; intros seen; cbn [distinctFrom].
  - cbn. tauto.
  - rewrite IH. destruct (existsb (String.eqb x) seen) eqn:E.
    + apply existsb_eqb_In in E. cbn. split; [tauto|].
      intros [H|[<-|H]]; auto.
    + rewrite in_app_iff. cbn. tauto.
Qed.

Lemma distinctFrom_NoDup ws : forall seen, NoDup seen -> NoDup (distinctFrom seen ws).
Proof.
  induction ws as [|x ws IH]; intros seen Hnd; cbn [distinctFrom]; [assumption|].
  apply IH. destruct (existsb (String.eqb x) seen) eqn:E; [assumption|].
  apply NoDup_app; [assumption|repeat constructor; now intros []|].
  intros y Hy [<-|[]]. apply existsb_eqb_In in Hy. congruence.
Qed.

Lemma distinctFrom_absorb seen w : In w seen -> distinctFrom seen [w] = seen.
Proof. intros H. cbn. apply existsb_eqb_In in H. now rewrite H. Qed.

Lemma distinctFrom_known d ws : forall seen,
  Forall (known d) seen -> Forall (known d) ws -> Forall (known d) (distinctFrom seen ws).
Proof.
  intros seen Hs Hw. apply Forall_forall. intros x Hx.
  apply distinctFrom_In in Hx. rewrite Forall_forall in Hs, Hw. destruct Hx; auto.
Qed.

Lemma distinct_length ws : (length (distinct ws) <= length ws)%nat.
Proof.
  apply NoDup_incl_length.
  - apply distinctFrom_NoDup. constructor.
  - intros x Hx. apply distinctFrom_In in Hx as [[]|Hx]. assumption.
Qed.

Lemma distinct_head c rest : exists sw, distinct (c :: rest) = c :: sw.
Proof.
  unfold distinct. cbn [distinctFrom existsb app].
  assert (H : forall ws seen, exists sw, distinctFrom (c :: seen) ws = c :: sw).
  { induction ws as [|w ws IH]; intros seen; cbn [distinctFrom]; [now exists seen|].
    destruct (existsb (String.eqb w) (c :: seen)); [apply IH|].
    apply (IH (seen ++ [w])). }
  apply H.
Qed.

Lemma vocabulary_cons_enumerates w ws : enumerates (vocabulary (w :: ws)) (distinct (w :: ws)).
Proof.
  unfold vocabulary. apply enumerates_fold. repeat split; try constructor; discriminate.
Qed.

Lemma enumerates_injective d seen : enumerates d seen -> injective d.
Proof.
  intros (_ & _ & H) w w' i Hw Hw'. apply H in Hw, Hw'. congruence.
Qed.

Lemma enumerates_known d seen w : enumerates d seen -> In w seen -> known d w.
Proof.
  intros He Hin. apply (enumerates_In _ _ _ He) in Hin as [i Hi]. unfold known. congruence.
Qed.

Lemma vocabulary_known w ws x : In x (w :: ws) -> known (vocabulary (w :: ws)) x.
Proof.
  intros Hin. apply (enumerates_known _ _ _ (vocabulary_cons_enumerates w ws)).
  apply distinctFrom_In. now right.
Qed.

Lemma vocabulary_length w ws : exists k, length (vocabulary (w :: ws)) = S k.
Proof.
  pose proof (vocabulary_size (w :: ws)) as H. unfold size in H.
  destruct (length (vocabulary (w :: ws))) as [|k]; [lia|]. now exists k.
Qed.

Lemma place_keys d w v x :
  In x (map fst (Dictionary.place d w v)) <-> x = w \/ In x (map fst d).
Proof.
  induction d as [|[k y] d IH]; cbn [Dictionary.place map fst In].
  - intuition.
  - destruct (String.compare w k) eqn:E; cbn [map fst In].
    + apply String.compare_eq_iff in E. subst. intuition.
    + intuition.
    + rewrite IH. intuition.
Qed.

Lemma place_NoDup d w v :
  ~ In w (map fst d) -> NoDup (map fst d) -> NoDup (map fst (Dictionary.place d w v)).
Proof.
  induction d as [|[k y] d IH]; cbn [Dictionary.place map fst In]; intros Hw Hnd.
  - repeat constructor. now intros [].
  - destruct (String.compare w k) eqn:E; cbn [map fst].
    + assumption.
    + constructor; [|assumption]. cbn [In]. exact Hw.
    + inversion Hnd as [|? ? Hk Hnd']. subst. constructor.
      * rewrite place_keys. intros [->|H]; [|contradiction]. apply Hw. now left.
      * apply IH; [|assumption]. intros H. apply Hw. now right.
Qed.

Lemma find_None_keys d w : Dictionary.find d w = None -> ~ In w (map fst d).
Proof.
  induction d as [|[k v] d IH]; cbn [Dictionary.find map fst In]; [tauto|].
  destruct (String.eqb_spec k w) as [->|Hne]; [discriminate|].
  intros H [E|Hin]; [contradiction|]. now apply IH.
Qed.

Lemma intern_keys d w : NoDup (map fst d) -> NoDup (map fst (intern d w)).
Proof.
  intros Hnd. unfold intern, Dictionary.count, Dictionary.insert.
  destruct (Dictionary.find d w) eqn:E; cbn [N.eqb]; [assumption|].
  apply place_NoDup; [|assumption]. now apply find_None_keys.
Qed.

Lemma vocabulary_keys ws : NoDup (map fst (vocabulary ws)).
Proof.
  assert (H : forall l d, NoDup (map fst d) -> NoDup (map fst (fold_left intern l d))).
  { induction l as [|w l IH]; intros d Hd; cbn [fold_left]; [assumption|].
    now apply IH, intern_keys. }
  unfold vocabulary. destruct ws as [|w ws].
  - apply intern_keys. constructor.
  - apply H. constructor.
Qed.

(** X9 ([loadDictionary]).  On a file with a token the loop ends, and
    the dictionary gives each distinct token its rank in the order of
    first occurrence: as many entries as distinct tokens, no word
    twice, no id twice.  White space after the last token (the loop
    then works once more on the last word) changes nothing. *)
Theorem loadDictionary_ranks_tokens :
  forall f,
    Istream.tokens f <> [] ->
    exists d,
      loadDictionary f [] = Some d /\
      enumerates d (distinct (Istream.tokens f)) /\
      NoDup (map fst d) /\
      injective d /\
      forall tr, loadDictionary (Istream.File (Istream.tokens f) tr) [] = Some d.
Proof.
  intros f Hne. exists (vocabulary (Istream.tokens f)).
  destruct (Istream.tokens f) as [|w ws] eqn:E; [contradiction|].
  rewrite loadDictionary_spec, E.
  pose proof (vocabulary_cons_enumerates w ws) as Hen.
  repeat split; try apply Hen.
  - apply vocabulary_keys.
  - exact (enumerates_injective _ _ Hen).
  - intros tr. now rewrite loadDictionary_spec.
Qed.

(** X9 on a file of four tokens, three of them distinct, that ends with a newline. *)
Lemma loadDictionary_ranks_tokens_witness :
  Istream.tokens (Istream.File ["b"; "a"; "b"; "c"]%string true) <> [] /\
  exists d,
    loadDictionary (Istream.File ["b"; "a"; "b"; "c"]%string true) [] = Some d /\
    d = [("a", 1); ("b", 0); ("c", 2)]%string /\
    enumerates d ["b"; "a"; "c"]%string.
Proof.
  assert (H : Istream.tokens (Istream.File ["b"; "a"; "b"; "c"]%string true) <> [])
    by discriminate.
  split; [exact H|].
  destruct (loadDictionary_ranks_tokens _ H) as (d & Hd & Hen & _).
  exists d. split; [exact Hd|]. split; [|exact Hen].
  cbn in Hd. now injection Hd as <-.
Defined.

(** ** What the build keeps true of the forest *)

Lemma soundRoot_grow n (root : top) w :
  w < n -> soundRoot n root -> soundRoot n (root ++ [(w, [])]).
Proof.
  intros Hw Hs. unfold soundRoot in *. apply Forall_app. split.
  - eapply Forall_impl; [|exact Hs]. cbn beta. intros e (H1 & H2 & H3 & H4).
    repeat split; try assumption.
    intros l Hl. unfold branchIds. rewrite map_app. apply in_or_app. left. now apply H4.
  - constructor; [|constructor]. cbn [fst snd]. repeat split; try assumption.
    + constructor.
    + constructor.
    + intros l [].
Qed.

Lemma load_step_sound in_ word twoBack oneBack trees d in' word' trees' d' :
  load_step in_ word twoBack oneBack trees d = Some (in', word', trees', d') ->
  0 < size trees -> bounded (size trees) d -> sound trees -> sound trees'.
Proof.
  unfold load_step. intros H Hn Hb Hs.
  destruct (Istream.extract in_ word) as [in1 word1].
  pose proof (bounded_index _ d twoBack Hn Hb) as H1.
  destruct (Dictionary.index d twoBack) as [d1 r]. cbn [fst] in H1.
  pose proof (index_bounded _ d1 word1 Hn H1) as Hw.
  destruct (Dictionary.index d1 word1) as [d2 w]. cbn [snd] in Hw.
  destruct (Dictionary.index d2 oneBack) as [d3 o].
  destruct (at_ trees r) as [root|] eqn:Eroot; [|discriminate].
  set (root1 := if doesNotContain root w then root ++ [(w, [])] else root) in *.
  assert (Hs1 : soundRoot (size trees) root1).
  { unfold sound in Hs. rewrite Forall_forall in Hs.
    pose proof (Hs root (at_In _ _ _ Eroot)) as Hr. unfold root1.
    destruct (doesNotContain root w); [now apply soundRoot_grow|assumption]. }
  assert (Hin : In w (branchIds root1)).
  { unfold root1. destruct (doesNotContain root w) eqn:Ec.
    - unfold branchIds. rewrite map_app. apply in_or_app. right. now left.
    - now apply doesNotContain_false. }
  destruct (seekBranch root1 o 0) as [i0|]; [|discriminate].
  destruct (at_ root1 i0) as [b|] eqn:Eb; [|discriminate].
  destruct (assign root1 i0 _) as [root'|] eqn:E'; [|discriminate].
  destruct (assign trees r root') as [trees1|] eqn:E; [|discriminate].
  injection H as <- <- <- <-.
  unfold sound. rewrite (assign_size _ _ _ _ E).
  apply (assign_Forall (soundRoot (size trees)) trees r root' trees1 Hs); [|exact E].
  assert (Hids : branchIds root' = branchIds root1).
  { unfold branchIds. now rewrite (assign_map_same fst _ _ (fst b, _) b _ Eb eq_refl E'). }
  unfold soundRoot. rewrite Hids.
  unfold soundRoot in Hs1.
  pose proof Hs1 as Hall. rewrite Forall_forall in Hall.
  destruct (Hall b (at_In _ _ _ Eb)) as (Hb1 & Hb2 & Hb3 & Hb4).
  refine (assign_Forall _ root1 i0 _ root' Hs1 _ E'). cbn [fst snd].
  split; [assumption|].
  destruct (N.eqb_spec (seekLeaf (snd b) w 0) (size (snd b))) as [Ek|_];
    [|repeat split; assumption].
  assert (Hnew : ~ In w (snd b)).
  { intros Hl. destruct (seekLeaf_found w (snd b) 0 Hl) as (Hlt & _). lia. }
  repeat split.
  - apply Forall_app. split; [assumption|]. now repeat constructor.
  - apply NoDup_app; [assumption|repeat constructor; now intros []|].
    intros x Hx [<-|[]]. contradiction.
  - intros l Hl. apply in_app_or in Hl as [Hl|[<-|[]]]; [now apply Hb4|assumption].
Qed.

Lemma load_loop_sound twoBack oneBack : forall fuel in_ word trees d trees' d',
  load_loop fuel in_ word twoBack oneBack trees d = Some (trees', d') ->
  0 < size trees -> bounded (size trees) d -> sound trees -> sound trees'.
Proof.
  induction fuel as [|fuel IH]; intros in_ word trees d trees' d' H Hn Hb Hs;
    cbn [load_loop] in H; destruct (Istream.eof in_).
  - now injection H as <- <-.
  - discriminate.
  - now injection H as <- <-.
  - destruct (load_step in_ word twoBack oneBack trees d)
      as [[[[in1 word1] trees1] d1]|] eqn:E; [|discriminate].
    destruct (load_step_bounded _ _ _ _ _ _ _ _ _ _ _ E Hn Hb) as [Hb1 Hsz1].
    apply (IH _ _ _ _ _ _ H).
    + now rewrite Hsz1.
    + now rewrite Hsz1.
    + now apply (load_step_sound _ _ _ _ _ _ _ _ _ _ E).
Qed.

Lemma build_size f trees d :
  build f = Some (trees, d) -> size trees = size (vocabulary (Istream.tokens f)).
Proof.
  unfold build. rewrite loadDictionary_spec.
  pose proof (vocabulary_size (Istream.tokens f)) as Hsz.
  pose proof (bounded_vocabulary (Istream.tokens f)) as Hb0.
  generalize dependent (vocabulary (Istream.tokens f)). intros d0 Hsz Hb0.
  destruct (Istream.extract (Istream.open f) EmptyString) as [in1 twoBack].
  destruct (Istream.extract in1 EmptyString) as [in2 oneBack].
  assert (Hpos : 0 < size d0) by lia.
  pose proof (bounded_index _ _ oneBack Hpos Hb0) as Hb1.
  destruct (Dictionary.index d0 oneBack) as [d1 b]. cbn [fst] in Hb1.
  pose proof (bounded_index _ _ twoBack Hpos Hb1) as Hb2.
  destruct (Dictionary.index d1 twoBack) as [d2 r]. cbn [fst] in Hb2.
  destruct (at_ _ r) as [root|]; [|discriminate].
  destruct (assign _ r _) as [trees1|] eqn:E; [|discriminate].
  intros H. apply (load_loop_bounded (size d0)) in H as [Hb Hsz']; [|assumption..].
  rewrite Hsz', (assign_size _ _ _ _ E). unfold size at 1. now rewrite repeat_length.
Qed.

Lemma build_sound f trees d : build f = Some (trees, d) -> sound trees.
Proof.
  intros Hbuild. pose proof (build_size _ _ _ Hbuild) as Hsize. revert Hbuild.
  unfold build. rewrite loadDictionary_spec.
  pose proof (vocabulary_size (Istream.tokens f)) as Hsz.
  pose proof (bounded_vocabulary (Istream.tokens f)) as Hb0.
  generalize dependent (vocabulary (Istream.tokens f)). intros d0 Hsize Hsz Hb0.
  destruct (Istream.extract (Istream.open f) EmptyString) as [in1 twoBack].
  destruct (Istream.extract in1 EmptyString) as [in2 oneBack].
  assert (Hpos : 0 < size d0) by lia.
  pose proof (bounded_index _ _ oneBack Hpos Hb0) as Hb1.
  pose proof (index_bounded _ _ oneBack Hpos Hb0) as Hob.
  destruct (Dictionary.index d0 oneBack) as [d1 b]. cbn [fst] in Hb1. cbn [snd] in Hob.
  pose proof (bounded_index _ _ twoBack Hpos Hb1) as Hb2.
  destruct (Dictionary.index d1 twoBack) as [d2 r]. cbn [fst] in Hb2.
  destruct (at_ _ r) as [root|] eqn:Eroot; [|discriminate].
  destruct (assign _ r _) as [trees1|] eqn:E; [|discriminate].
  assert (Hsz1 : size trees1 = size d0).
  { rewrite (assign_size _ _ _ _ E). unfold size at 1. now rewrite repeat_length. }
  intros H. apply load_loop_sound in H; try assumption.
  - now rewrite Hsz1.
  - now rewrite Hsz1.
  - unfold sound. rewrite Hsz1.
    apply at_repeat_nil in Eroot. subst root.
    eapply (assign_Forall (soundRoot (size d0))); [| |exact E].
    + apply Forall_forall. intros x Hx. apply repeat_spec in Hx. subst x. constructor.
    + cbn [app]. constructor; [|constructor]. cbn [fst snd].
      split; [assumption|]. split; [constructor|]. split; [constructor|]. intros l [].
Qed.

Lemma forest_build f : exists d, build f = Some (forest f, d).
Proof.
  unfold forest, load. destruct (build_planted f) as (trees & d & o & k & E & _).
  rewrite E. now exists d.
Qed.

(** X10 ([load]).  Whatever the file, empty or not, [load] returns: no
    read or write of the build is out of range, and the scan for the
    entry of [oneBack], which tests no bound, always finds it.  The
    forest has one tree for each entry of the dictionary that
    [loadDictionary] returns, one at least. *)
Theorem load_always_returns :
  forall f,
    exists trees reverseDictionary d,
      load f = Some (trees, reverseDictionary) /\
      loadDictionary f [] = Some d /\
      size trees = size d /\
      0 < size trees.
Proof.
  intros f. unfold load.
  destruct (build_planted f) as (trees & d & o & k & E & _).
  rewrite E. exists trees, (reverseEntries d []), (vocabulary (Istream.tokens f)).
  pose proof (build_size _ _ _ E) as Hsz.
  pose proof (vocabulary_size (Istream.tokens f)).
  split; [reflexivity|]. split; [apply loadDictionary_spec|]. split; [assumption|lia].
Qed.

(** X11 ([load]).  In the forest of any file every branch id and every
    leaf is below the number of trees: [trees[frame[1]]] and
    [trees[frame[3]]] of [main] are reads in range. *)
Theorem forest_ids_index_the_forest :
  forall f,
    Forall (fun root =>
              Forall (fun e => fst e < size (forest f) /\
                               Forall (fun l => l < size (forest f)) (snd e)) root)
      (forest f).
Proof.
  intros f. destruct (forest_build f) as [d E]. apply build_sound in E.
  unfold sound in E. eapply Forall_impl; [|exact E]. cbn beta. intros root Hroot.
  eapply Forall_impl; [|exact Hroot]. cbn beta. tauto.
Qed.

(** X12 ([load]).  In the forest of any file the leaves of a branch
    entry are distinct: the scan of the leaf set adds a leaf only when
    it is not there. *)
Theorem forest_leaves_distinct :
  forall f, Forall (fun root => Forall (fun e => NoDup (snd e)) root) (forest f).
Proof.
  intros f. destruct (forest_build f) as [d E]. apply build_sound in E.
  unfold sound in E. eapply Forall_impl; [|exact E]. cbn beta. intros root Hroot.
  eapply Forall_impl; [|exact Hroot]. cbn beta. tauto.
Qed.

(** X13 ([load]).  In the forest of any file every leaf of a root is
    also the id of a branch entry of that root: a word read goes in as
    a branch and as a leaf. *)
Theorem forest_leaves_are_branches :
  forall f,
    Forall (fun root => Forall (fun e => incl (snd e) (branchIds root)) root) (forest f).
Proof.
  intros f. destruct (forest_build f) as [d E]. apply build_sound in E.
  unfold sound in E. eapply Forall_impl; [|exact E]. cbn beta. intros root Hroot.
  eapply Forall_impl; [|exact Hroot]. cbn beta. tauto.
Qed.

(** ** The forest of a corpus of three tokens or more *)

(** One turn of the read loop on a word the dictionary knows. *)
Lemma load_step_seedTree d twoBack oneBack in_ word sw rest :
  injective d ->
  Dictionary.find d twoBack = Some 0 ->
  known d oneBack ->
  Forall (known d) sw ->
  known d (snd (Istream.extract in_ word)) ->
  load_step in_ word twoBack oneBack (seedTree d oneBack sw :: rest) d
  = Some (fst (Istream.extract in_ word), snd (Istream.extract in_ word),
          seedTree d oneBack (distinctFrom sw [snd (Istream.extract in_ word)]) :: rest, d).
Proof.
  intros Hinj Htwo Hone Hsw Hw. unfold load_step.
  destruct (Istream.extract in_ word) as [in1 word1]. cbn [fst snd] in *.
  rewrite (DictionaryFacts.index_found _ _ _ Htwo).
  rewrite (DictionaryFacts.index_found _ _ _ (known_find _ _ Hw)).
  rewrite (DictionaryFacts.index_found _ _ _ (known_find _ _ Hone)).
  cbn [at_ N.eqb].
  set (o := idOf d oneBack). set (w := idOf d word1).
  set (more := map (fun x => (idOf d x, @nil N)) (filter (fun x => negb (String.eqb x oneBack)) sw)).
  assert (Hleaf : In w (map (idOf d) sw) <-> In word1 sw).
  { rewrite in_map_iff. split.
    - intros (x & Ex & Hx). rewrite Forall_forall in Hsw.
      now rewrite <- (idOf_inj d x word1 Hinj (Hsw x Hx) Hw Ex).
    - intros H. now exists word1. }
  assert (Hbranch : In w (branchIds (seedTree d oneBack sw))
                    <-> word1 = oneBack \/ In word1 sw).
  { unfold seedTree, branchIds. cbn [map fst In]. rewrite map_map. cbn [fst].
    fold o. rewrite in_map_iff. split.
    - intros [E|(x & Ex & Hx)].
      + left. symmetry. now apply (idOf_inj d oneBack word1 Hinj Hone Hw).
      + apply filter_In in Hx as [Hx _]. right. rewrite Forall_forall in Hsw.
        now rewrite <- (idOf_inj d x word1 Hinj (Hsw x Hx) Hw Ex).
    - intros [->|H]; [now left|].
      destruct (String.eqb_spec word1 oneBack) as [->|Hne]; [now left|].
      right. exists word1. split; [reflexivity|]. apply filter_In. split; [assumption|].
      apply negb_true_iff. now apply String.eqb_neq. }
  cbn [distinctFrom].
  destruct (existsb (String.eqb word1) sw) eqn:Eex.
  - apply existsb_eqb_In in Eex.
    assert (Hc : doesNotContain (seedTree d oneBack sw) w = false).
    { apply doesNotContain_false, Hbranch. now right. }
    rewrite Hc. unfold seedTree at 1 2. fold o more.
    cbn [seekBranch fst]. rewrite N.eqb_refl. cbn [at_ N.eqb snd fst].
    destruct (seekLeaf_found w (map (idOf d) sw) 0 (proj2 Hleaf Eex)) as (Hlt & _ & _).
    destruct (N.eqb_spec (seekLeaf (map (idOf d) sw) w 0) (size (map (idOf d) sw))) as [E|_];
      [lia|].
    cbn [assign N.eqb]. reflexivity.
  - assert (Hnin : ~ In word1 sw) by (rewrite <- existsb_eqb_In; congruence).
    assert (Hk : seekLeaf (map (idOf d) sw) w 0 = size (map (idOf d) sw)).
    { rewrite seekLeaf_absent; [lia|]. now rewrite Hleaf. }
    assert (Hnew : seedTree d oneBack (sw ++ [word1])
                   = (o, map (idOf d) sw ++ [w])
                     :: more ++ (if negb (String.eqb word1 oneBack) then [(w, [])] else [])).
    { unfold seedTree. rewrite filter_app, !map_app. cbn [filter map].
      now destruct (negb (String.eqb word1 oneBack)). }
    rewrite Hnew. clear Hnew.
    destruct (String.eqb_spec word1 oneBack) as [->|Hne]; cbn [negb].
    + assert (Hc : doesNotContain (seedTree d oneBack sw) w = false).
      { apply doesNotContain_false, Hbranch. now left. }
      rewrite Hc. unfold seedTree. fold o more.
      cbn [seekBranch fst]. rewrite N.eqb_refl. cbn [at_ N.eqb snd fst].
      rewrite Hk, N.eqb_refl. cbn [assign N.eqb]. now rewrite app_nil_r.
    + assert (Hc : doesNotContain (seedTree d oneBack sw) w = true).
      { apply doesNotContain_true. rewrite Hbranch. tauto. }
      rewrite Hc. unfold seedTree. fold o more.
      cbn [app seekBranch fst]. rewrite N.eqb_refl. cbn [at_ N.eqb snd fst].
      rewrite Hk, N.eqb_refl. cbn [assign N.eqb]. reflexivity.
Qed.

(** The read loop on a stream whose words the dictionary knows; when
    white space follows the last token, the last word is read once
    more, and changes nothing.  With no token pending it is [word] that
    is read. *)
Lemma load_loop_seedTree d twoBack oneBack tr rest :
  injective d ->
  Dictionary.find d twoBack = Some 0 ->
  known d oneBack ->
  forall ws fuel word sw,
    (length ws < fuel)%nat ->
    Forall (known d) ws ->
    (ws = [] -> known d word) ->
    Forall (known d) sw ->
    load_loop fuel {| Istream.pending := ws; Istream.trail := tr; Istream.eofbit := false |}
      word twoBack oneBack (seedTree d oneBack sw :: rest) d
    = Some (seedTree d oneBack
              (distinctFrom sw (match ws with [] => [word] | _ :: _ => ws end)) :: rest, d).
Proof.
  intros Hinj Htwo Hone.
  induction ws as [|w ws IH]; intros fuel word sw Hfuel Hws Hword Hsw;
    (destruct fuel as [|fuel]; [cbn in Hfuel; lia|]); cbn [load_loop Istream.eof Istream.eofbit].
  - rewrite (load_step_seedTree d twoBack oneBack _ word sw rest Hinj Htwo Hone Hsw);
      [|now apply Hword].
    cbn [Istream.extract Istream.eofbit Istream.pending Istream.trail fst snd].
    destruct fuel; reflexivity.
  - apply Forall_cons_iff in Hws as [Hw Hws].
    rewrite (load_step_seedTree d twoBack oneBack _ word sw rest Hinj Htwo Hone Hsw);
      [|assumption].
    cbn [Istream.extract Istream.eofbit Istream.pending Istream.trail fst snd].
    assert (Hsw1 : Forall (known d) (distinctFrom sw [w])).
    { apply distinctFrom_known; [assumption|]. now constructor. }
    destruct ws as [|w' ws].
    + destruct tr; cbn [negb].
      * rewrite IH; [|cbn in *; lia|constructor|intros _; assumption|assumption].
        rewrite (distinctFrom_absorb (distinctFrom sw [w]) w); [reflexivity|].
        apply distinctFrom_In. right. now left.
      * destruct fuel; reflexivity.
    + rewrite IH; [|cbn in *; lia|assumption|discriminate|assumption].
      reflexivity.
Qed.

(** The forest of a corpus of three tokens or more: the tree of the
    first token is the seed tree of the words from the third on, the
    other trees are empty, and the dictionary is the vocabulary. *)
Lemma build_seedTree a b c rest tr :
  let ws := a :: b :: c :: rest in
  build (Istream.File ws tr)
  = Some (seedTree (vocabulary ws) b (distinct (c :: rest))
            :: repeat [] (length (vocabulary ws) - 1), vocabulary ws).
Proof.
  cbv zeta. unfold build. rewrite loadDictionary_spec.
  cbn [Istream.tokens Istream.open Istream.extract Istream.pending Istream.trail
       Istream.eofbit Istream.trailing].
  set (ws := a :: b :: c :: rest). set (d := vocabulary ws).
  assert (Hen : enumerates d (distinct ws)) by apply vocabulary_cons_enumerates.
  assert (Hinj : injective d) by exact (enumerates_injective _ _ Hen).
  assert (Hknown : Forall (known d) ws).
  { apply Forall_forall. intros x Hx. now apply vocabulary_known. }
  assert (Ha : Dictionary.find d a = Some 0) by apply vocabulary_first.
  assert (Hb : known d b).
  { rewrite Forall_forall in Hknown. apply Hknown. right. now left. }
  rewrite (DictionaryFacts.index_found _ _ _ (known_find _ _ Hb)).
  rewrite (DictionaryFacts.index_found _ _ _ Ha).
  destruct (vocabulary_length a (b :: c :: rest)) as [k Hk]. fold ws d in Hk.
  rewrite Hk. cbn [repeat at_ N.eqb assign app]. 
  replace (S k - 1)%nat with k by lia.
  change ([(idOf d b, [])]) with (seedTree d b []).
  rewrite (load_loop_seedTree d a b tr (repeat [] k) Hinj Ha Hb (c :: rest)).
  - reflexivity.
  - cbn [length]. lia.
  - apply Forall_cons_iff in Hknown as [_ Hknown].
    now apply Forall_cons_iff in Hknown as [_ Hknown].
  - discriminate.
  - constructor.
Qed.

(** The forest and the reverse dictionary of a corpus of three tokens
    or more. *)
Lemma load_seedTree a b c rest tr :
  let ws := a :: b :: c :: rest in
  load (Istream.File ws tr)
  = Some (seedTree (vocabulary ws) b (distinct (c :: rest))
            :: repeat [] (length (vocabulary ws) - 1),
          reverseEntries (vocabulary ws) []).
Proof. cbv zeta. unfold load. now rewrite build_seedTree. Qed.

Lemma seedTree_ids n d oneBack sw :
  0 < n -> bounded n d -> Forall (fun e => fst e < n) (seedTree d oneBack sw).
Proof.
  intros Hn Hb. unfold seedTree. constructor; [now apply idOf_bounded|].
  apply Forall_forall. intros e He. apply in_map_iff in He as (x & <- & _).
  now apply idOf_bounded.
Qed.

Lemma seedTree_leafCount d oneBack sw : leafCount (seedTree d oneBack sw) = size sw.
Proof.
  unfold seedTree. cbn [leafCount snd].
  assert (H : forall l : list string, leafCount (map (fun w => (idOf d w, [])) l) = 0).
  { induction l as [|x l IH]; [reflexivity|]. cbn [map leafCount snd]. now rewrite IH. }
  rewrite H. unfold size. rewrite length_map. lia.
Qed.

Lemma seedTree_size d oneBack sw : size (seedTree d oneBack sw) <= size sw + 1.
Proof.
  unfold seedTree. sizes. unfold size. rewrite length_map.
  pose proof (filter_length_le (fun w => negb (String.eqb w oneBack)) sw). lia.
Qed.

(** Two distinct words: one of them is not [oneBack], and has its
    entry without leaves. *)
Lemma seedTree_second d oneBack x y sw :
  x <> y ->
  exists w2 more,
    seedTree d oneBack (x :: y :: sw)
    = (idOf d oneBack, map (idOf d) (x :: y :: sw)) :: (w2, []) :: more.
Proof.
  intros Hxy. unfold seedTree. cbn [filter].
  destruct (String.eqb_spec x oneBack) as [Ex|Ex]; cbn [negb].
  - destruct (String.eqb_spec y oneBack) as [Ey|Ey]; cbn [negb map]; [congruence|].
    eexists _, _. reflexivity.
  - cbn [map]. eexists _, _. reflexivity.
Qed.

Lemma seedTree_leaf_entry d oneBack sw e l :
  In e (seedTree d oneBack sw) -> In l (snd e) -> fst e = idOf d oneBack.
Proof.
  unfold seedTree. intros [<-|He] Hl; [reflexivity|].
  apply in_map_iff in He as (w & <- & _). contradiction.
Qed.

Lemma loaded_size (d : Dictionary.t) (root : top) :
  (0 < length d)%nat -> size (root :: repeat [] (length d - 1)) = size d.
Proof. intros H. unfold size. cbn [length]. rewrite repeat_length. lia. Qed.

(** X14 ([load]).  The forest of a corpus of three tokens or more: the
    tree of the first token has the entry of the second token, whose
    leaves are the distinct words from the third token on in the order
    of first occurrence, and then one entry without leaves for each of
    these words but the second token; every other tree is empty, and
    the dictionary is the one of [loadDictionary]. *)
Theorem forest_of_three_tokens :
  forall a b c rest tr,
    exists d,
      loadDictionary (Istream.File (a :: b :: c :: rest) tr) [] = Some d /\
      build (Istream.File (a :: b :: c :: rest) tr)
      = Some (((idOf d b, map (idOf d) (distinct (c :: rest)))
               :: map (fun w => (idOf d w, []))
                    (filter (fun w => negb (String.eqb w b)) (distinct (c :: rest))))
              :: repeat [] (length d - 1), d) /\
      Dictionary.find d a = Some 0.
Proof.
  intros a b c rest tr. exists (vocabulary (a :: b :: c :: rest)).
  split; [apply loadDictionary_spec|]. split; [apply build_seedTree|].
  apply vocabulary_first.
Qed.

(** ** The reverse dictionary, both ways *)

Lemma reverse_find_app r k w k' :
  Reverse.find (r ++ [(k, w)]) k'
  = match Reverse.find r k' with
    | Some x => Some x
    | None => if k =? k' then Some w else None
    end.
Proof.
  induction r as [|[k0 w0] r IH]; cbn; [reflexivity|].
  destruct (k0 =? k'); [reflexivity|apply IH].
Qed.

Lemma reverse_find_insert r k w k' :
  Reverse.find (Reverse.insert r k w) k'
  = match Reverse.find r k' with
    | Some x => Some x
    | None => if k =? k' then Some w else None
    end.
Proof.
  unfold Reverse.insert. destruct (Reverse.find r k) as [x|] eqn:E.
  - destruct (Reverse.find r k') as [y|] eqn:E'; [reflexivity|].
    destruct (N.eqb_spec k k') as [->|_]; [congruence|reflexivity].
  - apply reverse_find_app.
Qed.

(** An id resolves to the first word, in the order of the dictionary,
    that has it. *)
Lemma reverseEntries_find d k : forall r,
  Reverse.find (reverseEntries d r) k
  = match Reverse.find r k with
    | Some w => Some w
    | None => option_map fst (List.find (fun e => snd e =? k) d)
    end.
Proof.
  induction d as [|e d IH]; intros r; cbn [reverseEntries fold_left List.find].
  - now destruct (Reverse.find r k).
  - fold (reverseEntries d (Reverse.insert r (snd e) (fst e))).
    rewrite IH, reverse_find_insert.
    destruct (Reverse.find r k) as [x|]; [reflexivity|].
    destruct (snd e =? k); reflexivity.
Qed.

Lemma find_In_entry d w i : Dictionary.find d w = Some i -> In (w, i) d.
Proof.
  induction d as [|[k v] d IH]; cbn; [discriminate|].
  destruct (String.eqb_spec k w) as [->|_].
  - intros [= ->]. now left.
  - intros H. right. now apply IH.
Qed.

Lemma find_of_entry d w i :
  NoDup (map fst d) -> In (w, i) d -> Dictionary.find d w = Some i.
Proof.
  induction d as [|[k v] d IH]; cbn [map fst In Dictionary.find]; [contradiction|].
  intros Hnd [E|Hin].
  - injection E as -> ->. now rewrite String.eqb_refl.
  - inversion Hnd as [|? ? Hk Hnd']. subst.
    destruct (String.eqb_spec k w) as [->|_]; [|now apply IH].
    exfalso. apply Hk. apply in_map_iff. now exists (w, i).
Qed.

(** The words of a dictionary with distinct keys and distinct ids are
    found back from their ids. *)
Lemma reverseEntries_inverts d w i :
  NoDup (map fst d) -> injective d ->
  Dictionary.find d w = Some i ->
  Reverse.index (reverseEntries d []) i = w.
Proof.
  intros Hkeys Hinj Hw. unfold Reverse.index. rewrite reverseEntries_find. cbn [Reverse.find].
  destruct (List.find (fun e => snd e =? i) d) as [[w' i']|] eqn:E; cbn [option_map fst].
  - apply find_some in E as [Hin Hi]. cbn [snd] in Hi. apply N.eqb_eq in Hi. subst i'.
    apply (find_of_entry _ _ _ Hkeys) in Hin. exact (Hinj _ _ _ Hin Hw).
  - exfalso. apply find_In_entry in Hw.
    pose proof (find_none _ _ E _ Hw) as H. cbn [snd] in H. now rewrite N.eqb_refl in H.
Qed.

(** X15 ([reverseEntries]).  In the reverse dictionary made from [d] an
    id resolves to the first word, in the key order of [d], that has
    it, and an id that no word has resolves to the empty string.  When
    no two words of [d] have the same id, every word is found back
    from its id. *)
Theorem reverseEntries_first_word_wins :
  forall d,
    (forall k,
        Reverse.find (reverseEntries d []) k
        = option_map fst (List.find (fun e => snd e =? k) d)) /\
    (forall k, ~ In k (map snd d) -> Reverse.index (reverseEntries d []) k = EmptyString) /\
    (NoDup (map fst d) -> injective d ->
     forall w i, Dictionary.find d w = Some i -> Reverse.index (reverseEntries d []) i = w).
Proof.
  intros d. split; [|split].
  - intros k. now rewrite reverseEntries_find.
  - intros k Hk. unfold Reverse.index. rewrite reverseEntries_find. cbn [Reverse.find].
    destruct (List.find (fun e => snd e =? k) d) as [e|] eqn:E; [|reflexivity].
    exfalso. apply find_some in E as [Hin He]. apply N.eqb_eq in He.
    apply Hk. apply in_map_iff. now exists e.
  - intros Hkeys Hinj w i. now apply reverseEntries_inverts.
Qed.

(** X15 on a dictionary in which two words have the id 1, and on a vocabulary. *)
Lemma reverseEntries_first_word_wins_witness :
  reverseEntries [("a", 1); ("b", 0); ("c", 1)]%string [] = [(1, "a"); (0, "b")]%string /\
  Reverse.index (reverseEntries [("a", 1); ("b", 0); ("c", 1)]%string []) 2 = EmptyString /\
  vocabulary ["b"; "a"; "c"]%string = [("a", 1); ("b", 0); ("c", 2)]%string /\
  Reverse.index (reverseEntries (vocabulary ["b"; "a"; "c"]%string) []) 2 = "c"%string.
Proof.
  split; [reflexivity|]. split; [|split; [reflexivity|]].
  - refine (proj1 (proj2 (reverseEntries_first_word_wins
                            [("a", 1); ("b", 0); ("c", 1)]%string)) 2 _).
    cbn. intros [H|[H|[H|[]]]]; discriminate.
  - exact (proj2 (proj2 (reverseEntries_first_word_wins (vocabulary ["b"; "a"; "c"]%string)))
             (vocabulary_keys _)
             (enumerates_injective _ _ (vocabulary_cons_enumerates _ _))
             "c"%string 2 eq_refl).
Defined.

(** X16 ([load], [reverseEntries]).  For a corpus of three tokens or
    more, [load] hands back a reverse dictionary in which the id of
    every token of the file resolves to that token. *)
Theorem loaded_ids_resolve_to_tokens :
  forall a b c rest tr w,
    In w (a :: b :: c :: rest) ->
    exists trees d reverseDictionary i,
      build (Istream.File (a :: b :: c :: rest) tr) = Some (trees, d) /\
      load (Istream.File (a :: b :: c :: rest) tr) = Some (trees, reverseDictionary) /\
      Dictionary.find d w = Some i /\
      Reverse.index reverseDictionary i = w.
Proof.
  intros a b c rest tr w Hin.
  pose proof (build_seedTree a b c rest tr) as Hb. cbv zeta in Hb.
  pose proof (load_seedTree a b c rest tr) as Hl. cbv zeta in Hl.
  set (d := vocabulary (a :: b :: c :: rest)) in *.
  pose proof (vocabulary_cons_enumerates a (b :: c :: rest)) as Hen. fold d in Hen.
  pose proof (known_find d w (vocabulary_known a (b :: c :: rest) w Hin)) as Hw.
  eexists _, d, _, (idOf d w). split; [exact Hb|]. split; [exact Hl|]. split; [exact Hw|].
  apply reverseEntries_inverts; [apply vocabulary_keys| |exact Hw].
  exact (enumerates_injective _ _ Hen).
Qed.

(** X16 on a file of four tokens that ends with a newline. *)
Lemma loaded_ids_resolve_to_tokens_witness :
  In "c"%string ["a"; "b"; "c"; "a"]%string /\
  exists trees d reverseDictionary i,
    build (Istream.File ["a"; "b"; "c"; "a"]%string true) = Some (trees, d) /\
    load (Istream.File ["a"; "b"; "c"; "a"]%string true) = Some (trees, reverseDictionary) /\
    Dictionary.find d "c"%string = Some i /\
    Reverse.index reverseDictionary i = "c"%string.
Proof.
  assert (H : In "c"%string ["a"; "b"; "c"; "a"]%string) by (cbn; auto).
  split; [exact H|].
  exact (loaded_ids_resolve_to_tokens "a" "b" "c" ["a"%string] true "c" H).
Defined.

(** ** The search on a loaded forest *)

Lemma planted_at twoBack oneBack o k (trees : tops) d i (root : top) :
  planted twoBack oneBack o k trees d -> at_ trees i = Some root -> root <> [] -> i = 0.
Proof.
  intros (_ & _ & leaves & more & ->) Hat Hne.
  destruct (N.eqb_spec i 0) as [E|E]; [assumption|].
  cbn [at_] in Hat. apply N.eqb_neq in E. rewrite E in Hat.
  apply at_repeat_nil in Hat. contradiction.
Qed.

(** A turn of [main] whose call of [getNextFrame] returns, returns: the
    trees of the frame's slots 1 and 3 exist, and the matcher cannot
    fail. *)
Lemma turn_getNextFrame trees current root frame mc sc rb f1 mc' sc' rb' :
  getNextFrame current root frame mc sc rb = Some (f1, mc', sc', rb') ->
  Forall (fun e => fst e < size trees) root ->
  reserved frame ->
  exists t frame',
    turn trees current root frame mc sc rb
    = (Visit mc' sc' :: t, Some (frame', mc', sc', true)) /\
    visited t = [] /\ reserved frame' /\
    emitted t = map (store f1)
                  (filter (matching (match at_ trees (slot f1 3) with
                                     | Some rootD => rootD | None => [] end))
                     (branchIds (match at_ trees (slot f1 1) with
                                 | Some rootB => rootB | None => [] end))).
Proof.
  intros Hf1 Hids Hres.
  pose proof (getNextFrame_spec _ _ _ _ _ _ _ _ _ _ Hf1)
    as (_ & -> & Hsz1 & b & c & d & g & Hb & Hc & Hd & Hg & Hat).
  assert (Hres1 : reserved f1).
  { destruct Hres as (Hs & H5 & H7 & H8). unfold reserved.
    rewrite Hsz1, !Hat. cbn. auto. }
  unfold turn. rewrite Hf1, bind_lift_Some, bind_emit.
  assert (H1 : at_ f1 1 = Some (fst b)) by (rewrite Hat; reflexivity).
  assert (H3 : at_ f1 3 = Some (fst d)) by (rewrite Hat; reflexivity).
  unfold slot. rewrite H1, H3, bind_lift_Some.
  rewrite Forall_forall in Hids.
  destruct (at_Some trees (fst b)) as [rootB HrootB]; [apply Hids, (at_In _ _ _ Hb)|].
  destruct (at_Some trees (fst d)) as [rootD HrootD]; [apply Hids, (at_In _ _ _ Hd)|].
  rewrite HrootB, !bind_lift_Some, !HrootD, ?bind_lift_Some.
  cbv zeta. rewrite matchLoop_start by (destruct Hres1 as [-> _]; reflexivity).
  rewrite bind_pair. cbn [fst snd ret]. rewrite populateChildrenForE_spec. cbn [app].
  eexists _, _. split; [reflexivity|]. split; [|split].
  - rewrite visited_app, <- (map_map (store f1) Emit), visited_emits. reflexivity.
  - now apply fold_store_reserved.
  - rewrite emitted_app, app_nil_r.
    induction (filter (matching rootD) (branchIds rootB)) as [|x l IH]; [reflexivity|].
    cbn [map emitted flat_map app]. f_equal. exact IH.
Qed.

(** A turn whose call of [getNextFrame] reads out of range stops there. *)
Lemma turn_stops trees current root frame mc sc rb :
  getNextFrame current root frame mc sc rb = None ->
  turn trees current root frame mc sc rb = ([], None).
Proof. intros H. unfold turn. rewrite H. reflexivity. Qed.

Lemma posLoop_stops trees current root n m frame mc sc rb t :
  posLoop n trees current root frame mc sc rb = (t, None) ->
  posLoop (n + m) trees current root frame mc sc rb = (t, None).
Proof. intros H. rewrite posLoop_plus, H. reflexivity. Qed.

Lemma bind_fst {A B : Type} (m : run A) (k : A -> run B) :
  exists t, fst (bind m k) = fst m ++ t.
Proof.
  destruct m as [t [a|]]; cbn [bind fst].
  - destruct (k a) as [t' r]. now exists t'.
  - exists []. now rewrite app_nil_r.
Qed.

(** The first turn of the search of a root. *)
Lemma searchRoot_first_turn (trees : tops) current (root : top) frame f1 mc' sc' rb' :
  at_ trees current = Some root ->
  0 < maximum root ->
  getNextFrame current root frame (0, 0) (0, 0) false = Some (f1, mc', sc', rb') ->
  Forall (fun e => fst e < size trees) root ->
  reserved frame ->
  exists t1 rest,
    fst (searchRoot trees current frame)
    = Root current :: Visit (0, 0) (0, 0) :: t1 ++ rest /\
    emitted t1
    = map (store f1)
        (filter (matching (match at_ trees (slot f1 3) with
                           | Some rootD => rootD | None => [] end))
           (branchIds (match at_ trees (slot f1 1) with
                       | Some rootB => rootB | None => [] end))).
Proof.
  intros Hroot Hmax Hf1 Hids Hres.
  pose proof (getNextFrame_spec _ _ _ _ _ _ _ _ _ _ Hf1) as (Hit & _).
  injection Hit as <- <-.
  destruct (turn_getNextFrame trees current root frame _ _ _ _ _ _ _ Hf1 Hids Hres)
    as (t1 & f2 & Hturn & _ & _ & Hem).
  unfold searchRoot. rewrite Hroot, bind_lift_Some. cbv zeta. rewrite bind_emit.
  destruct (N.to_nat (maximum root)) as [|m] eqn:Em; [lia|].
  cbn [posLoop]. rewrite Hturn, bind_pair. cbn [fst].
  match goal with
  | |- context [fst (bind ?m ?k)] => destruct (bind_fst m k) as [t' Ht']; rewrite Ht'
  end.
  cbn [fst]. exists t1, (fst (posLoop m trees current root f2 (0, 0) (0, 0) true) ++ t').
  split; [|exact Hem]. cbn [app]. now rewrite <- !app_assoc.
Qed.

Lemma reserved_blank : reserved (repeat sentinel 9).
Proof. repeat split. Qed.

Lemma search_first_stops trees root todo t :
  trees = root :: todo ->
  searchRoot trees 0 (repeat sentinel 9) = (t, None) ->
  search trees = (Line "begin search phase" :: t, None).
Proof.
  intros -> H. unfold search. rewrite bind_emit. cbn [rootLoop]. now rewrite H.
Qed.

Lemma search_first_returns (trees : tops) (root : top) todo t frame' :
  trees = root :: todo ->
  leafless todo ->
  searchRoot trees 0 (repeat sentinel 9) = (t, Some frame') ->
  search trees = (Line "begin search phase" :: t ++ rootLines todo 1, Some frame').
Proof.
  intros -> Hl H. unfold search. rewrite bind_emit. cbn [rootLoop].
  rewrite H, bind_pair.
  pose proof (rootLoop_leafless frame' todo [root] Hl) as Hr.
  change ([root] ++ todo) with (root :: todo) in Hr.
  change (size [root]) with 1 in Hr. change (0 + 1) with 1.
  rewrite Hr. reflexivity.
Qed.

(** The search of a root with one leaf, under its first entry: one
    turn. *)
Lemma searchRoot_single (trees : tops) current (root : top) o l more frame :
  at_ trees current = Some root ->
  root = (o, [l]) :: more ->
  leafCount root = 1 ->
  Forall (fun e => fst e < size trees) root ->
  reserved frame ->
  exists t frame',
    searchRoot trees current frame
    = (Root current :: Visit (0, 0) (0, 0) :: t, Some frame') /\
    visited t = [] /\ reserved frame'.
Proof.
  intros Hroot Hshape Hlc Hids Hres.
  assert (Hmax : maximum root = 1) by (rewrite maximum_exact; rewrite Hlc; reflexivity).
  destruct (getNextFrame_Some current root frame (0, 0) (0, 0) false (0, 0) (0, 0)
              (o, [l]) l (o, [l]) l eq_refl) as [f1 Hf1];
    try (rewrite ?Hshape; reflexivity).
  { destruct Hres as [-> _]. reflexivity. }
  destruct (turn_getNextFrame trees current root frame _ _ _ _ _ _ _ Hf1 Hids Hres)
    as (t1 & f2 & Hturn & Hv1 & Hres2 & _).
  exists t1, f2. split; [|split; assumption].
  unfold searchRoot. rewrite Hroot, bind_lift_Some. cbv zeta. rewrite bind_emit, Hmax.
  change (N.to_nat 1) with 1%nat. cbn [posLoop]. rewrite Hturn, bind_pair.
  cbn [fst snd ret bind]. now rewrite !app_nil_r.
Qed.

(** A root whose second branch entry has no leaf. *)

Section LeaflessSecond.

Variable trees : tops.
Variable current : N.
Variable o w2 : N.
Variable leaves : intVector.
Variable more : top.

Local Abbreviation root := ((o, leaves) :: (w2, []) :: more : top).

Hypothesis Hleaves : 0 < size leaves.
Hypothesis Hcount : size leaves < 2 ^ 32.
Hypothesis Hsize : size root < 2 ^ 64.
Hypothesis Hids : Forall (fun e => fst e < size trees) root.

Lemma sweep_not_at_end k : sweepAtEnd root (0, k) = Some false.
Proof.
  unfold sweepAtEnd. cbn [fst].
  assert (H : 2 <= size root) by (sizes; lia).
  rewrite pred_size_pos by lia.
  destruct (N.eqb_spec 0 (size root - 1)) as [E|_]; [lia|reflexivity].
Qed.

Lemma iterate_first_branch k :
  k + 1 < size leaves ->
  iterateCoordinates root (0, 0) (0, k) = Some ((0, 0), (0, k + 1)).
Proof.
  intros Hk. unfold iterateCoordinates. rewrite sweep_not_at_end.
  unfold advance. cbn [fst snd at_ N.eqb].
  rewrite pred_size_pos by lia.
  destruct (N.eqb_spec k (size leaves - 1)) as [E|_]; [lia|].
  now rewrite u32_small by lia.
Qed.

Lemma iterate_off_first_branch k :
  k + 1 = size leaves ->
  iterateCoordinates root (0, 0) (0, k) = Some ((0, 0), (1, 0)).
Proof.
  intros Hk. unfold iterateCoordinates. rewrite sweep_not_at_end.
  unfold advance. cbn [fst snd at_ N.eqb].
  rewrite pred_size_pos by lia.
  destruct (N.eqb_spec k (size leaves - 1)) as [_|E]; [reflexivity|lia].
Qed.

(** Past the last leaf of the first entry, [getNextFrame] reads the
    first leaf of the second. *)
Lemma getNextFrame_off_first_branch frame k :
  k + 1 = size leaves ->
  getNextFrame current root frame (0, 0) (0, k) true = None.
Proof.
  intros Hk. unfold getNextFrame. rewrite (iterate_off_first_branch k Hk).
  cbn [fst snd].
  change (at_ root 0) with (Some (o, leaves)).
  change (at_ root 1) with (Some (w2, @nil N)).
  cbn [fst snd at_].
  destruct (assign frame 0 current) as [f0|]; [|reflexivity].
  destruct (assign f0 1 o) as [f1|]; [|reflexivity].
  destruct (at_ leaves 0) as [c|]; [|reflexivity].
  destruct (assign f1 2 c) as [f2|]; [|reflexivity].
  destruct (assign f2 3 w2) as [f3|]; reflexivity.
Qed.

Lemma posLoop_first_branch : forall n k frame,
  k + N.of_nat n + 1 = size leaves ->
  reserved frame ->
  exists t,
    posLoop (S n) trees current root frame (0, 0) (0, k) true = (t, None) /\
    visited t = map (fun j => ((0, 0), (0, k + 1 + N.of_nat j))) (seq 0 n).
Proof.
  induction n as [|n IH]; intros k frame Hk Hres.
  - cbn [posLoop]. rewrite turn_stops.
    + exists []. split; reflexivity.
    + apply getNextFrame_off_first_branch. lia.
  - assert (Hit : iterateCoordinates root (0, 0) (0, k) = Some ((0, 0), (0, k + 1))).
    { apply iterate_first_branch. lia. }
    destruct (at_Some leaves 0 Hleaves) as [c Hc].
    destruct (at_Some leaves (k + 1)) as [g Hg]; [lia|].
    destruct (getNextFrame_Some current root frame (0, 0) (0, k) true (0, 0) (0, k + 1)
                (o, leaves) c (o, leaves) g Hit) as [f1 Hf1]; try assumption;
      try reflexivity.
    { destruct Hres as [-> _]. reflexivity. }
    destruct (turn_getNextFrame trees current root frame _ _ _ _ _ _ _ Hf1 Hids Hres)
      as (t1 & f2 & Hturn & Hv1 & Hres2 & _).
    destruct (IH (k + 1) f2) as (t2 & Hrest & Hv2); [lia|assumption|].
    exists (Visit (0, 0) (0, k + 1) :: t1 ++ t2). split.
    + change (posLoop (S (S n)) trees current root frame (0, 0) (0, k) true)
        with (bind (turn trees current root frame (0, 0) (0, k) true)
                (fun st => match st with
                           | (frame', mc', sc', rb') =>
                               posLoop (S n) trees current root frame' mc' sc' rb'
                           end)).
      rewrite Hturn, bind_pair, Hrest. reflexivity.
    + cbn [visited flat_map app]. fold (visited (t1 ++ t2)).
      rewrite visited_app, Hv1, Hv2. cbn [app seq map].
      rewrite N.add_0_r. f_equal. rewrite <- seq_shift, map_map.
      apply map_ext. intros j. f_equal. f_equal. lia.
Qed.

(** The search of such a root with two leaves or more stops on a read
    out of range, after the pairs of the first coordinate with the
    leaves of the first entry. *)
Lemma searchRoot_leafless_second frame :
  at_ trees current = Some root ->
  2 <= size leaves ->
  leafCount root < 65536 ->
  reserved frame ->
  exists t,
    searchRoot trees current frame = (Root current :: t, None) /\
    visited t = map (fun j => ((0, 0), (0, N.of_nat j))) (seq 0 (length leaves)).
Proof.
  intros Hroot H2 Hsmall Hres.
  assert (Hlc : size leaves <= leafCount root).
  { cbn [leafCount snd]. lia. }
  assert (Hmax : exists m, N.to_nat (maximum root) = (S (length leaves) + m)%nat).
  { rewrite (maximum_exact root Hsmall).
    exists (N.to_nat (leafCount root * (leafCount root + 1) / 2) - S (length leaves))%nat.
    assert (size leaves + 1 <= leafCount root * (leafCount root + 1) / 2).
    { apply N.div_le_lower_bound; [discriminate|]. nia. }
    unfold size in *. lia. }
  destruct Hmax as [m Hm].
  destruct (at_Some leaves 0 Hleaves) as [c Hc].
  destruct (getNextFrame_Some current root frame (0, 0) (0, 0) false (0, 0) (0, 0)
              (o, leaves) c (o, leaves) c eq_refl) as [f1 Hf1]; try assumption;
    try reflexivity.
  { destruct Hres as [-> _]. reflexivity. }
  destruct (turn_getNextFrame trees current root frame _ _ _ _ _ _ _ Hf1 Hids Hres)
    as (t1 & f2 & Hturn & Hv1 & Hres2 & _).
  destruct (length leaves) as [|n] eqn:En; [unfold size in Hleaves; rewrite En in Hleaves; lia|].
  destruct (posLoop_first_branch n 0 f2) as (t2 & Hrest & Hv2);
    [unfold size; rewrite En; lia|assumption|].
  exists (Visit (0, 0) (0, 0) :: t1 ++ t2). split.
  - unfold searchRoot. rewrite Hroot, bind_lift_Some. cbv zeta. rewrite bind_emit.
    rewrite Hm.
    change (S (S n) + m)%nat with (S (S n + m)).
    change (posLoop (S (S n + m)) trees current root frame (0, 0) (0, 0) false)
      with (bind (turn trees current root frame (0, 0) (0, 0) false)
              (fun st => match st with
                         | (frame', mc', sc', rb') =>
                             posLoop (S n + m) trees current root frame' mc' sc' rb'
                         end)).
    rewrite Hturn, bind_pair. rewrite (posLoop_stops _ _ _ _ _ _ _ _ _ _ Hrest).
    reflexivity.
  - cbn [visited flat_map app]. fold (visited (t1 ++ t2)).
    rewrite visited_app, Hv1, Hv2. cbn [app seq map]. f_equal.
    rewrite <- seq_shift, map_map. apply map_ext. intros j. f_equal. f_equal. lia.
Qed.

End LeaflessSecond.

(** ** The whole run *)

(** X17 ([main], [load]).  Whatever the file, every frame that [main]
    prints has the id 0, the id of the first token, in its slots 0, 1
    and 3: the tree of the first token is the only tree with entries,
    so that no other root, and no other branch of it, has a match. *)
Theorem emitted_frames_start_at_first_token :
  forall f,
    Forall (fun frame => slot frame 0 = 0 /\ slot frame 1 = 0 /\ slot frame 3 = 0)
      (emitted (fst (snd (main f)))).
Proof.
  intros f. rewrite main_emitted.
  pose proof (search_emitted (forest f)) as Hwf.
  destruct (build_planted f) as (trees & d & o & k & E & Hpl & _).
  assert (Hf : forest f = trees) by (unfold forest, load; now rewrite E).
  rewrite Hf in *.
  eapply Forall_impl; [|exact Hwf]. cbn beta.
  intros frame ((root & Hroot & H1 & _) & (rootB & rootD & HB & HD & H4B & H4D) & _).
  assert (Hne : forall (r : top) x, In x (branchIds r) -> r <> []).
  { intros r x Hx ->. contradiction. }
  split; [|split].
  - exact (planted_at _ _ _ _ _ _ _ _ Hpl Hroot (Hne _ _ H1)).
  - exact (planted_at _ _ _ _ _ _ _ _ Hpl HB (Hne _ _ H4B)).
  - exact (planted_at _ _ _ _ _ _ _ _ Hpl HD (Hne _ _ H4D)).
Qed.

(** X18 ([main], [getNextFrame], [iterateCoordinates]).  On a corpus of
    three tokens or more, fewer than 65536, in which two different
    words occur from the third token on, the run of [main] stops on a
    read out of range: the tree of the first token has an entry without
    leaves after its first entry, and once the sweep coordinate has
    passed the leaves of the first entry [getNextFrame] reads the first
    leaf of that entry.  Before that the pairs of the first leaf with
    each leaf of the first entry have been visited, and no other. *)
Theorem search_stops_past_first_branch :
  forall a b c rest tr,
    size (a :: b :: c :: rest) < 65536 ->
    (2 <= length (distinct (c :: rest)))%nat ->
    snd (snd (main (Istream.File (a :: b :: c :: rest) tr))) = None /\
    visited (fst (snd (main (Istream.File (a :: b :: c :: rest) tr))))
    = map (fun j => ((0, 0), (0, N.of_nat j))) (seq 0 (length (distinct (c :: rest)))).
Proof.
  intros a b c rest tr Hlen H2. unfold main. rewrite load_seedTree.
  unfold size in Hlen. cbn [length] in Hlen.
  set (ws := a :: b :: c :: rest). set (d := vocabulary ws).
  set (sw := distinct (c :: rest)) in *.
  assert (Hd : (0 < length d)%nat).
  { destruct (vocabulary_length a (b :: c :: rest)) as [k Hk]. unfold d, ws. lia. }
  assert (Hsw : (length sw <= length rest + 1)%nat).
  { pose proof (distinct_length (c :: rest)). cbn [length] in *. unfold sw. lia. }
  assert (Hnd : NoDup sw) by (apply distinctFrom_NoDup; constructor).
  destruct sw as [|x [|y sw']] eqn:Esw; cbn [length] in H2; try lia.
  assert (Hxy : x <> y).
  { inversion Hnd as [|? ? Hx _]. intros ->. apply Hx. now left. }
  destruct (seedTree_second d b x y sw' Hxy) as (w2 & more & Hshape).
  set (trees := seedTree d b (x :: y :: sw') :: repeat [] (length d - 1)).
  assert (Hsize : size trees = size d) by now apply loaded_size.
  assert (Hids : Forall (fun e => fst e < size trees) (seedTree d b (x :: y :: sw'))).
  { apply seedTree_ids; rewrite Hsize.
    - unfold size. lia.
    - apply bounded_vocabulary. }
  pose proof (seedTree_leafCount d b (x :: y :: sw')) as Hlc.
  pose proof (seedTree_size d b (x :: y :: sw')) as Hsz.
  assert (Hsmall : size (x :: y :: sw') < 65536).
  { unfold size. cbn [length] in *. lia. }
  rewrite Hshape in Hids, Hlc, Hsz.
  destruct (searchRoot_leafless_second trees 0 (idOf d b) w2
              (map (idOf d) (x :: y :: sw')) more) with (frame := repeat sentinel 9)
    as (t & Hsearch & Hv).
  - unfold size. rewrite length_map. cbn [length]. lia.
  - unfold size in *. rewrite length_map. lia.
  - assert (H64 : 65537 < 2 ^ 64) by reflexivity.
    eapply N.le_lt_trans; [exact Hsz|]. lia.
  - assumption.
  - unfold trees. rewrite Hshape. reflexivity.
  - unfold size. rewrite length_map. cbn [length]. lia.
  - eapply N.le_lt_trans; [|exact Hsmall]. rewrite <- Hlc. apply N.le_refl.
  - apply reserved_blank.
  - rewrite bind_emit.
    rewrite (search_first_stops trees _ _ _ eq_refl Hsearch). cbn [fst snd]. split.
    + reflexivity.
    + cbn [visited flat_map app]. fold (visited t). rewrite Hv, length_map. reflexivity.
Qed.

(** X18 on the corpus of the four words a, b, c and d. *)
Lemma search_stops_past_first_branch_witness :
  size ["a"; "b"; "c"; "d"]%string < 65536 /\
  (2 <= length (distinct ["c"; "d"]%string))%nat /\
  snd (snd (main (corpus ["a"; "b"; "c"; "d"]%string))) = None /\
  visited (fst (snd (main (corpus ["a"; "b"; "c"; "d"]%string))))
  = [((0, 0), (0, 0)); ((0, 0), (0, 1))].
Proof.
  assert (H1 : size ["a"; "b"; "c"; "d"]%string < 65536) by reflexivity.
  assert (H2 : (2 <= length (distinct ["c"; "d"]%string))%nat) by (cbn; lia).
  split; [exact H1|]. split; [exact H2|].
  exact (search_stops_past_first_branch "a" "b" "c" ["d"%string] false H1 H2).
Defined.

(** X19 ([main]).  On a corpus of three tokens or more in which one
    word only occurs from the third token on, the run of [main]
    returns, after the one pair of the one leaf with itself. *)
Theorem search_returns_on_one_leaf :
  forall a b c rest tr,
    length (distinct (c :: rest)) = 1%nat ->
    exists frame,
      snd (snd (main (Istream.File (a :: b :: c :: rest) tr))) = Some frame /\
      visited (fst (snd (main (Istream.File (a :: b :: c :: rest) tr)))) = [((0, 0), (0, 0))].
Proof.
  intros a b c rest tr H1. unfold main. rewrite load_seedTree.
  set (ws := a :: b :: c :: rest). set (d := vocabulary ws).
  assert (Hd : (0 < length d)%nat).
  { destruct (vocabulary_length a (b :: c :: rest)) as [k Hk]. unfold d, ws. lia. }
  destruct (distinct (c :: rest)) as [|x [|y sw']]; try discriminate. clear H1.
  set (root := seedTree d b [x]).
  set (todo := repeat (@nil intVectorPair) (length d - 1)).
  set (trees := root :: todo).
  assert (Hsize : size trees = size d) by now apply loaded_size.
  assert (Hids : Forall (fun e => fst e < size trees) root).
  { apply seedTree_ids; rewrite Hsize.
    - unfold size. lia.
    - apply bounded_vocabulary. }
  destruct (searchRoot_single trees 0 root (idOf d b) (idOf d x)
              (map (fun w => (idOf d w, []))
                 (filter (fun w => negb (String.eqb w b)) [x]))
              (repeat sentinel 9) eq_refl eq_refl (seedTree_leafCount d b [x]) Hids
              reserved_blank) as (t & frame' & Hsearch & Hv & Hres).
  exists frame'.
  assert (Hrun : search trees
                 = (Line "begin search phase" :: Root 0 :: Visit (0, 0) (0, 0)
                      :: t ++ rootLines todo 1, Some frame')).
  { exact (search_first_returns trees root todo _ _ eq_refl (leafless_repeat _) Hsearch). }
  rewrite bind_emit, Hrun. cbn [fst snd]. split; [reflexivity|].
  cbn [visited flat_map app]. fold (visited (t ++ rootLines todo 1)).
  rewrite visited_app, Hv.
  assert (Hrl : forall l k, visited (rootLines l k) = []).
  { induction l as [|r l IH]; intros k; [reflexivity|]. cbn [rootLines visited flat_map app].
    apply IH. }
  now rewrite Hrl.
Qed.

(** X19 on a corpus whose words from the third on are the same. *)
Lemma search_returns_on_one_leaf_witness :
  length (distinct ["c"; "c"]%string) = 1%nat /\
  exists frame,
    snd (snd (main (corpus ["a"; "b"; "c"; "c"]%string))) = Some frame /\
    visited (fst (snd (main (corpus ["a"; "b"; "c"; "c"]%string)))) = [((0, 0), (0, 0))].
Proof.
  assert (H : length (distinct ["c"; "c"]%string) = 1%nat) by reflexivity.
  split; [exact H|].
  exact (search_returns_on_one_leaf "a" "b" "c" ["c"%string] false H).
Defined.

(** X20 ([load], [main]).  For a corpus of three tokens or more, white
    space after the last token changes nothing: the read loop works
    once more on the last word, which is a branch and a leaf already,
    and the forest, the reverse dictionary and the whole run are the
    same. *)
Theorem final_newline_changes_nothing :
  forall a b c rest,
    load (Istream.File (a :: b :: c :: rest) true)
    = load (Istream.File (a :: b :: c :: rest) false) /\
    main (Istream.File (a :: b :: c :: rest) true)
    = main (Istream.File (a :: b :: c :: rest) false).
Proof.
  intros a b c rest.
  assert (H : load (Istream.File (a :: b :: c :: rest) true)
              = load (Istream.File (a :: b :: c :: rest) false)).
  { pose proof (load_seedTree a b c rest true) as Ht.
    pose proof (load_seedTree a b c rest false) as Hf. cbv zeta in Ht, Hf.
    now rewrite Ht, Hf. }
  split; [exact H|]. unfold main. now rewrite H.
Qed.

(** X21 ([main], [load]).  On a corpus of three tokens or more, fewer
    than 65536, [main] prints a frame if and only if the second token
    is the first token again: the entries of slot 1 come from the tree
    of the second token, which has entries only when it is the tree of
    the first. *)
Theorem frames_need_repeated_first_token :
  forall a b c rest tr,
    size (a :: b :: c :: rest) < 65536 ->
    (emitted (fst (snd (main (Istream.File (a :: b :: c :: rest) tr)))) <> [] <-> a = b).
Proof.
  intros a b c rest tr Hlen.
  set (f := Istream.File (a :: b :: c :: rest) tr).
  pose proof (load_seedTree a b c rest tr) as Hload. cbv zeta in Hload. fold f in Hload.
  set (ws := a :: b :: c :: rest) in *. set (d := vocabulary ws) in *.
  set (sw := distinct (c :: rest)) in *.
  set (root := seedTree d b sw) in *.
  set (todo := repeat (@nil intVectorPair) (length d - 1)) in *.
  set (trees := root :: todo) in *.
  assert (Hen : enumerates d (distinct ws)) by apply vocabulary_cons_enumerates.
  assert (Hinj : injective d) by exact (enumerates_injective _ _ Hen).
  assert (Ha : Dictionary.find d a = Some 0) by apply vocabulary_first.
  assert (Hka : known d a) by (unfold known; congruence).
  assert (Hkb : known d b) by (apply vocabulary_known; right; now left).
  assert (Hforest : forest f = trees) by (unfold forest; now rewrite Hload).
  assert (Hevents : fst (snd (main f)) = Line "dictionary loaded" :: fst (search trees)).
  { rewrite main_events. now rewrite Hload. }
  split.
  - intros Hne.
    destruct (emitted (fst (snd (main f)))) as [|frame fs] eqn:Eem; [contradiction|].
    assert (Hin : In frame (emitted (fst (search (forest f))))).
    { rewrite <- main_emitted. fold f. rewrite Eem. now left. }
    rewrite Hforest in Hin.
    pose proof (search_emitted trees) as Hwf. rewrite Forall_forall in Hwf.
    destruct (Hwf frame Hin)
      as ((r & Hr & H1 & _ & (e & He & Hfst & Hleaf) & _) &
          (rootB & rootD & HB & _ & H4B & _) & _).
    assert (Hnil : forall i (x : top), at_ trees i = Some x -> x <> [] -> i = 0 /\ x = root).
    { intros i x Hat Hx. destruct (N.eqb_spec i 0) as [->|Hi].
      - cbn in Hat. injection Hat as <-. auto.
      - exfalso. unfold trees in Hat. cbn [at_] in Hat. apply N.eqb_neq in Hi.
        rewrite Hi in Hat. apply at_repeat_nil in Hat. contradiction. }
    assert (Hr0 : r = root).
    { apply (Hnil _ _ Hr). intros ->. contradiction. }
    assert (HB0 : slot frame 1 = 0).
    { apply (Hnil _ _ HB). intros ->. contradiction. }
    subst r. pose proof (seedTree_leaf_entry d b sw e _ He Hleaf) as Hid.
    apply (idOf_inj d a b Hinj Hka Hkb).
    rewrite (idOf_found _ _ _ Ha). congruence.
  - intros <-.
    assert (Ho : idOf d a = 0) by exact (idOf_found _ _ _ Ha).
    destruct (distinct_head c rest) as [sw' Hsw]. fold sw in Hsw.
    assert (Hsize : size trees = size d).
    { apply loaded_size. destruct (vocabulary_length a (a :: c :: rest)) as [k Hk].
      unfold d, ws. lia. }
    assert (Hids : Forall (fun e => fst e < size trees) root).
    { apply seedTree_ids; rewrite Hsize.
      - pose proof (vocabulary_size ws). fold d in H. lia.
      - apply bounded_vocabulary. }
    assert (Hlc : leafCount root = size sw) by apply seedTree_leafCount.
    assert (Hsmall : size sw < 65536).
    { pose proof (distinct_length (c :: rest)) as Hd. fold sw in Hd.
      unfold ws in Hlen. unfold size in *. cbn [length] in *. lia. }
    assert (Hmax : 0 < maximum root).
    { rewrite maximum_exact by (rewrite Hlc; exact Hsmall). rewrite Hlc.
      assert (1 <= size sw) by (rewrite Hsw; sizes; lia).
      assert (1 <= size sw * (size sw + 1) / 2); [|lia].
      apply N.div_le_lower_bound; [discriminate|]. nia. }
    assert (Hshape : root = (0, idOf d c :: map (idOf d) sw')
                            :: map (fun w => (idOf d w, []))
                                 (filter (fun w => negb (String.eqb w a)) sw)).
    { unfold root, seedTree. rewrite Ho. now rewrite Hsw at 1. }
    assert (Hf : exists f1, getNextFrame 0 root (repeat sentinel 9) (0, 0) (0, 0) false
                            = Some (f1, (0, 0), (0, 0), true)).
    { apply (getNextFrame_Some 0 root (repeat sentinel 9) (0, 0) (0, 0) false (0, 0) (0, 0)
               (0, idOf d c :: map (idOf d) sw') (idOf d c)
               (0, idOf d c :: map (idOf d) sw') (idOf d c) eq_refl);
        try (rewrite Hshape; reflexivity); reflexivity. }
    destruct Hf as [f1 Hf1].
    destruct (searchRoot_first_turn trees 0 root _ _ _ _ _ eq_refl Hmax Hf1 Hids
                reserved_blank) as (t1 & more & Hfst & Hem).
    pose proof (getNextFrame_spec _ _ _ _ _ _ _ _ _ _ Hf1)
      as (_ & _ & _ & b0 & c0 & d0 & g0 & Hb0 & _ & Hd0 & _ & Hat).
    rewrite Hshape in Hb0, Hd0. cbn in Hb0, Hd0.
    injection Hb0 as <-. injection Hd0 as <-.
    assert (H1 : slot f1 1 = 0) by (unfold slot; rewrite Hat; reflexivity).
    assert (H3 : slot f1 3 = 0) by (unfold slot; rewrite Hat; reflexivity).
    rewrite H1, H3 in Hem. change (at_ trees 0) with (Some root) in Hem.
    cbv iota beta in Hem.
    assert (Hfirst : exists ids, filter (matching root) (branchIds root) = 0 :: ids).
    { assert (Hbi : exists ids0, branchIds root = 0 :: ids0).
      { rewrite Hshape. cbn [branchIds map fst]. eauto. }
      destruct Hbi as [ids0 Hbi].
      assert (Hm : matching root 0 = true).
      { unfold matching. apply negb_true_iff, doesNotContain_false.
        rewrite Hbi. now left. }
      rewrite Hbi. cbn [filter]. rewrite Hm. eauto. }
    destruct Hfirst as [ids Hids0]. rewrite Hids0 in Hem. cbn [map] in Hem.
    rewrite Hevents. unfold search. rewrite bind_emit. cbn [fst].
    unfold trees at 1. cbn [rootLoop].
    match goal with
    | |- context [fst (bind ?m ?k)] => destruct (bind_fst m k) as [t' Ht']; rewrite Ht'
    end.
    rewrite Hfst. cbn [emitted flat_map app]. fold (emitted ((t1 ++ more) ++ t')).
    rewrite !emitted_app, Hem. discriminate.
Qed.

(** X21 on a corpus that starts with the same word twice, and on one that does not. *)
Lemma frames_need_repeated_first_token_witness :
  size ["a"; "a"; "b"]%string < 65536 /\
  emitted (fst (snd (main (corpus ["a"; "a"; "b"]%string)))) <> [] /\
  size ["a"; "b"; "b"]%string < 65536 /\
  emitted (fst (snd (main (corpus ["a"; "b"; "b"]%string)))) = [].
Proof.
  assert (H1 : size ["a"; "a"; "b"]%string < 65536) by reflexivity.
  assert (H2 : size ["a"; "b"; "b"]%string < 65536) by reflexivity.
  split; [exact H1|]. split; [|split; [exact H2|reflexivity]].
  exact (proj2 (frames_need_repeated_first_token "a" "a" "b" [] false H1) eq_refl).
Defined.

(** ** Files of fewer than three tokens *)

(** The build of a file of one token: the failed extraction of
    [oneBack] leaves it empty, and the empty word enters the dictionary
    with the id 0, the id of the token. *)
Lemma build_one_token a tr :
  build (Istream.File [a] tr)
  = Some ([[(0, [])]],
          match a with
          | EmptyString => [(EmptyString, 0)]
          | String _ _ => [(EmptyString, 0); (a, 0)]
          end).
Proof.
  destruct a as [|ch s]; [destruct tr; reflexivity|].
  unfold build. rewrite loadDictionary_spec.
  assert (H : Dictionary.index [(EmptyString, 0); (String ch s, size (@nil (string * N)))]
                (String ch s)
              = ([(EmptyString, 0); (String ch s, 0)], 0)).
  { unfold Dictionary.index. cbn [Dictionary.find].
    change (String.eqb EmptyString (String ch s)) with false.
    now rewrite String.eqb_refl. }
  destruct tr; cbn; rewrite H; reflexivity.
Qed.

(** X22 ([main], [load]).  On a file of one token or none, [main]
    prints the three lines "dictionary loaded", "begin search phase"
    and "root: ", and returns: the extraction of [oneBack] fails, the
    empty word enters the dictionary with the id 0, and it is the word
    that the id of the root resolves to, also when the file has a
    word. *)
Theorem short_file_output :
  forall f,
    (length (Istream.tokens f) <= 1)%nat ->
    stdout f = ["dictionary loaded"; "begin search phase"; "root: "]%string /\
    snd (snd (main f)) = Some blankFrame.
Proof.
  intros [[|a [|b rest]] tr] Hlen; [destruct tr; split; reflexivity| |cbn in Hlen; lia].
  unfold stdout, main, load. rewrite build_one_token.
  destruct a as [|ch s]; split; reflexivity.
Qed.

(** X22 on the file of the one word a. *)
Lemma short_file_output_witness :
  (length (Istream.tokens (corpus ["a"%string])) <= 1)%nat /\
  stdout (corpus ["a"%string])
  = ["dictionary loaded"; "begin search phase"; "root: "]%string.
Proof.
  assert (H : (length (Istream.tokens (corpus ["a"%string])) <= 1)%nat) by (cbn; lia).
  split; [exact H|]. exact (proj1 (short_file_output (corpus ["a"%string]) H)).
Defined.

Lemma compare_empty a : a <> EmptyString -> String.compare EmptyString a = Lt.
Proof. destruct a; [contradiction|reflexivity]. Qed.

(** The build of a file of two tokens and white space after them: the
    read loop makes one turn, on the failed extraction; its word is
    the empty one, which enters the dictionary with the id 0. *)
Lemma build_two_tokens_newline a b :
  a <> EmptyString -> b <> EmptyString ->
  build (Istream.File [a; b] true)
  = Some (if String.eqb a b then [[(0, [0])]] else [[(1, [0]); (0, [])]; []],
          (EmptyString, 0) :: vocabulary [a; b]).
Proof.
  intros Ha Hb.
  assert (Ea : String.eqb a EmptyString = false) by now apply String.eqb_neq.
  assert (Eb : String.eqb b EmptyString = false) by now apply String.eqb_neq.
  assert (Ea' : String.eqb EmptyString a = false) by (apply String.eqb_neq; congruence).
  assert (Eb' : String.eqb EmptyString b = false) by (apply String.eqb_neq; congruence).
  pose proof (compare_empty a Ha) as Ca. pose proof (compare_empty b Hb) as Cb.
  unfold build. rewrite loadDictionary_spec. cbn [Istream.tokens].
  destruct (String.eqb_spec a b) as [<-|Hne].
  - assert (Hd : vocabulary [a; a] = [(a, 0)]).
    { unfold vocabulary. cbn [fold_left].
      change (intern [] a) with [(a, 0)].
      apply intern_known with (v := 0). cbn. now rewrite String.eqb_refl. }
    rewrite Hd.
    repeat (cbn -[String.eqb String.compare]; unfold load_step, Dictionary.index;
            rewrite ?String.eqb_refl, ?Ea, ?Ea', ?Ca).
    reflexivity.
  - assert (Eab : String.eqb a b = false) by now apply String.eqb_neq.
    assert (Eba : String.eqb b a = false) by (apply String.eqb_neq; congruence).
    assert (Hd : vocabulary [a; b] = Dictionary.place [(a, 0)] b 1).
    { unfold vocabulary. cbn [fold_left]. change (intern [] a) with [(a, 0)].
      unfold intern, Dictionary.count, Dictionary.insert. cbn [Dictionary.find].
      rewrite Eab. reflexivity. }
    rewrite Hd. cbn [Dictionary.place].
    destruct (String.compare b a) eqn:Cba.
    + apply String.compare_eq_iff in Cba. congruence.
    + repeat (cbn -[String.eqb String.compare]; unfold load_step, Dictionary.index;
              rewrite ?String.eqb_refl, ?Ea, ?Ea', ?Eb, ?Eb', ?Eab, ?Eba, ?Ca, ?Cb).
      reflexivity.
    + repeat (cbn -[String.eqb String.compare]; unfold load_step, Dictionary.index;
              rewrite ?String.eqb_refl, ?Ea, ?Ea', ?Eb, ?Eb', ?Eab, ?Eba, ?Ca, ?Cb).
      reflexivity.
Qed.

(** X23 ([load], [main]).  On a file of exactly two tokens followed by
    white space, the read loop makes one turn, on a failed extraction:
    the empty word enters the dictionary with the id 0, it becomes the
    one leaf of the seed entry, and an entry of its own when the two
    tokens differ.  The id 0 then resolves to the empty word, the run
    returns, and it prints one frame, of the id 0 throughout, when the
    two tokens are the same, and none when they differ. *)
Theorem two_tokens_and_white_space :
  forall a b,
    a <> EmptyString -> b <> EmptyString ->
    build (Istream.File [a; b] true)
    = Some (if String.eqb a b then [[(0, [0])]] else [[(1, [0]); (0, [])]; []],
            (EmptyString, 0) :: vocabulary [a; b]) /\
    Reverse.index (fst (main (Istream.File [a; b] true))) 0 = EmptyString /\
    snd (snd (main (Istream.File [a; b] true))) <> None /\
    emitted (fst (snd (main (Istream.File [a; b] true))))
    = if String.eqb a b then [[0; 0; 0; 0; 0; sentinel; 0; sentinel; sentinel]] else [].
Proof.
  intros a b Ha Hb. pose proof (build_two_tokens_newline a b Ha Hb) as Hbuild.
  split; [exact Hbuild|]. unfold main, load. rewrite Hbuild. cbn [fst snd].
  split; [|destruct (String.eqb a b); split; [discriminate|reflexivity|discriminate|reflexivity]].
  unfold Reverse.index. rewrite reverseEntries_find. reflexivity.
Qed.

(** X23 on the file of the word a twice and a newline. *)
Lemma two_tokens_and_white_space_witness :
  "a"%string <> EmptyString /\
  build (Istream.File ["a"; "a"]%string true)
  = Some ([[(0, [0])]], [(EmptyString, 0); ("a"%string, 0)]) /\
  emitted (fst (snd (main (Istream.File ["a"; "a"]%string true))))
  = [[0; 0; 0; 0; 0; sentinel; 0; sentinel; sentinel]].
Proof.
  assert (H : "a"%string <> EmptyString) by discriminate.
  split; [exact H|].
  pose proof (two_tokens_and_white_space "a" "a" H H) as (Hb & _ & _ & He).
  split; [exact Hb|exact He].
Defined.
